(** * Verification of the quantum state evolution engine

    The engine is TypeScript.  Its amplitudes and probabilities are IEEE 754
    binary64 values, which the kernel's primitive floats model operation for
    operation: [+], [-], [*], [/], [sqrt] and the comparisons are the
    correctly rounded binary64 ones, with their NaN, infinities and signed
    zeros.  Qubit counts and basis indices are integers and are modelled in
    [Z], with the 32-bit wrap-around of the bitwise operators written out.
    The qubit indices handed to [addGate], to the encodings that call it and
    to [applyTwoQubitGate] are numbers of any value (NaN, an infinity, a
    fraction), and are modelled as such; the other methods are modelled on
    integer indices.  [Math.random()] is not modelled as a source of
    randomness: every method that draws takes the value drawn as an argument.
    Objects that are mutated in place (the qubits of a circuit) live in an
    explicit store and are passed around as references, and so do the index
    arrays that a circuit keeps; a method is a function from the state of
    its object to an outcome (a value or an exception) and the state it
    leaves. *)

From Stdlib Require Import ZArith QArith Floats Lia Bool Ascii.
From stdpp Require Import base list strings.

Local Open Scope float_scope.

(** ** Numbers *)

Module Num.

(** The value the conversion of a non-number to a number yields. *)
Definition NaN : float := nan.

Definition is_nan (x : float) : bool := negb (x =? x).

(** [x ** 2]: exponentiation by the constant 2, taken as the correctly
    rounded product of [x] with itself. *)
Definition sq (x : float) : float := x * x.

(** [Math.abs]. *)
Definition Math_abs (x : float) : float := abs x.

(** [Math.sqrt]. *)
Definition Math_sqrt (x : float) : float := sqrt x.

End Num.

(** ** utils/complex-utils *)

Record Complex : Type := complex { real : float; imag : float }.

(** What a call site can hand to a parameter declared [number]: the type
    annotations are erased when the program runs, and the state-vector code
    and the CZ gate pass a [Complex] where [scale] declares a [number]. *)
Inductive jsvalue : Type :=
  | JNumber (x : float)
  | JObject (c : Complex)
  | JUndefined.

(** [ToNumber] of the language: a number is itself; a plain object has no
    numeric [valueOf], its string form is not a numeric literal, and the
    conversion yields NaN; [undefined] converts to NaN as well. *)
Definition ToNumber (v : jsvalue) : float :=
  match v with
  | JNumber x => x
  | JObject _ => Num.NaN
  | JUndefined => Num.NaN
  end.

Coercion JNumber : float >-> jsvalue.

Definition ZERO : Complex := complex 0 0.
Definition ONE : Complex := complex 1 0.
Definition I : Complex := complex 0 1.

Definition add (a b : Complex) : Complex :=
  {| real := real a + real b; imag := imag a + imag b |}.

Definition subtract (a b : Complex) : Complex :=
  {| real := real a - real b; imag := imag a - imag b |}.

Definition multiply (a b : Complex) : Complex :=
  {| real := real a * real b - imag a * imag b;
     imag := real a * imag b + imag a * real b |}.

(** [scale]: both products apply the multiplication operator to the second
    argument, which converts it with [ToNumber] first. *)
Definition scale (a : Complex) (scalar : jsvalue) : Complex :=
  {| real := real a * ToNumber scalar;
     imag := imag a * ToNumber scalar |}.

Definition conjugate (a : Complex) : Complex :=
  {| real := real a; imag := - imag a |}.

Definition magnitude (a : Complex) : float :=
  Num.Math_sqrt (real a * real a + imag a * imag a).

(** [phase] and [exp] go through [Math.atan2], [Math.exp], [Math.cos] and
    [Math.sin], which the language leaves to the implementation. *)
Section Transcendental.

Variable Math_atan2 : float -> float -> float.
Variables Math_exp Math_cos Math_sin : float -> float.

Definition phase (a : Complex) : float := Math_atan2 (imag a) (real a).

Definition exp (a : Complex) : Complex :=
  let expReal := Math_exp (real a) in
  {| real := expReal * Math_cos (imag a); imag := expReal * Math_sin (imag a) |}.

End Transcendental.

(** ** quantum/qubit *)

Record Qubit : Type := mkQubit { alpha : Complex; beta : Complex }.

Module QubitOps.

(** [normalize]: divides both amplitudes by the norm when the norm is
    positive, and leaves them as they are otherwise. *)
Definition normalize (q : Qubit) : Qubit :=
  let norm := Num.Math_sqrt (Num.sq (magnitude (alpha q)) + Num.sq (magnitude (beta q))) in
  if 0 <? norm then
    {| alpha := scale (alpha q) (1 / norm); beta := scale (beta q) (1 / norm) |}
  else q.

(** The constructor, with its defaults when called with no argument. *)
Definition new (a b : Complex) : Qubit := normalize (mkQubit a b).
Definition new_default : Qubit := new ONE ZERO.

(** [setState] overwrites both amplitudes and normalizes. *)
Definition setState (_ : Qubit) (a b : Complex) : Qubit := normalize (mkQubit a b).

Definition probabilityZero (q : Qubit) : float := Num.sq (magnitude (alpha q)).
Definition probabilityOne (q : Qubit) : float := Num.sq (magnitude (beta q)).

(** [measure]: [random] is the value [Math.random()] returned.  The result
    is the collapsed qubit and the outcome. *)
Definition measure (q : Qubit) (random : float) : Qubit * Z :=
  let p0 := probabilityZero q in
  if random <? p0 then (setState q ONE ZERO, 0%Z)
  else (setState q ZERO ONE, 1%Z).

Definition clone (q : Qubit) : Qubit := new (alpha q) (beta q).

End QubitOps.


(** ** Numbers as indices

    A qubit index is a [number] of the language: a binary64 value, which is
    NaN, an infinity or finite, and a finite one is a rational.  What the
    engine does with an index (it compares it, uses it as an array
    subscript, converts it to a 32-bit integer for a shift, prints it in a
    message) depends on that value only, so an index is modelled by its
    value.  Negative zero is zero here: none of these operations tells the
    two apart. *)
Inductive number : Type :=
  | Finite (value : Q)
  | NotANumber
  | PlusInfinity
  | MinusInfinity.

(** An integer as a number. *)
Definition Int (i : Z) : number := Finite (inject_Z i).

(** ** Exceptions and mutable objects

    A method runs against the object it is called on: it returns normally
    with a value or throws, and in both cases the object is left in
    whatever state the method had reached. *)

(** The exceptions of the engine, one constructor per [throw] site (its
    message is quoted), and the two the language raises by itself. *)
Inductive Error : Type :=
  | ErrCapacity
      (* "StateVector simulator supports up to 15 qubits due to memory constraints" *)
  | ErrDimension (dimension : Z)
      (* "State vector must have dimension ${dimension}" *)
  | ErrNotNormalized
      (* "State vector must be normalized" *)
  | ErrExpectedSingleQubitGate (name : string) (numQubits : Z)
      (* "Expected single-qubit gate, got ${name} with ${numQubits} qubits" *)
  | ErrExpectedTwoQubitGate (name : string) (numQubits : Z)
      (* "Expected two-qubit gate, got ${name} with ${numQubits} qubits" *)
  | ErrInvalidQubitIndex (index : number)
      (* "Invalid qubit index: ${index}" *)
  | ErrInvalidQubitIndices (q1 q2 : number)
      (* "Invalid qubit indices: ${q1}, ${q2}" *)
  | ErrSameQubit
      (* "Cannot apply two-qubit gate to the same qubit" *)
  | ErrGateRequires (name : string) (numQubits : Z) (provided : nat)
      (* "Gate ${name} requires ${numQubits} qubits, but ${provided} were provided" *)
  | ErrRequiresExactly (name : string) (n : nat)
      (* "${name} gate requires exactly ${n} qubit(s)" *)
  | TypeError
      (* a property read on [undefined] *)
  | RangeError.
      (* "Invalid array length" *)

(** The exceptions of [getProbability] and of the data encodings, and the
    ones above when they come out of a call these make. *)
Inductive Failure : Type :=
  | Thrown (e : Error)
  | ErrBasisLength (numQubits : Z)
      (* "Basis state must have ${numQubits} qubits" *)
  | ErrNotBinary
      (* "Basis state must contain only 0s and 1s" *)
  | ErrNotEnoughQubits (encoding : string)
      (* "Not enough qubits for ${encoding} encoding" *)
  | ErrDataNotBinary
      (* "Basis encoding requires binary data (0 or 1)" *)
  | ErrCannotEncode (values : nat) (numQubits : Z)
      (* "Cannot encode ${data.length} values with ${numQubits} qubits" *)
  | ErrAllZeros.
      (* "Data vector cannot be all zeros" *)

Definition result (A : Type) : Type := Error + A.

Definition method (S A : Type) : Type := S -> result A * S.

Module M.

Definition ret {S A} (a : A) : method S A := fun s => (inr a, s).

Definition throw {S A} (e : Error) : method S A := fun s => (inl e, s).

Definition bind {S A B} (m : method S A) (k : A -> method S B) : method S B :=
  fun s =>
    match m s with
    | (inr a, s') => k a s'
    | (inl e, s') => (inl e, s')
    end.

(** A computation that touches no object. *)
Definition lift {S A} (r : result A) : method S A := fun s => (r, s).

(** [for (const x of xs) body(x)]. *)
Fixpoint for_each {S A} (body : A -> method S unit) (xs : list A) : method S unit :=
  match xs with
  | [] => ret tt
  | x :: xs' => bind (body x) (fun _ => for_each body xs')
  end.

End M.

Declare Scope method_scope.
Delimit Scope method_scope with method.
Notation "'let!' x := m 'in' k" := (M.bind m (fun x => k))
  (at level 10, x name, m at level 100, k at level 200) : method_scope.

(** Pure computations that may throw. *)
Module R.

Definition bind {A B} (r : result A) (k : A -> result B) : result B :=
  match r with
  | inr a => k a
  | inl e => inl e
  end.

(** A loop that threads its local variables [acc] through the iterations. *)
Fixpoint for_loop {A X} (body : X -> A -> result A) (xs : list X) (acc : A) : result A :=
  match xs with
  | [] => inr acc
  | x :: xs' => bind (body x acc) (for_loop body xs')
  end.

End R.

Declare Scope result_scope.
Delimit Scope result_scope with result.
Notation "'let!' x := r 'in' k" := (R.bind r (fun x => k))
  (at level 10, x name, r at level 100, k at level 200) : result_scope.

(** ** 32-bit integer operators

    The bitwise operators convert their operands to 32-bit two's complement
    integers, and the shifts use the low five bits of the count. *)
Module Int32.

Definition wrap (x : Z) : Z := ((x + 2 ^ 31) mod 2 ^ 32 - 2 ^ 31)%Z.

Definition shl (a n : Z) : Z := wrap (Z.shiftl (wrap a) (Z.land n 31)).
Definition shr (a n : Z) : Z := Z.shiftr (wrap a) (Z.land n 31).
Definition and (a b : Z) : Z := Z.land (wrap a) (wrap b).
Definition or (a b : Z) : Z := Z.lor (wrap a) (wrap b).
Definition xor (a b : Z) : Z := Z.lxor (wrap a) (wrap b).
Definition not (a : Z) : Z := Z.lnot (wrap a).

End Int32.

(** ** Operators on numbers *)
Module Number.

(** [x < y]: false when either side is NaN. *)
Definition ltb (x y : number) : bool :=
  match x, y with
  | NotANumber, _ | _, NotANumber => false
  | Finite p, Finite q => (Qnum p * QDen q <? Qnum q * QDen p)%Z
  | Finite _, PlusInfinity => true
  | Finite _, MinusInfinity => false
  | MinusInfinity, MinusInfinity => false
  | MinusInfinity, _ => true
  | PlusInfinity, _ => false
  end.

(** [x >= y]: false when either side is NaN. *)
Definition geb (x y : number) : bool :=
  match x, y with
  | NotANumber, _ | _, NotANumber => false
  | _, _ => negb (ltb x y)
  end.

(** [x === y]: false when either side is NaN. *)
Definition eqb (x y : number) : bool :=
  match x, y with
  | Finite p, Finite q => (Qnum p * QDen q =? Qnum q * QDen p)%Z
  | PlusInfinity, PlusInfinity => true
  | MinusInfinity, MinusInfinity => true
  | _, _ => false
  end.

(** The element of an array that the subscript [a[x]] names: the one at
    [x] when [x] is a non-negative integer, none otherwise (the property
    ["0.5"] or ["NaN"] of an array is [undefined]). *)
Definition subscript (x : number) : option nat :=
  match x with
  | Finite q =>
      if (0 <=? Qnum q)%Z && (Qnum q mod QDen q =? 0)%Z
      then Some (Z.to_nat (Qnum q / QDen q))
      else None
  | _ => None
  end.

(** [ToInt32], the conversion the shifts apply to their operands: NaN and
    the infinities give 0, a finite number is truncated toward zero and
    wrapped. *)
Definition ToInt32 (x : number) : Z :=
  match x with
  | Finite q => Int32.wrap (Z.quot (Qnum q) (QDen q))
  | _ => 0%Z
  end.

End Number.

(** ** Arrays of amplitudes *)

Definition ComplexMatrix : Type := list (list Complex).

(** [Array(n).fill(x)]: a negative length is refused. *)
Definition Array_fill {A} (n : Z) (x : A) : result (list A) :=
  if (n <? 0)%Z then inl RangeError else inr (replicate (Z.to_nat n) x).

(** [a[i]] read for use as an object: an index outside the array reads
    [undefined], and the property read that follows throws. *)
Definition at_ {A} (a : list A) (i : Z) : result A :=
  if (i <? 0)%Z then inl TypeError
  else match a !! Z.to_nat i with
       | Some x => inr x
       | None => inl TypeError
       end.

(** [a[i] = x] for an index inside the array.  (Outside it the language
    would grow the array; [flipped_in_range] and [new_state_in_range] below
    show that the loops of [StateVector] never get there.) *)
Definition set_at {A} (a : list A) (i : Z) (x : A) : list A :=
  <[Z.to_nat i := x]> a.

(** [m[r][c]]. *)
Definition entry (m : ComplexMatrix) (r c : Z) : result Complex :=
  (let! row := at_ m r in at_ row c)%result.

(** [m[r][c]] as a value that is handed on without being looked into: a
    missing row throws at the second subscript, a missing column reads
    [undefined]. *)
Definition entry_value (m : ComplexMatrix) (r c : Z) : result jsvalue :=
  (let! row := at_ m r in
   inr (if (c <? 0)%Z then JUndefined
        else match row !! Z.to_nat c with
             | Some x => JObject x
             | None => JUndefined
             end))%result.

(** The indices [0, 1, ..., n-1] a counting loop runs through. *)
Definition upto (n : Z) : list Z := Z.of_nat <$> seq 0 (Z.to_nat n).

(** ** quantum/quantum-gates

    [apply] mutates the qubit objects it is handed.  The objects live in a
    store; what the method receives is an array of references into it, where
    two entries may be the same object and an entry may be [undefined]. *)

Definition Store : Type := list Qubit.

Definition ref : Type := option nat.

(** The object behind a reference, for a property read or a method call. *)
Definition deref (r : ref) : method Store Qubit :=
  fun st =>
    match r with
    | Some l => match st !! l with
                | Some q => (inr q, st)
                | None => (inl TypeError, st)
                end
    | None => (inl TypeError, st)
    end.

(** [r.setState(a, b)]. *)
Definition call_setState (r : ref) (a b : Complex) : method Store unit :=
  fun st =>
    match r with
    | Some l => match st !! l with
                | Some q => (inr tt, <[l := QubitOps.setState q a b]> st)
                | None => (inl TypeError, st)
                end
    | None => (inl TypeError, st)
    end.

(** [qubits[i]]: the i-th reference of the argument array. *)
Definition arg (qubits : list ref) (i : nat) : ref :=
  match qubits !! i with
  | Some r => r
  | None => None
  end.

Record QuantumGate : Type := mkGate {
  name : string;
  numQubits : Z;
  matrix : ComplexMatrix;
  apply : list ref -> method Store unit
}.

Local Open Scope method_scope.

(** [SingleQubitGate.apply]. *)
Definition SingleQubitGate_apply (name : string) (matrix : ComplexMatrix)
    (qubits : list ref) : method Store unit :=
  if negb (length qubits =? 1)%nat then M.throw (ErrRequiresExactly name 1)
  else
    let qubit := arg qubits 0 in
    let! m00 := M.lift (entry matrix 0 0) in
    let! q := deref qubit in
    let! m01 := M.lift (entry matrix 0 1) in
    let newAlpha := add (multiply m00 (alpha q)) (multiply m01 (beta q)) in
    let! m10 := M.lift (entry matrix 1 0) in
    let! m11 := M.lift (entry matrix 1 1) in
    let newBeta := add (multiply m10 (alpha q)) (multiply m11 (beta q)) in
    call_setState qubit newAlpha newBeta.

Definition SingleQubitGate (name : string) (matrix : ComplexMatrix) : QuantumGate :=
  {| name := name; numQubits := 1; matrix := matrix;
     apply := SingleQubitGate_apply name matrix |}.

Definition HadamardGate : QuantumGate :=
  SingleQubitGate "H"
    [ [scale ONE (1 / Num.Math_sqrt 2); scale ONE (1 / Num.Math_sqrt 2)];
      [scale ONE (1 / Num.Math_sqrt 2); scale ONE (-1 / Num.Math_sqrt 2)] ].

Definition PauliXGate : QuantumGate :=
  SingleQubitGate "X" [ [ZERO; ONE]; [ONE; ZERO] ].

Definition PauliYGate : QuantumGate :=
  SingleQubitGate "Y" [ [ZERO; scale I (-1)]; [I; ZERO] ].

Definition PauliZGate : QuantumGate :=
  SingleQubitGate "Z" [ [ONE; ZERO]; [ZERO; scale ONE (-1)] ].

Definition PhaseGate : QuantumGate :=
  SingleQubitGate "S" [ [ONE; ZERO]; [ZERO; I] ].

(** The gates whose matrices go through [Math.cos] and [Math.sin], which
    the language leaves to the implementation. *)
Section Trigonometric.

Variables Math_cos Math_sin : float -> float.

Definition Math_PI : float := 0x1.921fb54442d18p+1.

Definition TGate : QuantumGate :=
  SingleQubitGate "T"
    [ [ONE; ZERO];
      [ZERO; complex (Math_cos (Math_PI / 4)) (Math_sin (Math_PI / 4))] ].

Definition RXGate (theta : float) : QuantumGate :=
  let cos := Math_cos (theta / 2) in
  let sin := Math_sin (theta / 2) in
  SingleQubitGate "RX"
    [ [complex cos 0; complex 0 (- sin)];
      [complex 0 (- sin); complex cos 0] ].

Definition RYGate (theta : float) : QuantumGate :=
  let cos := Math_cos (theta / 2) in
  let sin := Math_sin (theta / 2) in
  SingleQubitGate "RY"
    [ [complex cos 0; complex (- sin) 0];
      [complex sin 0; complex cos 0] ].

Definition RZGate (theta : float) : QuantumGate :=
  let phase := theta / 2 in
  SingleQubitGate "RZ"
    [ [complex (Math_cos phase) (- Math_sin phase); ZERO];
      [ZERO; complex (Math_cos phase) (Math_sin phase)] ].

End Trigonometric.

(** [CNOTGate.apply]: the target is blended with its flipped self by the
    control's probability of one. *)
Definition CNOTGate_apply (qubits : list ref) : method Store unit :=
  if negb (length qubits =? 2)%nat then M.throw (ErrRequiresExactly "CNOT" 2)
  else
    let control := arg qubits 0 in
    let target := arg qubits 1 in
    let! c := deref control in
    if 0 <? QubitOps.probabilityOne c then
      let p1 := QubitOps.probabilityOne c in
      let! t := deref target in
      let newAlpha :=
        complex (real (alpha t) * (1 - p1) + real (beta t) * p1)
                (imag (alpha t) * (1 - p1) + imag (beta t) * p1) in
      let newBeta :=
        complex (real (beta t) * (1 - p1) + real (alpha t) * p1)
                (imag (beta t) * (1 - p1) + imag (alpha t) * p1) in
      call_setState target newAlpha newBeta
    else M.ret tt.

Definition CNOTGate : QuantumGate :=
  {| name := "CNOT"; numQubits := 2;
     matrix := [ [ONE; ZERO; ZERO; ZERO];
                 [ZERO; ONE; ZERO; ZERO];
                 [ZERO; ZERO; ZERO; ONE];
                 [ZERO; ZERO; ONE; ZERO] ];
     apply := CNOTGate_apply |}.

(** [CZGate.apply]: the factor handed to [scale] is a [Complex]. *)
Definition CZGate_apply (qubits : list ref) : method Store unit :=
  if negb (length qubits =? 2)%nat then M.throw (ErrRequiresExactly "CZ" 2)
  else
    let control := arg qubits 0 in
    let target := arg qubits 1 in
    let! c := deref control in
    if 0 <? QubitOps.probabilityOne c then
      let p1 := QubitOps.probabilityOne c in
      let! t := deref target in
      let newBeta := scale (beta t) (JObject (complex (1 - 2 * p1) 0)) in
      call_setState target (alpha t) newBeta
    else M.ret tt.

Definition CZGate : QuantumGate :=
  {| name := "CZ"; numQubits := 2;
     matrix := [ [ONE; ZERO; ZERO; ZERO];
                 [ZERO; ONE; ZERO; ZERO];
                 [ZERO; ZERO; ONE; ZERO];
                 [ZERO; ZERO; ZERO; scale ONE (-1)] ];
     apply := CZGate_apply |}.

(** [SWAPGate.apply]. *)
Definition SWAPGate_apply (qubits : list ref) : method Store unit :=
  if negb (length qubits =? 2)%nat then M.throw (ErrRequiresExactly "SWAP" 2)
  else
    let q1 := arg qubits 0 in
    let q2 := arg qubits 1 in
    let! a := deref q1 in
    let tempAlpha := alpha a in
    let tempBeta := beta a in
    let! b := deref q2 in
    let! _ := call_setState q1 (alpha b) (beta b) in
    call_setState q2 tempAlpha tempBeta.

Definition SWAPGate : QuantumGate :=
  {| name := "SWAP"; numQubits := 2;
     matrix := [ [ONE; ZERO; ZERO; ZERO];
                 [ZERO; ZERO; ONE; ZERO];
                 [ZERO; ONE; ZERO; ZERO];
                 [ZERO; ZERO; ZERO; ONE] ];
     apply := SWAPGate_apply |}.

Definition H : QuantumGate := HadamardGate.
Definition X : QuantumGate := PauliXGate.
Definition Y : QuantumGate := PauliYGate.
Definition Z_ : QuantumGate := PauliZGate.
Definition S_ : QuantumGate := PhaseGate.
Definition CNOT : QuantumGate := CNOTGate.
Definition CZ : QuantumGate := CZGate.
Definition SWAP : QuantumGate := SWAPGate.

(** ** quantum/quantum-circuit *)

(** The index arrays of a program, by identity.  [addGate] pushes the
    array it is handed, not a copy of it: the array an operation holds is
    the caller's, and what [execute] finds in it is what the caller has left
    there.  An operation therefore holds a reference into the arrays. *)
Definition Arrays : Type := list (list number).

Record Operation : Type := mkOperation { gate : QuantumGate; qubits : nat }.

Record QuantumCircuit : Type := mkCircuit {
  _qubits : Store;
  _operations : list Operation
}.

Module Circuit.

(** The constructor: [numQubits] fresh qubits and no operation. *)
Definition new (numQubits : Z) : result QuantumCircuit :=
  (let! slots := Array_fill numQubits tt in
   inr {| _qubits := (fun _ => QubitOps.new_default) <$> slots; _operations := [] |})%result.

(** [this._qubits.length]. *)
Definition qubits_length (c : QuantumCircuit) : Z := Z.of_nat (length (_qubits c)).

Definition operations (c : QuantumCircuit) : list Operation := _operations c.

(** [this._qubits[index]] as a reference. *)
Definition qubit_ref (c : QuantumCircuit) (index : Z) : ref :=
  if (index <? 0)%Z then None
  else if (index <? qubits_length c)%Z then Some (Z.to_nat index) else None.

(** [this._qubits[index]] for an index that is any number. *)
Definition qubit_at (c : QuantumCircuit) (index : number) : ref :=
  match Number.subscript index with
  | Some l => if (l <? length (_qubits c))%nat then Some l else None
  | None => None
  end.

(** Runs a method of the qubit array inside the circuit. *)
Definition on_qubits {A} (m : method Store A) : method QuantumCircuit A :=
  fun c => let '(r, st) := m (_qubits c) in
           (r, {| _qubits := st; _operations := _operations c |}).

Definition reset : method QuantumCircuit unit :=
  fun c => (inr tt, {| _qubits := (fun q => QubitOps.setState q ONE ZERO) <$> _qubits c;
                       _operations := [] |}).

Definition initialize (index : Z) (alpha beta : Complex) : method QuantumCircuit unit :=
  fun c =>
    if (index <? 0)%Z || (qubits_length c <=? index)%Z
    then M.throw (ErrInvalidQubitIndex (Int index)) c
    else on_qubits (call_setState (qubit_ref c index) alpha beta) c.

(** The index check of [addGate], run for every index in order. *)
Definition check_index (c : QuantumCircuit) (index : number) : method QuantumCircuit unit :=
  if Number.ltb index (Int 0) || Number.geb index (Int (qubits_length c))
  then M.throw (ErrInvalidQubitIndex index)
  else M.ret tt.

(** [addGate(gate, qubits)]: [qubits] is the reference of the caller's
    array, read in [arrays]; the operation keeps the reference.  (Every
    reference a caller holds names an array; for one that names none the
    read of [qubits.length] throws.) *)
Definition addGate (arrays : Arrays) (gate : QuantumGate) (qubits : nat)
    : method QuantumCircuit unit :=
  fun c =>
    match arrays !! qubits with
    | None => (inl TypeError, c)
    | Some indices =>
        (if negb (Z.of_nat (length indices) =? numQubits gate)%Z
         then M.throw (ErrGateRequires (name gate) (numQubits gate) (length indices))
         else
           let! _ := M.for_each (check_index c) indices in
           fun c' => (inr tt, {| _qubits := _qubits c';
                                 _operations := _operations c' ++ [mkOperation gate qubits] |})) c
    end.

(** One iteration of the loop of [execute]: the indices are those the
    array of the operation holds now. *)
Definition execute_step (arrays : Arrays) (op : Operation) : method QuantumCircuit unit :=
  fun c =>
    match arrays !! qubits op with
    | None => (inl TypeError, c)
    | Some indices => on_qubits (apply (gate op) (qubit_at c <$> indices)) c
    end.

Definition execute (arrays : Arrays) : method QuantumCircuit unit :=
  fun c => M.for_each (execute_step arrays) (_operations c) c.

(** [measure]: [random] is the draw of the qubit's [measure]. *)
Definition measure (index : Z) (random : float) : method QuantumCircuit Z :=
  fun c =>
    if (index <? 0)%Z || (qubits_length c <=? index)%Z
    then (inl (ErrInvalidQubitIndex (Int index)), c)
    else
      match _qubits c !! Z.to_nat index with
      | Some q =>
          let '(q', outcome) := QubitOps.measure q random in
          (inr outcome, {| _qubits := <[Z.to_nat index := q']> (_qubits c);
                           _operations := _operations c |})
      | None => (inl TypeError, c)
      end.

Definition clone (c : QuantumCircuit) : QuantumCircuit :=
  {| _qubits := (fun q => QubitOps.setState QubitOps.new_default (alpha q) (beta q)) <$> _qubits c;
     _operations := _operations c |}.

(** [measureAll]: the qubits are measured in index order; [randoms i] is
    the draw of the measurement of qubit [i]. *)
Fixpoint measure_from (randoms : nat -> float) (i : nat) (qs : list Qubit)
    : list Qubit * list Z :=
  match qs with
  | [] => ([], [])
  | q :: rest =>
      let '(q', outcome) := QubitOps.measure q (randoms i) in
      let '(rest', outcomes) := measure_from randoms (S i) rest in
      (q' :: rest', outcome :: outcomes)
  end.

Definition measureAll (randoms : nat -> float) : method QuantumCircuit (list Z) :=
  fun c =>
    let '(qs, outcomes) := measure_from randoms 0 (_qubits c) in
    (inr outcomes, {| _qubits := qs; _operations := _operations c |}).

Definition numQubits (c : QuantumCircuit) : Z := qubits_length c.

End Circuit.

(** ** quantum/state-vector *)

Record StateVector : Type := mkStateVector {
  _numQubits : Z;
  _stateVector : list Complex
}.

Module SV.

Local Open Scope result_scope.

(** The constructor. *)
Definition new (numQubits : Z) : result StateVector :=
  if (15 <? numQubits)%Z then inl ErrCapacity
  else
    let dimension := Int32.shl 1 numQubits in
    let! zeros := Array_fill dimension ZERO in
    inr {| _numQubits := numQubits; _stateVector := set_at zeros 0 ONE |}.

Definition dimension (sv : StateVector) : Z := Int32.shl 1 (_numQubits sv).

Definition stateVector (sv : StateVector) : list Complex := _stateVector sv.

(** Replaces the amplitude array once [compute] has produced the new one;
    when [compute] throws, the object keeps the array it had. *)
Definition replace_with (compute : StateVector -> result (list Complex))
    : method StateVector unit :=
  fun sv =>
    match compute sv with
    | inr v => (inr tt, {| _numQubits := _numQubits sv; _stateVector := v |})
    | inl e => (inl e, sv)
    end.

Definition reset : method StateVector unit :=
  replace_with (fun sv =>
    let! zeros := Array_fill (dimension sv) ZERO in
    inr (set_at zeros 0 ONE)).

(** The literal [1e-10], as the binary64 value nearest to it. *)
Definition tolerance : float := 0x1.b7cdfd9d7bdbbp-34.

(** The sum of the squared magnitudes, accumulated from the left. *)
Definition norm_of (v : list Complex) : float :=
  foldl (fun norm amplitude => norm + Num.sq (magnitude amplitude)) 0%float v.

Definition setState (stateVector : list Complex) : method StateVector unit :=
  replace_with (fun sv =>
    if negb (Z.of_nat (length stateVector) =? dimension sv)%Z
    then inl (ErrDimension (dimension sv))
    else
      let norm := norm_of stateVector in
      if (tolerance <? Num.Math_abs (norm - 1))%float then inl ErrNotNormalized
      else inr stateVector).

(** One iteration of the loop of [applySingleQubitGate]. *)
Definition single_step (old : list Complex) (m : ComplexMatrix) (qubitIndex : Z)
    (i : Z) (newStateVector : list Complex) : result (list Complex) :=
  let bit := Int32.and (Int32.shr i qubitIndex) 1 in
  let flippedIndex := Int32.xor i (Int32.shl 1 qubitIndex) in
  if (bit =? 0)%Z then
    let! n_i := at_ newStateVector i in
    let! s_i := at_ old i in
    let! m00 := entry_value m 0 0 in
    let newStateVector := set_at newStateVector i (add n_i (scale s_i m00)) in
    let! n_f := at_ newStateVector flippedIndex in
    let! m10 := entry_value m 1 0 in
    inr (set_at newStateVector flippedIndex (add n_f (scale s_i m10)))
  else
    let! n_f := at_ newStateVector flippedIndex in
    let! s_i := at_ old i in
    let! m01 := entry_value m 0 1 in
    let newStateVector := set_at newStateVector flippedIndex (add n_f (scale s_i m01)) in
    let! n_i := at_ newStateVector i in
    let! m11 := entry_value m 1 1 in
    inr (set_at newStateVector i (add n_i (scale s_i m11))).

Definition applySingleQubitGate (gate : QuantumGate) (qubitIndex : Z)
    : method StateVector unit :=
  replace_with (fun sv =>
    if negb (numQubits gate =? 1)%Z
    then inl (ErrExpectedSingleQubitGate (name gate) (numQubits gate))
    else if (qubitIndex <? 0)%Z || (_numQubits sv <=? qubitIndex)%Z
    then inl (ErrInvalidQubitIndex (Int qubitIndex))
    else
      let! newStateVector := Array_fill (dimension sv) ZERO in
      R.for_loop (single_step (_stateVector sv) (matrix gate) qubitIndex)
        (upto (dimension sv)) newStateVector).

(** One iteration of the inner loop of [applyTwoQubitGate]. *)
Definition two_inner (old : list Complex) (m : ComplexMatrix) (control target : Z)
    (i stateIndex : Z) (j : Z) (newStateVector : list Complex) : result (list Complex) :=
  let newControlBit := Int32.and (Int32.shr j 1) 1 in
  let newTargetBit := Int32.and j 1 in
  let newState :=
    Int32.or
      (Int32.or
         (Int32.and i (Int32.not (Int32.or (Int32.shl 1 control) (Int32.shl 1 target))))
         (Int32.shl newControlBit control))
      (Int32.shl newTargetBit target) in
  let! n_s := at_ newStateVector newState in
  let! s_i := at_ old i in
  let! m_sj := entry_value m stateIndex j in
  inr (set_at newStateVector newState (add n_s (scale s_i m_sj))).

(** One iteration of its outer loop. *)
Definition two_step (old : list Complex) (m : ComplexMatrix) (control target : Z)
    (i : Z) (newStateVector : list Complex) : result (list Complex) :=
  let controlBit := Int32.and (Int32.shr i control) 1 in
  let targetBit := Int32.and (Int32.shr i target) 1 in
  let stateIndex := Int32.or (Int32.shl controlBit 1) targetBit in
  R.for_loop (two_inner old m control target i stateIndex) (upto 4) newStateVector.

(** [applyTwoQubitGate]: the two indices are numbers; the loops use them
    as shift counts, that is, converted to 32-bit integers. *)
Definition applyTwoQubitGate (gate : QuantumGate) (qubitIndices : number * number)
    : method StateVector unit :=
  replace_with (fun sv =>
    if negb (numQubits gate =? 2)%Z
    then inl (ErrExpectedTwoQubitGate (name gate) (numQubits gate))
    else
      let '(q1, q2) := qubitIndices in
      let numQubits := Int (_numQubits sv) in
      if Number.ltb q1 (Int 0) || Number.geb q1 numQubits
         || Number.ltb q2 (Int 0) || Number.geb q2 numQubits
      then inl (ErrInvalidQubitIndices q1 q2)
      else if Number.eqb q1 q2 then inl ErrSameQubit
      else
        let '(control, target) := if Number.ltb q1 q2 then (q1, q2) else (q2, q1) in
        let! newStateVector := Array_fill (dimension sv) ZERO in
        R.for_loop (two_step (_stateVector sv) (matrix gate)
                      (Number.ToInt32 control) (Number.ToInt32 target))
          (upto (dimension sv)) newStateVector).

(** The first loop of [measure]: the probability of reading one. *)
Definition prob1_step (old : list Complex) (qubitIndex : Z) (i : Z) (prob1 : float)
    : result float :=
  if (Int32.and (Int32.shr i qubitIndex) 1 =? 1)%Z then
    let! s_i := at_ old i in inr (prob1 + Num.sq (magnitude s_i))%float
  else inr prob1.

(** Its second loop: the amplitudes that agree with the outcome are kept
    and their squared magnitudes summed.  (The parameter [result] is the
    outcome, named as in the source.) *)
Definition collapse_step (old : list Complex) (qubitIndex result : Z) (i : Z)
    (acc : list Complex * float) : Error + (list Complex * float) :=
  let '(newStateVector, normalizationFactor) := acc in
  let bit := Int32.and (Int32.shr i qubitIndex) 1 in
  if (bit =? result)%Z then
    let! s_i := at_ old i in
    inr (set_at newStateVector i s_i, (normalizationFactor + Num.sq (magnitude s_i))%float)
  else inr acc.

(** Its third loop: every amplitude is scaled by [1 / normalizationFactor]. *)
Definition rescale_step (normalizationFactor : float) (i : Z)
    (newStateVector : list Complex) : result (list Complex) :=
  let! n_i := at_ newStateVector i in
  inr (set_at newStateVector i (scale n_i (1 / normalizationFactor)%float)).

(** [measure]: [random] is the value [Math.random()] returned. *)
Definition measure (qubitIndex : Z) (random : float) : method StateVector Z :=
  fun sv =>
    if (qubitIndex <? 0)%Z || (_numQubits sv <=? qubitIndex)%Z
    then (inl (ErrInvalidQubitIndex (Int qubitIndex)), sv)
    else
      let computed :=
        let! prob1 := R.for_loop (prob1_step (_stateVector sv) qubitIndex)
                        (upto (dimension sv)) 0%float in
        let result := if (random <? prob1)%float then 1%Z else 0%Z in
        let! zeros := Array_fill (dimension sv) ZERO in
        let! collapsed := R.for_loop (collapse_step (_stateVector sv) qubitIndex result)
                            (upto (dimension sv)) (zeros, 0%float) in
        let normalizationFactor := Num.Math_sqrt (snd collapsed) in
        let! newStateVector := R.for_loop (rescale_step normalizationFactor)
                                 (upto (dimension sv)) (fst collapsed) in
        inr (newStateVector, result) in
      match computed with
      | inr (v, result) => (inr result, {| _numQubits := _numQubits sv; _stateVector := v |})
      | inl e => (inl e, sv)
      end.

(** The sampling loop of [measureAll]: the first index whose cumulative
    probability exceeds the draw, or 0 when there is none. *)
Fixpoint sample (random : float) (probabilities : list float) (i : Z)
    (cumulativeProbability : float) : Z :=
  match probabilities with
  | [] => 0%Z
  | p :: rest =>
      let cumulativeProbability := (cumulativeProbability + p)%float in
      if (random <? cumulativeProbability)%float then i
      else sample random rest (i + 1)%Z cumulativeProbability
  end.

Definition measureAll (random : float) : method StateVector (list Z) :=
  fun sv =>
    let computed :=
      let! probabilities :=
        R.for_loop (fun i acc => let! s_i := at_ (_stateVector sv) i in
                                 inr (acc ++ [Num.sq (magnitude s_i)]))
          (upto (dimension sv)) [] in
      let outcome := sample random probabilities 0 0%float in
      let! zeros := Array_fill (dimension sv) ZERO in
      inr (set_at zeros outcome ONE,
           (fun i => Int32.and (Int32.shr outcome i) 1) <$> upto (_numQubits sv)) in
    match computed with
    | inr (v, results) => (inr results, {| _numQubits := _numQubits sv; _stateVector := v |})
    | inl e => (inl e, sv)
    end.

(** The loop of [getProbability]: every entry must be 0 or 1 (an entry
    that is missing is neither), and is or-ed into the index at its
    position. *)
Fixpoint index_loop (basisState : list Z) (positions : list Z) (index : Z) : Failure + Z :=
  match positions with
  | [] => inr index
  | i :: rest =>
      match (if (i <? 0)%Z then None else basisState !! Z.to_nat i) with
      | Some b =>
          if negb (b =? 0)%Z && negb (b =? 1)%Z then inl ErrNotBinary
          else index_loop basisState rest (Int32.or index (Int32.shl b i))
      | None => inl ErrNotBinary
      end
  end.

(** [getProbability]: it reads the state and never writes it. *)
Definition getProbability (basisState : list Z) (sv : StateVector) : Failure + float :=
  if negb (Z.of_nat (length basisState) =? _numQubits sv)%Z
  then inl (ErrBasisLength (_numQubits sv))
  else
    match index_loop basisState (upto (_numQubits sv)) 0%Z with
    | inl f => inl f
    | inr index =>
        match at_ (_stateVector sv) index with
        | inl e => inl (Thrown e)
        | inr amplitude => inr (Num.sq (magnitude amplitude))
        end
    end.

Definition clone (sv : StateVector) : result StateVector :=
  let! fresh := new (_numQubits sv) in
  inr {| _numQubits := _numQubits fresh; _stateVector := _stateVector sv |}.

End SV.


(** ** quantum/data-encoding

    The encodings record gates in a circuit; they run none.  A call returns
    normally or throws, and leaves the circuit as far as it got. *)

(** [i.toString(2)] for an integer [i], as the list of its characters:
    the binary digits from the most significant one, ["0"] for zero, a
    leading ["-"] for a negative number. *)
Fixpoint binary_digits (p : positive) : list ascii :=
  match p with
  | xH => ["1"%char]
  | xO p' => binary_digits p' ++ ["0"%char]
  | xI p' => binary_digits p' ++ ["1"%char]
  end.

Definition toString2 (i : Z) : list ascii :=
  match i with
  | Z0 => ["0"%char]
  | Zpos p => binary_digits p
  | Zneg p => "-"%char :: binary_digits p
  end.

(** [s.padStart(targetLength, "0")]. *)
Definition padStart (s : list ascii) (targetLength : Z) : list ascii :=
  replicate (Z.to_nat targetLength - length s) "0"%char ++ s.

(** The inner loop of [amplitudeEncoding]: [j] runs through the positions
    of [qubits], and [1 << qubits[j]] is or-ed into the index when the
    character [binaryString[numQubits - 1 - j]] is ["1"]. *)
Fixpoint amplitude_index (binaryString : list ascii) (numQubits : Z) (j : Z)
    (qubits : list Z) (index : Z) : Z :=
  match qubits with
  | [] => index
  | q :: rest =>
      let position := (numQubits - 1 - j)%Z in
      let char := if (position <? 0)%Z then None
                  else binaryString !! Z.to_nat position in
      amplitude_index binaryString numQubits (j + 1) rest
        (if decide (char = Some "1"%char) then Int32.or index (Int32.shl 1 q) else index)
  end.

Section DataEncoding.

Variables Math_cos Math_sin : float -> float.

(** A call of a circuit method from an encoding. *)
Definition engine {A} (m : method QuantumCircuit A) (c : QuantumCircuit)
    : (Failure + A) * QuantumCircuit :=
  match m c with
  | (inr a, c') => (inr a, c')
  | (inl e, c') => (inl (Thrown e), c')
  end.

(** What an encoding works on: the index arrays of the program and the
    circuit. *)
Definition World : Type := Arrays * QuantumCircuit.

(** [circuit.addGate(gate, [q])]: the array literal is a new array, made
    before the call, and the operation that is recorded holds it. *)
Definition addGate_literal (gate : QuantumGate) (q : number) (w : World)
    : (Failure + unit) * World :=
  let literal := length (fst w) in
  let arrays := fst w ++ [[q]] in
  match engine (Circuit.addGate arrays gate literal) (snd w) with
  | (inr _, c1) => (inr tt, (arrays, c1))
  | (inl f, c1) => (inl f, (arrays, c1))
  end.

(** A loop of an encoding: it ends at the first iteration that throws. *)
Fixpoint encode_each {A} (step : A -> World -> (Failure + unit) * World)
    (xs : list A) (w : World) : (Failure + unit) * World :=
  match xs with
  | [] => (inr tt, w)
  | x :: rest =>
      match step x w with
      | (inr _, w1) => encode_each step rest w1
      | (inl f, w1) => (inl f, w1)
      end
  end.

(** [angleEncoding]: a Hadamard gate on every qubit of [qubits], then a
    rotation about Y by [data[i] * scaling] on [qubits[i]].  Past the
    length check [qubits[i]] exists for every [i] below [data.length], so
    the second loop runs through the pairs of [zip data qubits].  The
    arrays [data] and [qubits] are only read, during the call. *)
Definition angleEncoding (data : list float) (qubits : list number) (scaling : float)
    (w : World) : (Failure + unit) * World :=
  if (length qubits <? length data)%nat
  then (inl (ErrNotEnoughQubits "angle"), w)
  else
    match encode_each (addGate_literal H) qubits w with
    | (inl f, w1) => (inl f, w1)
    | (inr _, w1) =>
        encode_each
          (fun dq : float * number =>
             let normalizedValue := (fst dq * scaling)%float in
             addGate_literal (RYGate Math_cos Math_sin normalizedValue) (snd dq))
          (zip data qubits) w1
    end.

(** One iteration of the loop of [basisEncoding]. *)
Definition basis_step (dq : float * number) (w : World) : (Failure + unit) * World :=
  if (fst dq =? 1)%float
  then addGate_literal (RXGate Math_cos Math_sin Math_PI) (snd dq) w
  else if negb (fst dq =? 0)%float then (inl ErrDataNotBinary, w)
  else (inr tt, w).

(** [basisEncoding]: the circuit is reset, then a rotation about X by pi
    is recorded on [qubits[i]] for every [data[i]] that is 1. *)
Definition basisEncoding (data : list float) (qubits : list number)
    (w : World) : (Failure + unit) * World :=
  if (length qubits <? length data)%nat
  then (inl (ErrNotEnoughQubits "basis"), w)
  else
    match engine Circuit.reset (snd w) with
    | (inl f, c1) => (inl f, (fst w, c1))
    | (inr _, c1) => encode_each basis_step (zip data qubits) (fst w, c1)
    end.

(** One iteration of the outer loop of [amplitudeEncoding]: the qubit
    whose index is the number computed from the bits of [i] is set to the
    amplitude [normalizedData[i]]. *)
Definition amplitude_step (qubits : list Z) (i : Z) (value : float)
    (circuit : QuantumCircuit) : (Failure + unit) * QuantumCircuit :=
  let numQubits := Z.of_nat (length qubits) in
  let binaryString := padStart (toString2 i) numQubits in
  let index := amplitude_index binaryString numQubits 0 qubits 0 in
  engine (Circuit.initialize index (complex value 0) (complex 0 0)) circuit.

Fixpoint amplitude_loop (qubits : list Z) (i : Z) (normalizedData : list float)
    (circuit : QuantumCircuit) : (Failure + unit) * QuantumCircuit :=
  match normalizedData with
  | [] => (inr tt, circuit)
  | value :: rest =>
      match amplitude_step qubits i value circuit with
      | (inr _, c1) => amplitude_loop qubits (i + 1) rest c1
      | (inl f, c1) => (inl f, c1)
      end
  end.

(** [amplitudeEncoding].  The data are divided by their norm and padded
    with zeros to [maxDimension] entries, so the outer loop, which counts
    [i] from 0 to [maxDimension - 1], runs through the padded data. *)
Definition amplitudeEncoding (data : list float) (qubits : list Z)
    (circuit : QuantumCircuit) : (Failure + unit) * QuantumCircuit :=
  let numQubits := Z.of_nat (length qubits) in
  let maxDimension := Int32.shl 1 numQubits in
  if (maxDimension <? Z.of_nat (length data))%Z
  then (inl (ErrCannotEncode (length data) numQubits), circuit)
  else
    let norm := Num.Math_sqrt (foldl (fun norm value => norm + value * value) 0 data) in
    if norm =? 0 then (inl ErrAllZeros, circuit)
    else
      let normalizedData :=
        ((fun value => value / norm) <$> data)
        ++ replicate (Z.to_nat maxDimension - length data) 0 in
      match engine Circuit.reset circuit with
      | (inl f, c1) => (inl f, c1)
      | (inr _, c1) => amplitude_loop qubits 0 normalizedData c1
      end.

End DataEncoding.

(** * Vocabulary of the properties *)

(** The sum of the two probabilities of a qubit. *)
Definition total_probability (q : Qubit) : float :=
  QubitOps.probabilityZero q + QubitOps.probabilityOne q.

(** The literal [1e-9], as the binary64 value nearest to it. *)
Definition eps9 : float := 0x1.12e0be826d695p-30.

(** [x] is 1 to within 1e-9. *)
Definition near_one (x : float) : bool := Num.Math_abs (x - 1) <=? eps9.

(** A draw of [Math.random()]: a number in [0, 1). *)
Definition is_draw (random : float) : Prop :=
  (0 <=? random) = true /\ (random <? 1) = true.

(** The amplitudes of [v] are all NaN in both components. *)
Definition all_nan (v : list Complex) : bool :=
  forallb (fun a => Num.is_nan (real a) && Num.is_nan (imag a)) v.

(** The two largest numbers below 1: a draw of [Math.random()] can be
    either, depending on how many random bits the engine uses. *)
Definition below_one_52 : float := 0x1.ffffffffffffep-1.
Definition below_one_53 : float := 0x1.fffffffffffffp-1.

(** The uniform two-qubit state, every amplitude one half. *)
Definition uniform2 : list Complex :=
  [complex 0x1p-1 0; complex 0x1p-1 0; complex 0x1p-1 0; complex 0x1p-1 0].

(** The state [measure(0)] leaves of it on outcome 1. *)
Definition uniform2_after_one : StateVector :=
  {| _numQubits := 2;
     _stateVector := [ZERO; complex 0x1.6a09e667f3bccp-1 0;
                      ZERO; complex 0x1.6a09e667f3bccp-1 0] |}.

(** The three values a product with zero can take. *)
Definition zeroish (x : float) : Prop := x = 0 \/ x = -0 \/ x = nan.

(** Positive zero or NaN: what a sum of squares of [zeroish] values is. *)
Definition zero_or_nan (x : float) : Prop := x = 0 \/ x = nan.

(** The bit of qubit [q] in the basis index [i], as the loops compute it. *)
Definition bit_of (i q : Z) : Z := Int32.and (Int32.shr i q) 1.

(** An amplitude whose two components are zero or NaN. *)
Definition zeroish_amplitude (z : Complex) : Prop :=
  zeroish (real z) /\ zeroish (imag z).

(** After the collapse on outcome 0, the amplitudes at the indices whose
    bit is not 0 are still the zeros the array was filled with.  [D] is the
    dimension. *)
Definition cleared (q D : Z) (v : list Complex) : Prop :=
  length v = Z.to_nat D
  /\ forall j, (0 <= j < D)%Z -> bit_of j q <> 0%Z -> v !! Z.to_nat j = Some ZERO.

(** After the rescaling they are zero or NaN. *)
Definition cleared_up_to_scale (q D : Z) (v : list Complex) : Prop :=
  length v = Z.to_nat D
  /\ forall j, (0 <= j < D)%Z -> bit_of j q <> 0%Z ->
       exists z, v !! Z.to_nat j = Some z /\ zeroish_amplitude z.

(** ** Normalization of the qubit under the fixed gates

    The fixed single-qubit gates whose matrices are built from 0, 1, i and
    1/sqrt 2 move a qubit that starts in |0> through finitely many binary64
    states.  The set is computed below, shown closed under the gates and
    under measurement, and every state of it is checked. *)

Module Reach.

Definition float_eqb (x y : float) : bool := PrimFloat.Leibniz.eqb x y.

Definition Complex_eqb (a b : Complex) : bool :=
  float_eqb (real a) (real b) && float_eqb (imag a) (imag b).

Definition Qubit_eqb (a b : Qubit) : bool :=
  Complex_eqb (alpha a) (alpha b) && Complex_eqb (beta a) (beta b).

Definition mem (q : Qubit) (l : list Qubit) : bool := existsb (Qubit_eqb q) l.

(** The operations on one qubit. *)
Inductive Op : Type :=
  | ApplyH | ApplyX | ApplyY | ApplyZ | ApplyS
  | Measure (random : float).

(** [g.apply([qubit])] on a qubit that is alone in its store. *)
Definition apply_to (g : QuantumGate) (q : Qubit) : Qubit :=
  match snd (apply g [Some 0%nat] [q]) with
  | [q'] => q'
  | _ => q
  end.

Definition step (op : Op) (q : Qubit) : Qubit :=
  match op with
  | ApplyH => apply_to H q
  | ApplyX => apply_to X q
  | ApplyY => apply_to Y q
  | ApplyZ => apply_to Z_ q
  | ApplyS => apply_to S_ q
  | Measure random => fst (QubitOps.measure q random)
  end.

(** The qubit after the operations [ops], run in order. *)
Definition run (ops : list Op) (q : Qubit) : Qubit :=
  foldl (fun q op => step op q) q ops.

Definition gates : list QuantumGate := [H; X; Y; Z_; S_].

Fixpoint add_new (candidates seen fresh : list Qubit) : list Qubit * list Qubit :=
  match candidates with
  | [] => (seen, fresh)
  | q :: rest =>
      if mem q seen then add_new rest seen fresh
      else add_new rest (q :: seen) (q :: fresh)
  end.

(** Breadth-first closure of [seen] under the gates, [fuel] rounds deep. *)
Fixpoint explore (fuel : nat) (seen frontier : list Qubit) : list Qubit :=
  match fuel with
  | O => seen
  | S fuel' =>
      let next := concat ((fun q => (fun g => apply_to g q) <$> gates) <$> frontier) in
      let '(seen', fresh) := add_new next seen [] in
      match fresh with
      | [] => seen'
      | _ => explore fuel' seen' fresh
      end
  end.

(** The states a qubit can be in: the two basis states a measurement
    leaves, and what the gates make of them. *)
Definition reachable : list Qubit :=
  Eval vm_compute in
    explore 16 [mkQubit ONE ZERO; mkQubit ZERO ONE] [mkQubit ONE ZERO; mkQubit ZERO ONE].

Definition closed_under (f : Qubit -> Qubit) (l : list Qubit) : bool :=
  forallb (fun q => mem (f q) l) l.

End Reach.

(** Two values with different images under a boolean test are different. *)
Ltac differ_by f :=
  let E := fresh "E" in
  intro E; apply (f_equal f) in E; vm_compute in E; discriminate E.



(** * Vocabulary of the further properties *)

(** What rounding returns carries the sign it was given, or is NaN. *)
Definition signed (s : bool) (x : spec_float) : Prop :=
  match x with
  | S754_zero s' | S754_infinity s' | S754_finite s' _ _ => s' = s
  | S754_nan => True
  end.

(** The amplitude with NaN in both components. *)
Definition NaN_amplitude : Complex := complex nan nan.

(** One of the two components is NaN. *)
Definition has_nan (a : Complex) : Prop := real a = nan \/ imag a = nan.

(** The gates the library exports: a single-qubit gate with a 2 x 2 matrix
    (H, X, Y, Z, S, T and the rotations, for every angle), CNOT, CZ, SWAP. *)
Definition library_gate (g : QuantumGate) : Prop :=
  (exists name m00 m01 m10 m11, g = SingleQubitGate name [[m00; m01]; [m10; m11]])
  \/ g = CNOT \/ g = CZ \/ g = SWAP.

(** What a run of a method leaves: the same number of qubits, the qubits
    outside [touched] as they were, and the whole store as it was when the
    method throws. *)
Definition kept {A} (touched : list ref) (st : Store) (out : result A * Store) : Prop :=
  length (snd out) = length st
  /\ (forall l, ~ In (Some l) touched -> snd out !! l = st !! l)
  /\ (forall e, fst out = inl e -> snd out = st).

(** The two probabilities of [a] are those of [b], bit for bit. *)
Definition same_probabilities (a b : Qubit) : bool :=
  Reach.float_eqb (QubitOps.probabilityZero a) (QubitOps.probabilityZero b)
  && Reach.float_eqb (QubitOps.probabilityOne a) (QubitOps.probabilityOne b).

(** The two probabilities of [a] are those of [b], exchanged. *)
Definition exchanged_probabilities (a b : Qubit) : bool :=
  Reach.float_eqb (QubitOps.probabilityZero a) (QubitOps.probabilityOne b)
  && Reach.float_eqb (QubitOps.probabilityOne a) (QubitOps.probabilityZero b).

(** What the fixed gates do to the probabilities of a qubit. *)
Definition gate_probabilities_hold (q : Qubit) : bool :=
  same_probabilities (Reach.apply_to Z_ q) q
  && same_probabilities (Reach.apply_to S_ q) q
  && exchanged_probabilities (Reach.apply_to X q) q
  && exchanged_probabilities (Reach.apply_to Y q) q
  && same_probabilities (Reach.apply_to H (Reach.apply_to H q)) q.

(** An index that passes the two comparisons of [addGate] on the circuit
    [c]: it is not below 0 and not at or above the number of qubits. *)
Definition valid_index (c : QuantumCircuit) (index : number) : Prop :=
  (Number.ltb index (Int 0) || Number.geb index (Int (Circuit.qubits_length c))) = false.

(** An index that is an integer from 0 to [n - 1]. *)
Definition names_one_of (n : Z) (index : number) : Prop :=
  exists i : Z, index = Int i /\ (0 <= i < n)%Z.

(** A recorded operation that [execute] can run on [n] qubits with the
    index arrays as they are in [arrays]: a gate of the library, whose array
    holds as many indices as the gate has qubits, every index an integer
    from 0 to [n - 1]. *)
Definition runnable (arrays : Arrays) (n : Z) (op : Operation) : Prop :=
  library_gate (gate op)
  /\ exists indices,
       arrays !! qubits op = Some indices
       /\ Z.of_nat (length indices) = numQubits (gate op)
       /\ Forall (names_one_of n) indices.

(** Every operation recorded in the circuit is runnable on its qubits. *)
Definition recorded_well (arrays : Arrays) (c : QuantumCircuit) : Prop :=
  Forall (runnable arrays (Circuit.qubits_length c)) (_operations c).

(** The arrays of the recorded operations hold in [arrays'] what they hold
    in [arrays]: the callers have not written to them in between. *)
Definition arrays_kept (arrays arrays' : Arrays) (c : QuantumCircuit) : Prop :=
  Forall (fun op => arrays' !! qubits op = arrays !! qubits op) (_operations c).

(** A qubit prepared from |0> by the gates H, X, Y, Z, S and measurements. *)
Definition prepared (q : Qubit) : Prop :=
  exists ops : list Reach.Op, q = Reach.run ops QubitOps.new_default.

(** Measuring the qubits [qs] with the draws [randoms], from position [i]
    on, and then once more with the draws [randoms'], from position [j] on:
    the second pass returns the outcomes of the first and changes no qubit;
    there is one outcome per qubit, each 0 or 1. *)
Definition measure_again (randoms randoms' : nat -> float) (i j : nat) (qs : list Qubit)
    : Prop :=
  let first := Circuit.measure_from randoms i qs in
  Circuit.measure_from randoms' j (fst first) = first
  /\ length (snd first) = length qs
  /\ Forall (fun b => b = 0%Z \/ b = 1%Z) (snd first).

(** The gates of the library whose matrices are built from 0, 1, i and
    1/sqrt 2, and SWAP. *)
Definition fixed_gate (g : QuantumGate) : Prop :=
  g = H \/ g = X \/ g = Y \/ g = Z_ \/ g = S_ \/ g = SWAP.

(** Every qubit of the circuit is a prepared one. *)
Definition all_prepared (c : QuantumCircuit) : Prop := Forall prepared (_qubits c).

(** The circuits a program builds without [initialize]: a new circuit, then
    any calls of [addGate] with one of the fixed gates, [execute],
    [measure], [measureAll], [reset] and [clone], whatever they return and
    whatever the index arrays hold at each call. *)
Inductive built : QuantumCircuit -> Prop :=
  | built_new (n : Z) (c : QuantumCircuit) :
      Circuit.new n = inr c -> built c
  | built_addGate (arrays : Arrays) (c : QuantumCircuit) (g : QuantumGate) (qubits : nat) :
      built c -> fixed_gate g -> built (snd (Circuit.addGate arrays g qubits c))
  | built_execute (arrays : Arrays) (c : QuantumCircuit) :
      built c -> built (snd (Circuit.execute arrays c))
  | built_measure (c : QuantumCircuit) (index : Z) (random : float) :
      built c -> built (snd (Circuit.measure index random c))
  | built_measureAll (c : QuantumCircuit) (randoms : nat -> float) :
      built c -> built (snd (Circuit.measureAll randoms c))
  | built_reset (c : QuantumCircuit) :
      built c -> built (snd (Circuit.reset c))
  | built_clone (c : QuantumCircuit) :
      built c -> built (Circuit.clone c).

Definition fixed_operations (c : QuantumCircuit) : Prop :=
  Forall (fun op => fixed_gate (gate op)) (_operations c).

(** A state vector as the constructor makes it: 0 to 15 qubits and one
    amplitude per basis state. *)
Definition well_formed (sv : StateVector) : Prop :=
  (0 <= _numQubits sv <= 15)%Z
  /\ Z.of_nat (length (_stateVector sv)) = (2 ^ _numQubits sv)%Z.

(** [magnitude(a) ** 2]. *)
Definition probability_of (a : Complex) : float := Num.sq (magnitude a).

(** An entry of a basis state that is 0 or 1. *)
Definition binary (b : Z) : Prop := b = 0%Z \/ b = 1%Z.

(** The operations an encoding records on top of those of [c]; the qubits
    are those of [c]. *)
Definition recorded_on (c : QuantumCircuit) (ops : list Operation) : QuantumCircuit :=
  {| _qubits := _qubits c; _operations := _operations c ++ ops |}.

(** A call [addGate(gate, [q])] of an encoding. *)
Definition Call : Type := QuantumGate * number.

(** What the calls [addGate(gate, [q])] of [calls] leave when each of them
    returns: one new array [[q]] per call, after the arrays there were, and
    one operation per call that holds it, after the operations there
    were. *)
Definition with_literals (calls : list Call) (w : World) : World :=
  (fst w ++ ((fun call => [snd call]) <$> calls),
   recorded_on (snd w)
     (imap (fun k call => mkOperation (fst call) (length (fst w) + k)) calls)).

(** The data entries [basisEncoding] takes for a one and for a zero. *)
Definition is_one (dq : float * number) : bool := (fst dq =? 1)%float.
Definition is_zero (dq : float * number) : bool := (fst dq =? 0)%float.

(** Classical bits held in qubits: |0> for [false], |1> for [true], and a
    register of them. *)
Definition bit_qubit (b : bool) : Qubit :=
  if b then mkQubit ZERO ONE else mkQubit ONE ZERO.

Definition register (bits : list bool) : list Qubit := bit_qubit <$> bits.

(** The operations of reversible classical logic and the gates that stand
    for them. *)
Inductive ClassicalOp : Type :=
  | NOT (i : nat)
  | XOR (control target : nat)
  | EXCHANGE (i j : nat).

(** The gate and the indices that stand for a classical operation: X, CNOT
    and SWAP on the integers that name the qubits. *)
Definition gate_of (op : ClassicalOp) : QuantumGate :=
  match op with
  | NOT _ => X
  | XOR _ _ => CNOT
  | EXCHANGE _ _ => SWAP
  end.

Definition indices_of (op : ClassicalOp) : list number :=
  match op with
  | NOT i => [Int (Z.of_nat i)]
  | XOR control target => [Int (Z.of_nat control); Int (Z.of_nat target)]
  | EXCHANGE i j => [Int (Z.of_nat i); Int (Z.of_nat j)]
  end.

(** The recorded operation [op] stands for the classical operation [cop]
    when it holds the gate of [cop] and its array holds, in [arrays], the
    indices of [cop]. *)
Definition stands_for (arrays : Arrays) (op : Operation) (cop : ClassicalOp) : Prop :=
  gate op = gate_of cop /\ arrays !! qubits op = Some (indices_of cop).

(** What the operation does to the bits. *)
Definition classical_step (bits : list bool) (op : ClassicalOp) : list bool :=
  match op with
  | NOT i =>
      match bits !! i with
      | Some b => <[i := negb b]> bits
      | None => bits
      end
  | XOR control target =>
      match bits !! control, bits !! target with
      | Some c, Some t => <[target := xorb c t]> bits
      | _, _ => bits
      end
  | EXCHANGE i j =>
      match bits !! i, bits !! j with
      | Some a, Some b => <[j := a]> (<[i := b]> bits)
      | _, _ => bits
      end
  end.

(** The operation names qubits of an [n]-qubit circuit, two different ones
    for [XOR]. *)
Definition fits (n : nat) (op : ClassicalOp) : Prop :=
  match op with
  | NOT i => (i < n)%nat
  | XOR control target => (control < n)%nat /\ (target < n)%nat /\ control <> target
  | EXCHANGE i j => (i < n)%nat /\ (j < n)%nat
  end.

(** * Properties *)

(** ** Facts about binary64 arithmetic *)

Module FloatFacts.

Local Open Scope float_scope.

Lemma of_spec (x : float) (s : spec_float) :
  Prim2SF x = s -> x = SF2Prim s.
Proof. intros <-. symmetry. apply SF2Prim_Prim2SF. Qed.

Lemma mul_nan_r (x : float) : x * nan = nan.
Proof.
  apply Prim2SF_inj. rewrite FloatAxioms.mul_spec.
  change (Prim2SF nan) with S754_nan.
  unfold SF64mul, SFmul. destruct (Prim2SF x); reflexivity.
Qed.

Lemma mul_nan_l (x : float) : nan * x = nan.
Proof.
  apply Prim2SF_inj. rewrite FloatAxioms.mul_spec.
  change (Prim2SF nan) with S754_nan. reflexivity.
Qed.

Lemma zero_mul (k : float) : zeroish (0 * k).
Proof.
  unfold zeroish.
  pose proof (FloatAxioms.mul_spec 0 k) as E.
  change (Prim2SF 0) with (S754_zero false) in E.
  unfold SF64mul, SFmul in E.
  destruct (Prim2SF k) as [[|]| | |[|] m e]; apply of_spec in E; rewrite E; auto.
Qed.

Lemma negzero_mul (k : float) : zeroish (-0 * k).
Proof.
  unfold zeroish.
  pose proof (FloatAxioms.mul_spec (-0) k) as E.
  change (Prim2SF (-0)) with (S754_zero true) in E.
  unfold SF64mul, SFmul in E.
  destruct (Prim2SF k) as [[|]| | |[|] m e]; apply of_spec in E; rewrite E; auto.
Qed.

Lemma zeroish_mul (z k : float) : zeroish z -> zeroish (z * k).
Proof.
  intros [-> | [-> | ->]].
  - apply zero_mul.
  - apply negzero_mul.
  - rewrite mul_nan_l. right; right; reflexivity.
Qed.

(** The squared magnitude of a pair of [zeroish] components. *)
Lemma zeroish_sq_magnitude (a b : float) :
  zeroish a -> zeroish b -> zero_or_nan (Num.sq (sqrt (a * a + b * b))).
Proof.
  unfold zero_or_nan.
  intros [-> | [-> | ->]] [-> | [-> | ->]]; vm_compute; auto.
Qed.

Lemma zero_or_nan_add (a b : float) :
  zero_or_nan a -> zero_or_nan b -> zero_or_nan (a + b).
Proof.
  unfold zero_or_nan. intros [-> | ->] [-> | ->]; vm_compute; auto.
Qed.

(** A draw that is not negative is not below zero. *)
Lemma not_below_zero (r : float) : (0 <=? r) = true -> (r <? 0) = false.
Proof.
  rewrite FloatAxioms.leb_spec, FloatAxioms.ltb_spec.
  change (Prim2SF 0) with (S754_zero false).
  unfold SFleb, SFltb, SFcompare.
  destruct (Prim2SF r) as [[|]|[|]| |[|] m e]; simpl; congruence.
Qed.

Lemma not_below_nan (r : float) : (r <? nan) = false.
Proof.
  rewrite FloatAxioms.ltb_spec. change (Prim2SF nan) with S754_nan.
  unfold SFltb, SFcompare. destruct (Prim2SF r); reflexivity.
Qed.

Lemma not_below_zero_or_nan (r x : float) :
  (0 <=? r) = true -> zero_or_nan x -> (r <? x) = false.
Proof.
  intros Hr [-> | ->]; [apply not_below_zero; exact Hr | apply not_below_nan].
Qed.

(** A number that compares equal to zero is not above it. *)
Lemma eq_zero_not_positive (x : float) : (x =? 0) = true -> (0 <? x) = false.
Proof.
  rewrite FloatAxioms.eqb_spec, FloatAxioms.ltb_spec.
  change (Prim2SF 0) with (S754_zero false).
  unfold SFeqb, SFltb, SFcompare.
  destruct (Prim2SF x) as [[|]|[|]| |[|] m e]; simpl; congruence.
Qed.

(** The comparison with NaN that [is_nan] runs. *)
Lemma is_nan_nan : Num.is_nan nan = true.
Proof. reflexivity. Qed.

End FloatFacts.

(** ** Complex arithmetic *)

(** C4 on the code: by a real, [scale] multiplies both components, as the
    claim says.  Handed a [Complex] as the factor, as the state-vector code
    and the CZ gate hand it one, it does not compute the product: for
    a = 1 + 2i and b = 3 + 4i the product is -5 + 10i, which is what
    [multiply] returns, and [scale] returns NaN + NaN i. *)
Theorem scale_by_complex_is_not_the_product :
  (forall (a : Complex) (s : float),
      scale a (JNumber s) = complex (real a * s) (imag a * s))
  /\ multiply (complex 1 2) (complex 3 4) = complex (-5) 10
  /\ scale (complex 1 2) (JObject (complex 3 4)) = complex nan nan
  /\ scale (complex 1 2) (JObject (complex 3 4)) <> multiply (complex 1 2) (complex 3 4).
Proof.
  split; [reflexivity | split; [reflexivity | split; [reflexivity |]]].
  differ_by (fun c => Num.is_nan (real c)).
Qed.

(** ** The qubit and the local gates *)

Lemma setState_ONE_ZERO (q : Qubit) : QubitOps.setState q ONE ZERO = mkQubit ONE ZERO.
Proof. reflexivity. Qed.

Lemma setState_ZERO_ONE (q : Qubit) : QubitOps.setState q ZERO ONE = mkQubit ZERO ONE.
Proof. reflexivity. Qed.

(** [measure] leaves one of the two basis states, whatever the qubit and the
    draw were. *)
Lemma measure_collapses (q : Qubit) (random : float) :
  QubitOps.measure q random = (mkQubit ONE ZERO, 0%Z)
  \/ QubitOps.measure q random = (mkQubit ZERO ONE, 1%Z).
Proof.
  unfold QubitOps.measure.
  destruct (random <? QubitOps.probabilityZero q); [left | right]; reflexivity.
Qed.

(** C8: when the control's [probabilityOne()] equals 0, CNOT returns without
    touching any qubit, so the target keeps its amplitudes. *)
Theorem cnot_control_zero_is_identity
    (st : Store) (control : nat) (target : ref) (c : Qubit) :
  st !! control = Some c ->
  (QubitOps.probabilityOne c =? 0) = true ->
  apply CNOT [Some control; target] st = (inr tt, st).
Proof.
  intros Hc Hp.
  cbn [apply CNOT CNOTGate]. unfold CNOTGate_apply.
  cbn [length Nat.eqb negb arg lookup list_lookup].
  unfold M.bind, deref. rewrite Hc.
  now rewrite (FloatFacts.eq_zero_not_positive _ Hp).
Qed.

Lemma cnot_control_zero_is_identity_witness :
  let st := [mkQubit ONE ZERO; mkQubit (complex 0x1p-1 0) (complex 0 0x1p-2)] in
  st !! 0%nat = Some (mkQubit ONE ZERO)
  /\ (QubitOps.probabilityOne (mkQubit ONE ZERO) =? 0) = true
  /\ apply CNOT [Some 0%nat; Some 1%nat] st = (inr tt, st).
Proof.
  intros st. split; [reflexivity | split; [reflexivity |]].
  apply (cnot_control_zero_is_identity st 0 (Some 1%nat) (mkQubit ONE ZERO));
    reflexivity.
Defined.

(** C9: [setState(0, 0)] leaves the zero vector; [measure] on it returns 1
    for every draw and leaves exactly |1>, whose probabilities sum to 1. *)
Theorem zero_qubit_measures_one (q : Qubit) (random : float) :
  is_draw random ->
  let z := QubitOps.setState q ZERO ZERO in
  z = mkQubit ZERO ZERO
  /\ QubitOps.measure z random = (mkQubit ZERO ONE, 1%Z)
  /\ total_probability (fst (QubitOps.measure z random)) = 1.
Proof.
  intros [Hlo _] z.
  assert (Hz : z = mkQubit ZERO ZERO) by reflexivity.
  assert (Hm : QubitOps.measure z random = (mkQubit ZERO ONE, 1%Z)).
  { rewrite Hz. unfold QubitOps.measure.
    change (QubitOps.probabilityZero (mkQubit ZERO ZERO)) with 0.
    now rewrite (FloatFacts.not_below_zero _ Hlo). }
  rewrite Hm. split; [exact Hz | split; reflexivity].
Qed.

Lemma zero_qubit_measures_one_witness :
  is_draw 0x1p-1
  /\ QubitOps.measure (QubitOps.setState QubitOps.new_default ZERO ZERO) 0x1p-1
     = (mkQubit ZERO ONE, 1%Z).
Proof.
  assert (Hd : is_draw 0x1p-1) by (split; reflexivity).
  split; [exact Hd |].
  exact (proj1 (proj2 (zero_qubit_measures_one QubitOps.new_default 0x1p-1 Hd))).
Defined.

(** [setState] through a reference changes the object behind it and no
    other. *)
Lemma call_setState_frame (r : ref) (a b : Complex) (st : Store) (l : nat) :
  r <> Some l -> snd (call_setState r a b st) !! l = st !! l.
Proof.
  intros Hne. unfold call_setState.
  destruct r as [t|]; [| reflexivity].
  destruct (st !! t) eqn:Ht; [| reflexivity].
  cbn [snd]. apply list_lookup_insert_ne. congruence.
Qed.

Lemma deref_keeps_store (r : ref) (st : Store) : snd (deref r st) = st.
Proof.
  unfold deref. destruct r as [l|]; [destruct (st !! l) |]; reflexivity.
Qed.

(** What [CNOT] and [CZ] write to: the target and nothing else. *)
Lemma cnot_frame (control target : ref) (st : Store) (l : nat) :
  target <> Some l -> snd (apply CNOT [control; target] st) !! l = st !! l.
Proof.
  intros Hne. cbn [apply CNOT CNOTGate]. unfold CNOTGate_apply.
  cbn [length Nat.eqb negb arg lookup list_lookup].
  unfold M.bind, M.ret.
  pose proof (deref_keeps_store control st) as Hc.
  destruct (deref control st) as [[e|c] st1]; cbn [snd] in Hc; subst st1; [reflexivity |].
  destruct (0 <? QubitOps.probabilityOne c); [| reflexivity].
  pose proof (deref_keeps_store target st) as Ht.
  destruct (deref target st) as [[e|t] st1]; cbn [snd] in Ht; subst st1; [reflexivity |].
  now apply call_setState_frame.
Qed.

Lemma cz_frame (control target : ref) (st : Store) (l : nat) :
  target <> Some l -> snd (apply CZ [control; target] st) !! l = st !! l.
Proof.
  intros Hne. cbn [apply CZ CZGate]. unfold CZGate_apply.
  cbn [length Nat.eqb negb arg lookup list_lookup].
  unfold M.bind, M.ret.
  pose proof (deref_keeps_store control st) as Hc.
  destruct (deref control st) as [[e|c] st1]; cbn [snd] in Hc; subst st1; [reflexivity |].
  destruct (0 <? QubitOps.probabilityOne c); [| reflexivity].
  pose proof (deref_keeps_store target st) as Ht.
  destruct (deref target st) as [[e|t] st1]; cbn [snd] in Ht; subst st1; [reflexivity |].
  now apply call_setState_frame.
Qed.

(** C10, as it holds: when control and target are two different qubit
    objects, [CNOT] and [CZ] leave the control as it was, and every qubit
    other than the target with it. *)
Theorem controlled_gates_keep_control
    (g : QuantumGate) (st : Store) (control target : nat) :
  g = CNOT \/ g = CZ ->
  control <> target ->
  let st' := snd (apply g [Some control; Some target] st) in
  st' !! control = st !! control
  /\ (forall l : nat, l <> target -> st' !! l = st !! l).
Proof.
  intros Hg Hne st'. subst st'.
  assert (F : forall l : nat, l <> target ->
              snd (apply g [Some control; Some target] st) !! l = st !! l).
  { intros l Hl. destruct Hg as [-> | ->];
      [apply cnot_frame | apply cz_frame]; congruence. }
  split; [apply F; exact Hne | exact F].
Qed.

Lemma controlled_gates_keep_control_witness :
  let st := [mkQubit ZERO ONE; mkQubit ONE ZERO] in
  (CNOT = CNOT \/ CNOT = CZ)
  /\ 0%nat <> 1%nat
  /\ snd (apply CNOT [Some 0%nat; Some 1%nat] st) !! 0%nat = st !! 0%nat
  /\ snd (apply CNOT [Some 0%nat; Some 1%nat] st) !! 1%nat = Some (mkQubit ZERO ONE).
Proof.
  intros st.
  assert (Hg : CNOT = CNOT \/ CNOT = CZ) by (left; reflexivity).
  assert (Hne : 0%nat <> 1%nat) by lia.
  split; [exact Hg | split; [exact Hne | split]].
  - exact (proj1 (controlled_gates_keep_control CNOT st 0 1 Hg Hne)).
  - reflexivity.
Defined.

(** C10 fails as stated: a circuit accepts [CNOT] on the index pair [0, 0],
    [execute] then hands the gate the same qubit object twice, and for a
    qubit in |1> the write to the target turns the control into |0>. *)
Lemma cnot_same_object_changes_control :
  let arrays := [[Int 0; Int 0]] in
  let c0 := {| _qubits := [mkQubit ZERO ONE]; _operations := [] |} in
  let c1 := snd (Circuit.addGate arrays CNOT 0 c0) in
  let c2 := snd (Circuit.execute arrays c1) in
  fst (Circuit.addGate arrays CNOT 0 c0) = inr tt
  /\ fst (Circuit.execute arrays c1) = inr tt
  /\ _qubits c1 !! 0%nat = Some (mkQubit ZERO ONE)
  /\ _qubits c2 !! 0%nat = Some (mkQubit ONE ZERO)
  /\ snd (apply CNOT [Some 0%nat; Some 0%nat] [mkQubit ZERO ONE]) !! 0%nat
     <> [mkQubit ZERO ONE] !! 0%nat.
Proof.
  repeat (split; [reflexivity |]).
  differ_by (fun o : option Qubit =>
               match o with Some q => real (alpha q) =? 0 | None => false end).
Qed.

(** ** The state vector: construction and validation *)

Lemma new_above_capacity (n : Z) : (15 < n)%Z -> SV.new n = inl ErrCapacity.
Proof.
  intros Hn. unfold SV.new.
  destruct (15 <? n)%Z eqn:E; [reflexivity | apply Z.ltb_ge in E; lia].
Qed.

(** Within the capacity the dimension is the power of two, no wrap-around
    occurs. *)
Lemma shl_one (n : Z) : (0 <= n <= 15)%Z -> Int32.shl 1 n = (2 ^ n)%Z.
Proof.
  intros Hn.
  assert (Hcases : In n (upto 16)).
  { unfold upto. apply in_map_iff. exists (Z.to_nat n). split; [lia |].
    apply in_seq. lia. }
  vm_compute in Hcases.
  repeat (destruct Hcases as [<- | Hcases]; [reflexivity |]).
  destruct Hcases.
Qed.

(** ** Writes stay inside the array

    For a state vector of at most 15 qubits and qubit indices that passed
    the checks, every index the gate loops write to is below the dimension,
    so no write grows the array. *)

Section InRange.

Local Open Scope Z_scope.

Lemma wrap_small (x : Z) : -2 ^ 31 <= x < 2 ^ 31 -> Int32.wrap x = x.
Proof. intros Hx. unfold Int32.wrap. rewrite Z.mod_small; lia. Qed.

Lemma small_bits (n x k : Z) : 0 <= x < 2 ^ n -> n <= k -> Z.testbit x k = false.
Proof.
  intros Hx Hk. destruct (Z.eq_dec x 0) as [-> | Hne]; [apply Z.bits_0 |].
  apply Z.bits_above_log2; [lia |].
  assert (Z.log2 x < n); [| lia]. apply Z.log2_lt_pow2; lia.
Qed.

Lemma bits_small (n x : Z) :
  0 <= n -> 0 <= x -> (forall k, n <= k -> Z.testbit x k = false) -> x < 2 ^ n.
Proof.
  intros Hn Hx Hbits.
  assert (E : x = x mod 2 ^ n).
  { apply Z.bits_inj'. intros k Hk.
    destruct (Z_lt_le_dec k n) as [Hlt | Hge].
    - now rewrite Z.mod_pow2_bits_low.
    - rewrite Z.mod_pow2_bits_high by lia. now apply Hbits. }
  rewrite E. apply Z.mod_pos_bound. apply Z.pow_pos_nonneg; lia.
Qed.

Lemma pow2_le_15 (n : Z) : 0 <= n <= 15 -> 0 < 2 ^ n <= 2 ^ 15.
Proof.
  intros Hn. split; [apply Z.pow_pos_nonneg; lia | apply Z.pow_le_mono_r; lia].
Qed.

(** The index [applySingleQubitGate] writes to besides [i]. *)
Lemma flipped_in_range (n q i : Z) :
  0 <= q < n -> n <= 15 -> 0 <= i < 2 ^ n ->
  0 <= Int32.xor i (Int32.shl 1 q) < 2 ^ n.
Proof.
  intros Hq Hn Hi.
  pose proof (pow2_le_15 n ltac:(lia)) as Hp.
  pose proof (pow2_le_15 q ltac:(lia)) as Hpq.
  assert (Hq2 : 2 ^ q < 2 ^ n) by (apply Z.pow_lt_mono_r; lia).
  unfold Int32.xor. rewrite (shl_one q) by lia.
  rewrite !wrap_small by lia.
  split.
  - apply Z.lxor_nonneg. lia.
  - apply bits_small; [lia | apply Z.lxor_nonneg; lia |].
    intros k Hk. rewrite Z.lxor_spec.
    rewrite (small_bits n i k), (small_bits n (2 ^ q) k) by lia. reflexivity.
Qed.

Lemma shl_bit (b c n : Z) :
  b = 0 \/ b = 1 -> 0 <= c < n -> n <= 15 -> 0 <= Int32.shl b c < 2 ^ n.
Proof.
  intros Hb Hc Hn.
  assert (Hq2 : 0 < 2 ^ c < 2 ^ n).
  { split; [apply Z.pow_pos_nonneg; lia | apply Z.pow_lt_mono_r; lia]. }
  destruct Hb as [-> | ->].
  - unfold Int32.shl. rewrite (wrap_small 0) by lia. rewrite Z.shiftl_0_l.
    rewrite wrap_small; lia.
  - rewrite shl_one by lia. lia.
Qed.

Lemma lor_in_range (n a b : Z) :
  0 <= n <= 15 -> 0 <= a < 2 ^ n -> 0 <= b < 2 ^ n -> 0 <= Int32.or a b < 2 ^ n.
Proof.
  intros Hn Ha Hb. pose proof (pow2_le_15 n Hn) as Hp.
  unfold Int32.or. rewrite !wrap_small by lia. split.
  - apply Z.lor_nonneg. lia.
  - apply bits_small; [lia | apply Z.lor_nonneg; lia |].
    intros k Hk. rewrite Z.lor_spec.
    rewrite (small_bits n a k), (small_bits n b k) by lia. reflexivity.
Qed.

Lemma and_not_in_range (n i m : Z) :
  0 <= n <= 15 -> 0 <= i < 2 ^ n -> 0 <= m < 2 ^ n ->
  0 <= Int32.and i (Int32.not m) < 2 ^ n.
Proof.
  intros Hn Hi Hm. pose proof (pow2_le_15 n Hn) as Hp.
  unfold Int32.and, Int32.not.
  assert (Hnot : Z.lnot m = - m - 1) by (unfold Z.lnot; lia).
  rewrite (wrap_small m), (wrap_small i) by lia.
  rewrite (wrap_small (Z.lnot m)) by lia.
  split.
  - apply Z.land_nonneg. lia.
  - apply bits_small; [lia | apply Z.land_nonneg; lia |].
    intros k Hk. rewrite Z.land_spec.
    rewrite (small_bits n i k) by lia. reflexivity.
Qed.

(** The index [applyTwoQubitGate] writes to. *)
Lemma new_state_in_range (n control target i j : Z) :
  0 <= control < n -> 0 <= target < n -> n <= 15 -> 0 <= i < 2 ^ n ->
  In j (upto 4) ->
  let newControlBit := Int32.and (Int32.shr j 1) 1 in
  let newTargetBit := Int32.and j 1 in
  0 <= Int32.or
         (Int32.or
            (Int32.and i (Int32.not (Int32.or (Int32.shl 1 control) (Int32.shl 1 target))))
            (Int32.shl newControlBit control))
         (Int32.shl newTargetBit target) < 2 ^ n.
Proof.
  intros Hc Ht Hn Hi Hj newControlBit newTargetBit.
  assert (Hcb : newControlBit = 0 \/ newControlBit = 1).
  { subst newControlBit. vm_compute in Hj.
    destruct Hj as [<- | [<- | [<- | [<- | []]]]]; vm_compute; auto. }
  assert (Htb : newTargetBit = 0 \/ newTargetBit = 1).
  { subst newTargetBit. vm_compute in Hj.
    destruct Hj as [<- | [<- | [<- | [<- | []]]]]; vm_compute; auto. }
  repeat apply lor_in_range; try lia.
  - apply and_not_in_range; [lia | lia |].
    apply lor_in_range; [lia | |]; apply shl_bit; auto; lia.
  - apply shl_bit; auto; lia.
  - apply shl_bit; auto; lia.
Qed.

End InRange.

(** Within the capacity, the constructor returns the state |0...0>. *)
Lemma new_within_capacity (n : Z) :
  (0 <= n <= 15)%Z ->
  SV.new n = inr {| _numQubits := n;
                    _stateVector := ONE :: replicate (Z.to_nat (2 ^ n) - 1) ZERO |}.
Proof.
  intros Hn. unfold SV.new.
  destruct (15 <? n)%Z eqn:E; [apply Z.ltb_lt in E; lia |].
  rewrite (shl_one n Hn). unfold Array_fill.
  assert (Hpos : (0 < 2 ^ n)%Z) by (apply Z.pow_pos_nonneg; lia).
  destruct (2 ^ n <? 0)%Z eqn:E2; [apply Z.ltb_lt in E2; lia |].
  cbn [R.bind]. unfold set_at.
  destruct (Z.to_nat (2 ^ n)) as [|k] eqn:Ek; [lia |].
  cbn [replicate Z.to_nat]. cbn. now rewrite Nat.sub_0_r.
Qed.

(** C6: sixteen qubits are refused with the capacity error; fifteen are
    accepted, and the state has amplitude 1 at index 0 and amplitude 0 at
    the other 2^15 - 1 indices. *)
Theorem capacity_boundary :
  SV.new 16 = inl ErrCapacity
  /\ SV.new 15 = inr {| _numQubits := 15;
                        _stateVector := ONE :: replicate (Z.to_nat (2 ^ 15 - 1)) ZERO |}.
Proof.
  split.
  - apply new_above_capacity. lia.
  - rewrite (new_within_capacity 15) by lia.
    replace (Z.to_nat (2 ^ 15) - 1)%nat with (Z.to_nat (2 ^ 15 - 1)) by lia.
    reflexivity.
Qed.

(** *** Numbers that are integers *)

Lemma ltb_Int (i j : Z) : Number.ltb (Int i) (Int j) = (i <? j)%Z.
Proof. unfold Number.ltb, Int. cbn. now rewrite !Z.mul_1_r. Qed.

Lemma geb_Int (i j : Z) : Number.geb (Int i) (Int j) = (j <=? i)%Z.
Proof.
  unfold Number.geb. change (Number.geb (Int i) (Int j)) with (negb (Number.ltb (Int i) (Int j))).
  rewrite ltb_Int. destruct (Z.ltb_spec i j), (Z.leb_spec j i); try reflexivity; lia.
Qed.

Lemma eqb_Int (i j : Z) : Number.eqb (Int i) (Int j) = (i =? j)%Z.
Proof. unfold Number.eqb, Int. cbn. now rewrite !Z.mul_1_r. Qed.

Lemma subscript_Int (i : Z) :
  Number.subscript (Int i) = if (0 <=? i)%Z then Some (Z.to_nat i) else None.
Proof.
  unfold Number.subscript, Int. cbn [inject_Z Qnum Qden].
  change (QDen (i # 1)) with 1%Z. rewrite Z.mod_1_r, Z.div_1_r. cbn [Z.eqb].
  now rewrite andb_true_r.
Qed.

Lemma ToInt32_Int (i : Z) : Number.ToInt32 (Int i) = Int32.wrap i.
Proof. unfold Number.ToInt32, Int. cbn [inject_Z Qnum Qden]. now rewrite Z.quot_1_r. Qed.

Lemma valid_index_Int (c : QuantumCircuit) (i : Z) :
  valid_index c (Int i) <-> (0 <= i < Circuit.qubits_length c)%Z.
Proof.
  unfold valid_index. rewrite ltb_Int, geb_Int, orb_false_iff, Z.ltb_ge, Z.leb_gt.
  lia.
Qed.

Lemma qubit_at_Int (c : QuantumCircuit) (i : Z) :
  Circuit.qubit_at c (Int i) = Circuit.qubit_ref c i.
Proof.
  unfold Circuit.qubit_at, Circuit.qubit_ref, Circuit.qubits_length.
  rewrite subscript_Int.
  destruct (Z.ltb_spec i 0), (Z.leb_spec 0 i); try lia; [reflexivity |].
  destruct (Nat.ltb_spec (Z.to_nat i) (length (_qubits c))),
           (Z.ltb_spec i (Z.of_nat (length (_qubits c)))); try reflexivity; lia.
Qed.

(** *** The checks of [addGate] *)

(** The index loop of [addGate] passes when every index passes the two
    comparisons, and does not touch the circuit. *)
Lemma check_indices_pass (c c' : QuantumCircuit) (indices : list number) :
  Forall (valid_index c) indices ->
  M.for_each (Circuit.check_index c) indices c' = (inr tt, c').
Proof.
  induction 1 as [|index rest Hi _ IH]; [reflexivity |].
  cbn [M.for_each]. unfold M.bind at 1. unfold Circuit.check_index at 1.
  unfold valid_index in Hi. rewrite Hi. unfold M.ret at 1. exact IH.
Qed.

(** It throws at the first index that fails one of them. *)
Lemma check_indices_fail (c c' : QuantumCircuit) (good : list number) (bad : number)
    (rest : list number) :
  Forall (valid_index c) good ->
  ~ valid_index c bad ->
  M.for_each (Circuit.check_index c) (good ++ bad :: rest) c'
  = (inl (ErrInvalidQubitIndex bad), c').
Proof.
  intros Hgood Hbad. induction Hgood as [|index good Hi _ IH].
  - cbn [app M.for_each]. unfold M.bind at 1. unfold Circuit.check_index at 1.
    unfold valid_index in Hbad. apply not_false_is_true in Hbad. now rewrite Hbad.
  - cbn [app M.for_each]. unfold M.bind at 1. unfold Circuit.check_index at 1.
    unfold valid_index in Hi. rewrite Hi. unfold M.ret at 1. exact IH.
Qed.

(** A call of [applyTwoQubitGate] that throws leaves the state vector as
    it was. *)
Lemma replace_with_throws (compute : StateVector -> result (list Complex))
    (sv sv' : StateVector) (e : Error) :
  SV.replace_with compute sv = (inl e, sv') -> sv' = sv.
Proof.
  unfold SV.replace_with. destruct (compute sv); intros [= _ <-]; reflexivity.
Qed.

(** NaN passes the two comparisons on every circuit, and one half on
    every circuit that has a qubit. *)
Lemma nan_is_valid_index (c : QuantumCircuit) : valid_index c NotANumber.
Proof. reflexivity. Qed.

Lemma half_is_valid_index (c : QuantumCircuit) :
  (1 <= length (_qubits c))%nat -> valid_index c (Finite (1 # 2)).
Proof.
  intros Hlen. unfold valid_index, Circuit.qubits_length, Int.
  change (Number.geb (Finite (1 # 2)) (Finite (inject_Z (Z.of_nat (length (_qubits c))))))
    with (negb (1 * 1 <? Z.of_nat (length (_qubits c)) * 2)%Z).
  change (Number.ltb (Finite (1 # 2)) (Finite (inject_Z 0))) with false.
  destruct (Z.ltb_spec (1 * 1) (Z.of_nat (length (_qubits c)) * 2)); [reflexivity | lia].
Qed.

Lemma eqb_same (q : number) : q <> NotANumber -> Number.eqb q q = true.
Proof. destruct q as [p| | |]; [intros _; apply Z.eqb_refl | easy | easy | easy]. Qed.

(** C7 on the code.  The checks of [addGate] are these: it throws when the
    array does not hold as many indices as the gate has qubits; it throws at
    the first index that is below 0 or at or above the number of qubits;
    otherwise it appends the operation, which holds the array; and when it
    throws the circuit is as it was.  An integer passes the two comparisons
    exactly when it is from 0 to the number of qubits less one.  But every
    comparison with NaN is false: NaN passes them on every circuit, and 0.5
    on every circuit that has a qubit, and the operation is recorded; on a
    new one-qubit circuit [execute] then throws a TypeError, there being no
    qubit of that index.  [applyTwoQubitGate] throws on two equal indices
    other than NaN, and leaves the state vector as it was whenever it
    throws; handed NaN and NaN it passes the range check and the check for
    equal indices (NaN === NaN is false) and overwrites the state of a new
    one-qubit state vector. *)
Theorem index_checks_let_nan_through :
  (forall (arrays : Arrays) (qubits : nat) (indices : list number)
          (c : QuantumCircuit) (gate : QuantumGate),
      arrays !! qubits = Some indices ->
      Z.of_nat (length indices) <> numQubits gate ->
      Circuit.addGate arrays gate qubits c
      = (inl (ErrGateRequires (name gate) (numQubits gate) (length indices)), c))
  /\ (forall (arrays : Arrays) (qubits : nat) (good : list number) (bad : number)
             (rest : list number) (c : QuantumCircuit) (gate : QuantumGate),
      arrays !! qubits = Some (good ++ bad :: rest) ->
      Z.of_nat (length (good ++ bad :: rest)) = numQubits gate ->
      Forall (valid_index c) good ->
      ~ valid_index c bad ->
      Circuit.addGate arrays gate qubits c = (inl (ErrInvalidQubitIndex bad), c))
  /\ (forall (arrays : Arrays) (qubits : nat) (indices : list number)
             (c : QuantumCircuit) (gate : QuantumGate),
      arrays !! qubits = Some indices ->
      Z.of_nat (length indices) = numQubits gate ->
      Forall (valid_index c) indices ->
      Circuit.addGate arrays gate qubits c
      = (inr tt, {| _qubits := _qubits c;
                    _operations := _operations c ++ [mkOperation gate qubits] |}))
  /\ (forall (c : QuantumCircuit) (i : Z),
      valid_index c (Int i) <-> (0 <= i < Z.of_nat (length (_qubits c)))%Z)
  /\ (forall c : QuantumCircuit, valid_index c NotANumber)
  /\ (forall c : QuantumCircuit,
      (1 <= length (_qubits c))%nat -> valid_index c (Finite (1 # 2)))
  /\ (forall index : number,
      index = NotANumber \/ index = Finite (1 # 2) ->
      let c := {| _qubits := [QubitOps.new_default]; _operations := [] |} in
      let c1 := {| _qubits := [QubitOps.new_default];
                   _operations := [mkOperation H 0] |} in
      Circuit.new 1 = inr c
      /\ Circuit.addGate [[index]] H 0 c = (inr tt, c1)
      /\ Circuit.execute [[index]] c1 = (inl TypeError, c1))
  /\ (forall (sv : StateVector) (g : QuantumGate) (q : number),
      q <> NotANumber ->
      exists e, SV.applyTwoQubitGate g (q, q) sv = (inl e, sv))
  /\ (forall (sv sv' : StateVector) (g : QuantumGate) (pair : number * number)
             (e : Error),
      SV.applyTwoQubitGate g pair sv = (inl e, sv') -> sv' = sv)
  /\ (let sv := {| _numQubits := 1; _stateVector := [ONE; ZERO] |} in
      SV.new 1 = inr sv
      /\ SV.applyTwoQubitGate CNOT (NotANumber, NotANumber) sv
         = (inr tt, {| _numQubits := 1;
                       _stateVector := [complex nan nan; complex nan nan] |})).
Proof.
  split; [| split; [| split; [| split; [| split; [| split; [| split; [| split;
    [| split]]]]]]]].
  - intros arrays r indices c g Hq Hlen. unfold Circuit.addGate. rewrite Hq.
    apply Z.eqb_neq in Hlen. now rewrite Hlen.
  - intros arrays r good bad rest c g Hq Hlen Hgood Hbad.
    unfold Circuit.addGate. rewrite Hq.
    apply Z.eqb_eq in Hlen. rewrite Hlen. cbn [negb]. unfold M.bind.
    now rewrite (check_indices_fail c c good bad rest Hgood Hbad).
  - intros arrays r indices c g Hq Hlen Hall. unfold Circuit.addGate. rewrite Hq.
    apply Z.eqb_eq in Hlen. rewrite Hlen. cbn [negb]. unfold M.bind.
    now rewrite (check_indices_pass c c indices Hall).
  - intros c i. apply valid_index_Int.
  - apply nan_is_valid_index.
  - apply half_is_valid_index.
  - intros index [-> | ->]; repeat split.
  - intros sv g q Hq. unfold SV.applyTwoQubitGate, SV.replace_with.
    destruct (negb (numQubits g =? 2)%Z); [eexists; reflexivity |]. cbv zeta.
    destruct (_ || _); [eexists; reflexivity |].
    rewrite (eqb_same q Hq). eexists; reflexivity.
  - intros sv sv' g pair e. unfold SV.applyTwoQubitGate. apply replace_with_throws.
  - repeat split.
Qed.

(** ** The state vector: gates and measurement at concrete inputs *)

(** C3 on the code: on the one-qubit state |0>, the first application of
    the Hadamard gate through [applySingleQubitGate] already leaves NaN in
    both amplitudes, and so does the second; amplitude 0 is not near 1 and
    amplitude 1 is not near 0.  The matrix entries reach [scale] as
    [Complex] objects. *)
Theorem hadamard_twice_on_state_vector :
  let sv0 := {| _numQubits := 1; _stateVector := [ONE; ZERO] |} in
  let nans := {| _numQubits := 1; _stateVector := [complex nan nan; complex nan nan] |} in
  SV.new 1 = inr sv0
  /\ SV.applySingleQubitGate H 0 sv0 = (inr tt, nans)
  /\ SV.applySingleQubitGate H 0 nans = (inr tt, nans)
  /\ near_one (real (complex nan nan)) = false
  /\ (Num.Math_abs (real (complex nan nan)) <=? eps9) = false.
Proof. repeat split; vm_compute; reflexivity. Qed.

(** The same gate applied twice to a qubit of the local model, where the
    matrix entries go through [multiply], does return |0>. *)
Lemma hadamard_twice_on_qubit :
  let st1 := snd (apply H [Some 0%nat] [QubitOps.new_default]) in
  let st2 := snd (apply H [Some 0%nat] st1) in
  st2 = [mkQubit ONE ZERO].
Proof. vm_compute. reflexivity. Qed.

(** C1 on the code: [setState] accepts the uniform two-qubit state;
    [measure(0)] with the draw 0.25 returns 1; the probability of one
    recomputed from the renormalized state is 1 - 2^-52, so a second
    [measure(0)] whose draw is not below it returns 0, the surviving mass is
    exactly zero, the division is not guarded, and every amplitude of the
    state vector is NaN afterwards. *)
Theorem measure_zero_mass_gives_nan :
  let sv0 := {| _numQubits := 2; _stateVector := [ONE; ZERO; ZERO; ZERO] |} in
  let sv1 := {| _numQubits := 2; _stateVector := uniform2 |} in
  SV.new 2 = inr sv0
  /\ SV.setState uniform2 sv0 = (inr tt, sv1)
  /\ SV.measure 0 0x1p-2 sv1 = (inr 1%Z, uniform2_after_one)
  /\ fst (SV.measure 0 below_one_52 uniform2_after_one) = inr 0%Z
  /\ all_nan (_stateVector (snd (SV.measure 0 below_one_52 uniform2_after_one))) = true
  /\ fst (SV.measure 0 below_one_53 uniform2_after_one) = inr 0%Z
  /\ all_nan (_stateVector (snd (SV.measure 0 below_one_53 uniform2_after_one))) = true.
Proof. repeat split; vm_compute; reflexivity. Qed.

(** ** Loops *)

Lemma in_upto (n i : Z) : In i (upto n) -> (0 <= i < n)%Z.
Proof.
  unfold upto. intros Hin. apply in_map_iff in Hin.
  destruct Hin as (k & <- & Hk). apply in_seq in Hk. lia.
Qed.

(** A property of the loop variables that every iteration preserves holds
    when the loop ends. *)
Lemma for_loop_invariant {A X} (body : X -> A -> result A) (Inv : A -> Prop)
    (xs : list X) (acc r : A) :
  Inv acc ->
  (forall x a a', In x xs -> Inv a -> body x a = inr a' -> Inv a') ->
  R.for_loop body xs acc = inr r ->
  Inv r.
Proof.
  revert acc. induction xs as [|x xs IH]; intros acc H0 Hstep Hrun.
  - cbn in Hrun. now injection Hrun as <-.
  - cbn [R.for_loop] in Hrun. unfold R.bind in Hrun.
    destruct (body x acc) as [e|a'] eqn:Hb; [discriminate |].
    apply (IH a'); [| | exact Hrun].
    + apply (Hstep x acc a'); [now left | exact H0 | exact Hb].
    + intros y a a'' Hy. apply Hstep. now right.
Qed.

(** A loop whose iterations cannot throw while the invariant holds runs to
    its end. *)
Lemma for_loop_total {A X} (body : X -> A -> result A) (Inv : A -> Prop)
    (xs : list X) (acc : A) :
  Inv acc ->
  (forall x a, In x xs -> Inv a -> exists a', body x a = inr a' /\ Inv a') ->
  exists r, R.for_loop body xs acc = inr r /\ Inv r.
Proof.
  revert acc. induction xs as [|x xs IH]; intros acc H0 Hstep.
  - exists acc. split; [reflexivity | exact H0].
  - destruct (Hstep x acc (or_introl eq_refl) H0) as (a' & Hb & Ha').
    destruct (IH a' Ha') as (r & Hr & HI).
    + intros y a Hy. apply Hstep. now right.
    + exists r. split; [| exact HI]. cbn [R.for_loop]. now rewrite Hb.
Qed.

Lemma at_in_range {A} (a : list A) (i : Z) :
  (0 <= i < Z.of_nat (length a))%Z ->
  exists x, at_ a i = inr x /\ a !! Z.to_nat i = Some x.
Proof.
  intros Hi. unfold at_.
  destruct (i <? 0)%Z eqn:E; [apply Z.ltb_lt in E; lia |].
  destruct (a !! Z.to_nat i) as [x|] eqn:Hx.
  - exists x. split; reflexivity.
  - apply lookup_ge_None in Hx. lia.
Qed.

Lemma at_returns {A} (a : list A) (i : Z) (x : A) :
  at_ a i = inr x -> (0 <= i)%Z /\ a !! Z.to_nat i = Some x.
Proof.
  unfold at_. destruct (i <? 0)%Z eqn:E; [discriminate |].
  apply Z.ltb_ge in E.
  destruct (a !! Z.to_nat i) as [y|]; [| discriminate].
  intros [= <-]. split; [exact E | reflexivity].
Qed.

Lemma Array_fill_returns {A} (n : Z) (x : A) (v : list A) :
  Array_fill n x = inr v -> (0 <= n)%Z /\ v = replicate (Z.to_nat n) x.
Proof.
  unfold Array_fill. destruct (n <? 0)%Z eqn:E; [discriminate |].
  apply Z.ltb_ge in E. intros [= <-]. split; [exact E | reflexivity].
Qed.

(** ** Measurement of the state vector *)

Lemma ZERO_zeroish : zeroish_amplitude ZERO.
Proof. split; left; reflexivity. Qed.

Lemma scale_zeroish (z : Complex) (k : jsvalue) :
  zeroish_amplitude z -> zeroish_amplitude (scale z k).
Proof.
  intros [Hr Hi]. split; cbn [scale real imag]; now apply FloatFacts.zeroish_mul.
Qed.

Lemma zeroish_probability (z : Complex) :
  zeroish_amplitude z -> zero_or_nan (Num.sq (magnitude z)).
Proof. intros [Hr Hi]. now apply FloatFacts.zeroish_sq_magnitude. Qed.

(** What [measure] goes through when it returns: the index is valid and
    each of its three loops ran to its end. *)
Lemma measure_returns (q : Z) (random : float) (sv sv' : StateVector) (b : Z) :
  SV.measure q random sv = (inr b, sv') ->
  exists prob1 zeros c m v,
    ((q <? 0)%Z || (_numQubits sv <=? q)%Z) = false
    /\ R.for_loop (SV.prob1_step (_stateVector sv) q) (upto (SV.dimension sv)) 0 = inr prob1
    /\ b = (if random <? prob1 then 1%Z else 0%Z)
    /\ Array_fill (SV.dimension sv) ZERO = inr zeros
    /\ R.for_loop (SV.collapse_step (_stateVector sv) q b) (upto (SV.dimension sv)) (zeros, 0)
       = inr (c, m)
    /\ R.for_loop (SV.rescale_step (Num.Math_sqrt m)) (upto (SV.dimension sv)) c = inr v
    /\ sv' = {| _numQubits := _numQubits sv; _stateVector := v |}.
Proof.
  unfold SV.measure.
  destruct ((q <? 0)%Z || (_numQubits sv <=? q)%Z); [discriminate |].
  destruct (R.for_loop (SV.prob1_step _ _) _ _) as [e|prob1]; [discriminate |].
  cbn [R.bind].
  destruct (Array_fill _ _) as [e|zeros]; [discriminate |].
  cbn [R.bind].
  destruct (R.for_loop (SV.collapse_step _ _ _) _ _) as [e|[c m]] eqn:Hc; [discriminate |].
  cbn [R.bind fst snd].
  destruct (R.for_loop (SV.rescale_step _) _ _) as [e|v] eqn:Hr; [discriminate |].
  cbn [R.bind]. intros [= <- <-].
  exists prob1, zeros, c, m, v. repeat split; assumption.
Qed.

(** The converse: when the loops run to their ends, [measure] returns. *)
Lemma measure_runs (q : Z) (random : float) (sv : StateVector)
    (prob1 : float) (zeros c v : list Complex) (m : float) :
  ((q <? 0)%Z || (_numQubits sv <=? q)%Z) = false ->
  R.for_loop (SV.prob1_step (_stateVector sv) q) (upto (SV.dimension sv)) 0 = inr prob1 ->
  Array_fill (SV.dimension sv) ZERO = inr zeros ->
  R.for_loop (SV.collapse_step (_stateVector sv) q (if random <? prob1 then 1%Z else 0%Z))
    (upto (SV.dimension sv)) (zeros, 0) = inr (c, m) ->
  R.for_loop (SV.rescale_step (Num.Math_sqrt m)) (upto (SV.dimension sv)) c = inr v ->
  SV.measure q random sv
  = (inr (if random <? prob1 then 1%Z else 0%Z),
     {| _numQubits := _numQubits sv; _stateVector := v |}).
Proof.
  intros Hq Hp Hz Hc Hr. unfold SV.measure.
  rewrite Hq, Hp. cbn [R.bind]. rewrite Hz. cbn [R.bind].
  rewrite Hc. cbn [R.bind fst snd]. rewrite Hr. reflexivity.
Qed.

Section Loops.

Variables (old : list Complex) (q : Z) (D : Z).

Local Abbreviation N := (Z.to_nat D).

Lemma zeros_cleared : cleared q D (replicate N ZERO).
Proof.
  split; [apply length_replicate |].
  intros j Hj _. apply lookup_replicate. split; [reflexivity | lia].
Qed.

Lemma collapse_step_cleared (i : Z) (c c' : list Complex) (m m' : float) :
  In i (upto D) -> cleared q D c ->
  SV.collapse_step old q 0 i (c, m) = inr (c', m') -> cleared q D c'.
Proof.
  intros Hi [Hlen Hc]. apply in_upto in Hi.
  unfold SV.collapse_step. fold (bit_of i q).
  destruct (bit_of i q =? 0)%Z eqn:Eb.
  - destruct (at_ old i) as [e|s_i]; [discriminate |].
    cbn [R.bind]. intros [= <- _]. unfold set_at. split.
    + now rewrite length_insert.
    + intros j Hj Hb.
      rewrite list_lookup_insert_ne; [now apply Hc |].
      intros Heq. apply Z2Nat.inj in Heq; [| lia | lia].
      subst j. apply Z.eqb_eq in Eb. contradiction.
  - intros [= <- _]. now split.
Qed.

Lemma rescale_step_cleared (k : float) (i : Z) (v v' : list Complex) :
  In i (upto D) -> cleared_up_to_scale q D v ->
  SV.rescale_step k i v = inr v' -> cleared_up_to_scale q D v'.
Proof.
  intros Hi [Hlen Hv]. apply in_upto in Hi.
  unfold SV.rescale_step.
  destruct (at_ v i) as [e|n_i] eqn:Hat; [discriminate |].
  cbn [R.bind]. intros [= <-]. unfold set_at.
  apply at_returns in Hat. destruct Hat as [_ Hn].
  split; [now rewrite length_insert |].
  intros j Hj Hb.
  destruct (Z.eq_dec j i) as [-> | Hne].
  - destruct (Hv i Hi Hb) as (z & Hz & Zz).
    rewrite Hz in Hn. injection Hn as <-.
    exists (scale z (1 / k)%float). split.
    + apply list_lookup_insert_eq. apply lookup_lt_Some in Hz. exact Hz.
    + now apply scale_zeroish.
  - rewrite list_lookup_insert_ne; [now apply Hv |].
    intros Heq. apply Z2Nat.inj in Heq; lia.
Qed.

(** The loops of [measure] read and write inside an array of the
    dimension's length, and keep that length. *)
Lemma prob1_step_total (v : list Complex) (i : Z) (p : float) :
  length v = N -> In i (upto D) -> exists p', SV.prob1_step v q i p = inr p'.
Proof.
  intros Hlen Hi. apply in_upto in Hi. unfold SV.prob1_step.
  destruct (_ =? 1)%Z; [| eexists; reflexivity].
  destruct (at_in_range v i) as (x & -> & _); [lia |].
  eexists; reflexivity.
Qed.

Lemma collapse_step_total (v : list Complex) (b i : Z) (c : list Complex) (m : float) :
  length v = N -> In i (upto D) -> length c = N ->
  exists c' m', SV.collapse_step v q b i (c, m) = inr (c', m') /\ length c' = N.
Proof.
  intros Hlen Hi Hc. apply in_upto in Hi. unfold SV.collapse_step.
  destruct (_ =? b)%Z; [| exists c, m; split; [reflexivity | exact Hc]].
  destruct (at_in_range v i) as (x & -> & _); [lia |].
  cbn [R.bind]. eexists _, _. split; [reflexivity |].
  unfold set_at. now rewrite length_insert.
Qed.

Lemma rescale_step_total (k : float) (i : Z) (c : list Complex) :
  In i (upto D) -> length c = N ->
  exists c', SV.rescale_step k i c = inr c' /\ length c' = N.
Proof.
  intros Hi Hc. apply in_upto in Hi. unfold SV.rescale_step.
  destruct (at_in_range c i) as (x & -> & _); [lia |].
  cbn [R.bind]. eexists. split; [reflexivity |].
  unfold set_at. now rewrite length_insert.
Qed.

(** Summed over a state whose one-bit amplitudes are zero or NaN, the
    probability of one is zero or NaN. *)
Lemma prob1_step_zero_or_nan (v : list Complex) (i : Z) (p p' : float) :
  cleared_up_to_scale q D v -> In i (upto D) -> zero_or_nan p ->
  SV.prob1_step v q i p = inr p' -> zero_or_nan p'.
Proof.
  intros [Hlen Hv] Hi Hp. apply in_upto in Hi. unfold SV.prob1_step.
  fold (bit_of i q).
  destruct (bit_of i q =? 1)%Z eqn:Eb; [| now intros [= <-]].
  apply Z.eqb_eq in Eb.
  destruct (at_ v i) as [e|s_i] eqn:Hat; [discriminate |].
  cbn [R.bind]. intros [= <-].
  apply at_returns in Hat. destruct Hat as [_ Hs].
  destruct (Hv i Hi) as (z & Hz & Zz); [lia |].
  rewrite Hz in Hs. injection Hs as <-.
  apply FloatFacts.zero_or_nan_add; [exact Hp | now apply zeroish_probability].
Qed.

End Loops.

Lemma cleared_is_cleared_up_to_scale (q D : Z) (v : list Complex) :
  cleared q D v -> cleared_up_to_scale q D v.
Proof.
  intros [Hlen Hv]. split; [exact Hlen |].
  intros j Hj Hb. exists ZERO. split; [now apply Hv | apply ZERO_zeroish].
Qed.

(** After [measure] has returned 0, the amplitudes of the indices whose bit
    is 1 are zero or NaN. *)
Lemma measure_zero_clears (q : Z) (random : float) (sv sv' : StateVector) :
  SV.measure q random sv = (inr 0%Z, sv') ->
  _numQubits sv' = _numQubits sv
  /\ ((q <? 0)%Z || (_numQubits sv <=? q)%Z) = false
  /\ (0 <= SV.dimension sv)%Z
  /\ cleared_up_to_scale q (SV.dimension sv) (_stateVector sv').
Proof.
  intros Hm.
  apply measure_returns in Hm.
  destruct Hm as (prob1 & zeros & c & m & v & Hq & Hp & Hb & Hz & Hc & Hr & ->).
  apply Array_fill_returns in Hz. destruct Hz as [HD ->].
  split; [reflexivity | split; [exact Hq | split; [exact HD |]]].
  cbn [_stateVector].
  assert (Hcl : cleared q (SV.dimension sv) c).
  { refine (for_loop_invariant _ (fun acc => cleared q (SV.dimension sv) (fst acc))
              _ (_, _) (c, m) _ _ Hc).
    - apply zeros_cleared.
    - intros i [a ma] [a' ma'] Hi Ha Hs. cbn [fst] in *.
      exact (collapse_step_cleared _ q _ i a a' ma ma' Hi Ha Hs). }
  refine (for_loop_invariant _ (cleared_up_to_scale q (SV.dimension sv)) _ c v _ _ Hr).
  - now apply cleared_is_cleared_up_to_scale.
  - intros i a a' Hi Ha Hs.
    exact (rescale_step_cleared q _ _ i a a' Hi Ha Hs).
Qed.

(** On such a state [measure] returns 0 again, for every draw that is not
    negative. *)
Lemma measure_cleared_returns_zero (q : Z) (random : float) (sv : StateVector) :
  ((q <? 0)%Z || (_numQubits sv <=? q)%Z) = false ->
  (0 <= SV.dimension sv)%Z ->
  cleared_up_to_scale q (SV.dimension sv) (_stateVector sv) ->
  (0 <=? random) = true ->
  exists sv', SV.measure q random sv = (inr 0%Z, sv').
Proof.
  intros Hq HD Hcl Hr.
  set (D := SV.dimension sv) in *.
  assert (Hlen : length (_stateVector sv) = Z.to_nat D) by apply Hcl.
  destruct (for_loop_total (SV.prob1_step (_stateVector sv) q) zero_or_nan
              (upto D) 0) as (prob1 & Hp & Hzn).
  { left; reflexivity. }
  { intros i p Hi Hp.
    destruct (prob1_step_total q D (_stateVector sv) i p Hlen Hi) as (p' & Hp').
    exists p'. split; [exact Hp' |].
    exact (prob1_step_zero_or_nan q D _ i p p' Hcl Hi Hp Hp'). }
  assert (Hz : Array_fill D ZERO = inr (replicate (Z.to_nat D) ZERO)).
  { unfold Array_fill. destruct (D <? 0)%Z eqn:E; [apply Z.ltb_lt in E; lia | reflexivity]. }
  pose proof (FloatFacts.not_below_zero_or_nan random prob1 Hr Hzn) as Hlt.
  destruct (for_loop_total
              (SV.collapse_step (_stateVector sv) q (if random <? prob1 then 1%Z else 0%Z))
              (fun acc => length (fst acc) = Z.to_nat D)
              (upto D) (replicate (Z.to_nat D) ZERO, 0%float)) as ([c m] & Hc & Hcl').
  { cbn [fst]. apply length_replicate. }
  { intros i [a ma] Hi Ha. cbn [fst] in Ha.
    destruct (collapse_step_total q D (_stateVector sv)
                (if random <? prob1 then 1%Z else 0%Z) i a ma Hlen Hi Ha)
      as (c' & m' & Hs & Hl).
    exists (c', m'). split; [exact Hs | exact Hl]. }
  cbn [fst] in Hcl'.
  destruct (for_loop_total (SV.rescale_step (Num.Math_sqrt m))
              (fun a => length a = Z.to_nat D) (upto D) c Hcl') as (v & Hv & _).
  { intros i a Hi Ha. exact (rescale_step_total D _ i a Hi Ha). }
  exists {| _numQubits := _numQubits sv; _stateVector := v |}.
  rewrite (measure_runs q random sv prob1 _ c v m Hq Hp Hz Hc Hv).
  now rewrite Hlt.
Qed.

(** [StateVector.measure] repeats the outcome 0. *)
Lemma state_vector_zero_repeats (q : Z) (r1 r2 : float) (sv sv' : StateVector) :
  SV.measure q r1 sv = (inr 0%Z, sv') ->
  (0 <=? r2) = true ->
  exists sv'', SV.measure q r2 sv' = (inr 0%Z, sv'').
Proof.
  intros Hm Hr.
  destruct (measure_zero_clears q r1 sv sv' Hm) as (Hn & Hq & HD & Hcl).
  assert (Hdim : SV.dimension sv' = SV.dimension sv)
    by (unfold SV.dimension; now rewrite Hn).
  apply measure_cleared_returns_zero; rewrite ?Hn, ?Hdim; assumption.
Qed.

(** [Qubit.measure] repeats its outcome, whatever the qubit was. *)
Lemma qubit_measure_repeats (q : Qubit) (r1 r2 : float) :
  is_draw r2 ->
  snd (QubitOps.measure (fst (QubitOps.measure q r1)) r2) = snd (QubitOps.measure q r1).
Proof.
  intros [Hlo Hhi].
  destruct (measure_collapses q r1) as [-> | ->]; cbn [fst snd]; unfold QubitOps.measure.
  - change (QubitOps.probabilityZero (mkQubit ONE ZERO)) with 1. now rewrite Hhi.
  - change (QubitOps.probabilityZero (mkQubit ZERO ONE)) with 0.
    now rewrite (FloatFacts.not_below_zero _ Hlo).
Qed.

(** C5, as it holds: [Qubit.measure] returns the same outcome when repeated,
    for every qubit and every second draw in [0, 1); [StateVector.measure]
    does when the first outcome was 0. *)
Theorem measurement_repeats (r2 : float) :
  is_draw r2 ->
  (forall (q : Qubit) (r1 : float),
      snd (QubitOps.measure (fst (QubitOps.measure q r1)) r2)
      = snd (QubitOps.measure q r1))
  /\ (forall (sv sv' : StateVector) (index : Z) (r1 : float),
      SV.measure index r1 sv = (inr 0%Z, sv') ->
      exists sv'', SV.measure index r2 sv' = (inr 0%Z, sv'')).
Proof.
  intros Hr. split.
  - intros q r1. now apply qubit_measure_repeats.
  - intros sv sv' index r1 Hm.
    apply (state_vector_zero_repeats index r1 r2 sv sv' Hm). apply Hr.
Qed.

Lemma measurement_repeats_witness :
  is_draw below_one_53
  /\ snd (QubitOps.measure (fst (QubitOps.measure (mkQubit ZERO ONE) 0x1p-1)) below_one_53)
     = 1%Z
  /\ exists sv'',
       SV.measure 0 below_one_53 {| _numQubits := 1; _stateVector := [ONE; ZERO] |}
       = (inr 0%Z, sv'').
Proof.
  assert (Hd : is_draw below_one_53) by (split; reflexivity).
  destruct (measurement_repeats below_one_53 Hd) as [Hq Hsv].
  split; [exact Hd | split].
  - rewrite Hq. reflexivity.
  - apply (Hsv {| _numQubits := 1; _stateVector := [ONE; ZERO] |} _ 0%Z 0x1p-1).
    reflexivity.
Defined.

(** C5 fails as stated for the state vector: on the uniform two-qubit
    state, [measure(0)] with the draw 0.25 returns 1, and a second
    [measure(0)] returns 0 when its draw is one of the two largest numbers
    below 1, because the renormalized probability of one is 1 - 2^-52. *)
Lemma state_vector_one_does_not_repeat :
  is_draw 0x1p-2 /\ is_draw below_one_52 /\ is_draw below_one_53
  /\ SV.measure 0 0x1p-2 {| _numQubits := 2; _stateVector := uniform2 |}
     = (inr 1%Z, uniform2_after_one)
  /\ fst (SV.measure 0 below_one_52 uniform2_after_one) = inr 0%Z
  /\ fst (SV.measure 0 below_one_53 uniform2_after_one) = inr 0%Z.
Proof.
  unfold is_draw. repeat split; vm_compute; reflexivity.
Qed.

Lemma float_eqb_eq (x y : float) : Reach.float_eqb x y = true -> x = y.
Proof. apply FloatAxioms.Leibniz.eqb_spec. Qed.

Lemma Complex_eqb_eq (a b : Complex) : Reach.Complex_eqb a b = true -> a = b.
Proof.
  destruct a, b. unfold Reach.Complex_eqb. cbn [real imag].
  intros E. apply andb_true_iff in E. destruct E as [E1 E2].
  apply float_eqb_eq in E1, E2. now subst.
Qed.

Lemma Qubit_eqb_eq (a b : Qubit) : Reach.Qubit_eqb a b = true -> a = b.
Proof.
  destruct a, b. unfold Reach.Qubit_eqb. cbn [alpha beta].
  intros E. apply andb_true_iff in E. destruct E as [E1 E2].
  apply Complex_eqb_eq in E1, E2. now subst.
Qed.

Lemma mem_In (q : Qubit) (l : list Qubit) : Reach.mem q l = true -> In q l.
Proof.
  unfold Reach.mem. intros E. apply existsb_exists in E.
  destruct E as (x & Hx & Hq). apply Qubit_eqb_eq in Hq. now subst.
Qed.

Lemma closed_under_In (f : Qubit -> Qubit) (l : list Qubit) (q : Qubit) :
  Reach.closed_under f l = true -> In q l -> In (f q) l.
Proof.
  unfold Reach.closed_under. intros E Hq.
  apply mem_In. revert q Hq. now apply forallb_forall.
Qed.

(** Every operation keeps the qubit among the reachable states. *)
Lemma step_reachable (op : Reach.Op) (q : Qubit) :
  In q Reach.reachable -> In (Reach.step op q) Reach.reachable.
Proof.
  intros Hq. destruct op as [| | | | |random]; cbn [Reach.step].
  - apply (closed_under_In (Reach.apply_to H)); [vm_compute; reflexivity | exact Hq].
  - apply (closed_under_In (Reach.apply_to X)); [vm_compute; reflexivity | exact Hq].
  - apply (closed_under_In (Reach.apply_to Y)); [vm_compute; reflexivity | exact Hq].
  - apply (closed_under_In (Reach.apply_to Z_)); [vm_compute; reflexivity | exact Hq].
  - apply (closed_under_In (Reach.apply_to S_)); [vm_compute; reflexivity | exact Hq].
  - destruct (measure_collapses q random) as [-> | ->]; cbn [fst];
      apply mem_In; vm_compute; reflexivity.
Qed.

Lemma run_reachable (ops : list Reach.Op) (q : Qubit) :
  In q Reach.reachable -> In (Reach.run ops q) Reach.reachable.
Proof.
  revert q. induction ops as [|op ops IH]; intros q Hq; [exact Hq |].
  cbn. apply IH. now apply step_reachable.
Qed.

Lemma reachable_near_one (q : Qubit) :
  In q Reach.reachable -> near_one (total_probability q) = true.
Proof.
  revert q. apply forallb_forall. vm_compute. reflexivity.
Qed.

(** The sum over the state |0...0>. *)
Lemma norm_of_zeros (k : nat) (acc : float) :
  acc = 0 \/ acc = 1 ->
  foldl (fun norm amplitude => norm + Num.sq (magnitude amplitude)) acc (replicate k ZERO)
  = acc.
Proof.
  intros Hacc. induction k as [|k IH]; [reflexivity |].
  cbn [replicate foldl].
  replace (acc + Num.sq (magnitude ZERO)) with acc; [exact IH |].
  destruct Hacc as [-> | ->]; reflexivity.
Qed.

Lemma norm_of_initial_state (k : nat) : SV.norm_of (ONE :: replicate k ZERO) = 1.
Proof.
  unfold SV.norm_of. cbn [foldl].
  change (0 + Num.sq (magnitude ONE)) with 1.
  apply norm_of_zeros. now right.
Qed.

Lemma reset_within_capacity (sv : StateVector) :
  (0 <= _numQubits sv <= 15)%Z ->
  SV.reset sv
  = (inr tt, {| _numQubits := _numQubits sv;
                _stateVector := ONE :: replicate (Z.to_nat (2 ^ _numQubits sv) - 1) ZERO |}).
Proof.
  intros Hn. unfold SV.reset, SV.replace_with, SV.dimension.
  rewrite (shl_one _ Hn). unfold Array_fill.
  assert (Hpos : (0 < 2 ^ _numQubits sv)%Z) by (apply Z.pow_pos_nonneg; lia).
  destruct (2 ^ _numQubits sv <? 0)%Z eqn:E2; [apply Z.ltb_lt in E2; lia |].
  cbn [R.bind]. unfold set_at.
  destruct (Z.to_nat (2 ^ _numQubits sv)) as [|k] eqn:Ek; [lia |].
  cbn. now rewrite Nat.sub_0_r.
Qed.

(** Outside the states the gates reach, [normalize] can also lose the
    qubit to overflow or underflow of the squared magnitudes: an amplitude
    of 2^600 is divided by an infinite norm and becomes 0, and an amplitude
    of 2^-600 has a computed norm of 0 and is left as it is. *)
Lemma normalize_overflow_underflow :
  QubitOps.setState QubitOps.new_default (complex 0x1p600 0) ZERO = mkQubit ZERO ZERO
  /\ QubitOps.setState QubitOps.new_default (complex 0x1p-600 0) ZERO
     = mkQubit (complex 0x1p-600 0) ZERO
  /\ total_probability (mkQubit (complex 0x1p-600 0) ZERO) = 0.
Proof. repeat split. Qed.

(** * Further properties *)

(** ** More facts about binary64 arithmetic *)

Module FloatAlgebra.

Local Open Scope float_scope.

Lemma add_nan_r (x : float) : x + nan = nan.
Proof.
  apply Prim2SF_inj. rewrite FloatAxioms.add_spec.
  change (Prim2SF nan) with S754_nan.
  unfold SF64add, SFadd. destruct (Prim2SF x); reflexivity.
Qed.

Lemma add_nan_l (x : float) : nan + x = nan.
Proof.
  apply Prim2SF_inj. rewrite FloatAxioms.add_spec.
  change (Prim2SF nan) with S754_nan. reflexivity.
Qed.

Lemma SFadd_comm (x y : spec_float) : SF64add x y = SF64add y x.
Proof.
  unfold SF64add, SFadd.
  destruct x as [[|]|[|]| |[|] mx ex], y as [[|]|[|]| |[|] my ey]; try reflexivity;
    rewrite (Z.min_comm ey ex); f_equal; apply Z.add_comm.
Qed.

Lemma add_comm (x y : float) : x + y = y + x.
Proof. apply Prim2SF_inj. rewrite !FloatAxioms.add_spec. apply SFadd_comm. Qed.

Lemma SFmul_comm (x y : spec_float) : SF64mul x y = SF64mul y x.
Proof.
  unfold SF64mul, SFmul.
  destruct x as [[|]|[|]| |[|] mx ex], y as [[|]|[|]| |[|] my ey]; try reflexivity;
    rewrite (Pos.mul_comm my mx), (Z.add_comm ey ex); reflexivity.
Qed.

Lemma mul_comm (x y : float) : x * y = y * x.
Proof. apply Prim2SF_inj. rewrite !FloatAxioms.mul_spec. apply SFmul_comm. Qed.

Lemma opp_involutive (x : float) : - - x = x.
Proof.
  apply Prim2SF_inj. rewrite !FloatAxioms.opp_spec.
  destruct (Prim2SF x) as [[|]|[|]| |[|] m e]; reflexivity.
Qed.

Lemma mul_opp_opp (x y : float) : (- x) * (- y) = x * y.
Proof.
  apply Prim2SF_inj. rewrite !FloatAxioms.mul_spec, !FloatAxioms.opp_spec.
  destruct (Prim2SF x) as [[|]|[|]| |[|] mx ex], (Prim2SF y) as [[|]|[|]| |[|] my ey];
    reflexivity.
Qed.

Lemma round_signed (s : bool) (m e : Z) (l : location) :
  signed s (binary_round_aux prec emax s m e l).
Proof.
  unfold binary_round_aux.
  destruct (shr_fexp prec emax m e l) as [mrs' e'].
  destruct (shr_fexp prec emax _ e' loc_Exact) as [mrs'' e''].
  destruct (shr_m mrs''); [reflexivity | | exact Logic.I].
  destruct (e'' <=? emax - prec)%Z; reflexivity.
Qed.

Lemma nonneg_not_below_zero (x : float) :
  signed false (Prim2SF x) -> (x <? 0) = false.
Proof.
  rewrite FloatAxioms.ltb_spec. change (Prim2SF 0) with (S754_zero false).
  unfold SFltb, SFcompare.
  destruct (Prim2SF x) as [[|]|[|]| |[|] m e]; cbn; congruence.
Qed.

Lemma sq_signed (x : float) : signed false (Prim2SF (x * x)).
Proof.
  rewrite FloatAxioms.mul_spec. unfold SF64mul, SFmul.
  destruct (Prim2SF x) as [[|]|[|]| |[|] m e]; try reflexivity; apply round_signed.
Qed.

Lemma sqrt_not_negative (x : float) : (sqrt x <? 0) = false.
Proof.
  rewrite FloatAxioms.ltb_spec, FloatAxioms.sqrt_spec.
  change (Prim2SF 0) with (S754_zero false).
  unfold SF64sqrt, SFsqrt.
  destruct (Prim2SF x) as [[|]|[|]| |[|] m e]; try reflexivity.
  destruct (SFsqrt_core_binary prec emax (Z.pos m) e) as [[mz ez] lz].
  pose proof (round_signed false mz ez lz) as Hs.
  unfold SFltb, SFcompare.
  destruct (binary_round_aux prec emax false mz ez lz) as [[|]|[|]| |[|] m' e'];
    cbn in Hs |- *; congruence.
Qed.

Lemma sq_not_negative (x : float) : (x * x <? 0) = false.
Proof. apply nonneg_not_below_zero, sq_signed. Qed.

End FloatAlgebra.

Lemma binary_round_signed (s : bool) (m : positive) (e : Z) :
  signed s (binary_round prec emax s m e).
Proof.
  unfold binary_round. destruct (shl_align _ _ _) as [mz ez].
  apply FloatAlgebra.round_signed.
Qed.

(** A sum of two numbers that are not negative is not negative. *)
Lemma add_signed (x y : float) :
  signed false (Prim2SF x) -> signed false (Prim2SF y) -> signed false (Prim2SF (x + y)).
Proof.
  rewrite FloatAxioms.add_spec. unfold SF64add, SFadd.
  destruct (Prim2SF x) as [[|]|[|]| |[|] mx ex], (Prim2SF y) as [[|]|[|]| |[|] my ey];
    cbn; try congruence; try reflexivity.
  intros _ _.
  destruct (shl_align mx ex _) as [p1 e1], (shl_align my ey _) as [p2 e2].
  cbn [fst]. apply binary_round_signed.
Qed.

(** ** Complex arithmetic, continued *)

(** X1: addition and multiplication of complex numbers commute, for all
    binary64 components, NaN, infinities and signed zeros included. *)
Theorem add_multiply_commute (a b : Complex) :
  add a b = add b a /\ multiply a b = multiply b a.
Proof.
  unfold add, multiply. split.
  - now rewrite (FloatAlgebra.add_comm (real a)), (FloatAlgebra.add_comm (imag a)).
  - rewrite (FloatAlgebra.mul_comm (real a) (real b)),
            (FloatAlgebra.mul_comm (imag a) (imag b)),
            (FloatAlgebra.mul_comm (real a) (imag b)),
            (FloatAlgebra.mul_comm (imag a) (real b)).
    now rewrite (FloatAlgebra.add_comm (imag b * real a)).
Qed.

(** X2: conjugating twice gives the number back, and conjugation keeps the
    magnitude, exactly. *)
Theorem conjugate_involutive_isometric (a : Complex) :
  conjugate (conjugate a) = a /\ magnitude (conjugate a) = magnitude a.
Proof.
  destruct a as [re im]. unfold conjugate, magnitude. cbn [real imag]. split.
  - now rewrite FloatAlgebra.opp_involutive.
  - now rewrite FloatAlgebra.mul_opp_opp.
Qed.

Lemma magnitude_not_negative (a : Complex) : (magnitude a <? 0) = false.
Proof. apply FloatAlgebra.sqrt_not_negative. Qed.

Lemma sq_magnitude_signed (a : Complex) : signed false (Prim2SF (Num.sq (magnitude a))).
Proof. apply FloatAlgebra.sq_signed. Qed.

(** X3: no magnitude and no probability the engine reports is negative:
    the comparison with 0 is false for every amplitude, every qubit and every
    state vector, whatever their components are. *)
Theorem probabilities_not_negative :
  (forall a : Complex, (magnitude a <? 0) = false)
  /\ (forall q : Qubit,
        (QubitOps.probabilityZero q <? 0) = false
        /\ (QubitOps.probabilityOne q <? 0) = false)
  /\ (forall (basisState : list Z) (sv : StateVector) (p : float),
        SV.getProbability basisState sv = inr p -> (p <? 0) = false).
Proof.
  split; [exact magnitude_not_negative | split].
  - intros q. split; apply FloatAlgebra.sq_not_negative.
  - intros basisState sv p. unfold SV.getProbability.
    destruct (negb _); [discriminate |].
    destruct (SV.index_loop _ _ _) as [f|index]; [discriminate |].
    destruct (at_ _ index) as [e|amplitude]; [discriminate |].
    intros [= <-]. apply FloatAlgebra.sq_not_negative.
Qed.

Lemma probabilities_not_negative_witness :
  SV.getProbability [0%Z] {| _numQubits := 1; _stateVector := [ONE; ZERO] |} = inr 1
  /\ (1 <? 0) = false.
Proof.
  split; [reflexivity |].
  apply (proj2 (proj2 probabilities_not_negative)
           [0%Z] {| _numQubits := 1; _stateVector := [ONE; ZERO] |} 1).
  reflexivity.
Defined.

(** ** The qubit, continued *)

Lemma magnitude_nan (a : Complex) : has_nan a -> magnitude a = nan.
Proof.
  unfold magnitude, Num.Math_sqrt. intros [E | E]; rewrite E.
  - now rewrite FloatFacts.mul_nan_l, FloatAlgebra.add_nan_l.
  - now rewrite FloatFacts.mul_nan_l, FloatAlgebra.add_nan_r.
Qed.

Lemma normalize_keeps_nan (a b : Complex) :
  has_nan a \/ has_nan b -> QubitOps.normalize (mkQubit a b) = mkQubit a b.
Proof.
  intros Hnan. unfold QubitOps.normalize. cbn [alpha beta].
  destruct Hnan as [Ha | Hb].
  - rewrite (magnitude_nan a Ha). unfold Num.sq, Num.Math_sqrt.
    rewrite FloatFacts.mul_nan_l, FloatAlgebra.add_nan_l. reflexivity.
  - rewrite (magnitude_nan b Hb). unfold Num.sq, Num.Math_sqrt.
    rewrite FloatFacts.mul_nan_l, FloatAlgebra.add_nan_r. reflexivity.
Qed.

(** X4: a NaN in any component switches the normalization off: [setState]
    (and the constructor, and [clone]) store the amplitudes as they are
    given. *)
Theorem setState_keeps_nan (q : Qubit) (a b : Complex) :
  has_nan a \/ has_nan b ->
  QubitOps.setState q a b = mkQubit a b
  /\ QubitOps.new a b = mkQubit a b
  /\ QubitOps.clone (mkQubit a b) = mkQubit a b.
Proof.
  intros Hnan. repeat split; exact (normalize_keeps_nan a b Hnan).
Qed.

Lemma setState_keeps_nan_witness :
  has_nan (complex nan 0x1p1)
  /\ QubitOps.setState QubitOps.new_default (complex nan 0x1p1) (complex 0x1p2 0)
     = mkQubit (complex nan 0x1p1) (complex 0x1p2 0).
Proof.
  assert (H : has_nan (complex nan 0x1p1)) by (left; reflexivity).
  split; [exact H |].
  exact (proj1 (setState_keeps_nan QubitOps.new_default (complex nan 0x1p1)
                  (complex 0x1p2 0) (or_introl H))).
Defined.

(** ** The local gates, continued *)

Lemma arg_in (qubits : list ref) (i l : nat) :
  arg qubits i = Some l -> In (Some l) qubits.
Proof.
  unfold arg. destruct (qubits !! i) as [r|] eqn:E; [| discriminate].
  intros ->. apply list_elem_of_In. eapply list_elem_of_lookup_2. exact E.
Qed.

(** What [deref] and [setState] through a reference do to the store. *)
Lemma deref_cases (r : ref) (st : Store) :
  (exists l q, r = Some l /\ st !! l = Some q /\ deref r st = (inr q, st))
  \/ (deref r st = (inl TypeError, st)).
Proof.
  unfold deref. destruct r as [l|]; [| now right].
  destruct (st !! l) as [q|] eqn:E; [left; now exists l, q | now right].
Qed.

Lemma call_setState_cases (r : ref) (a b : Complex) (st : Store) :
  (exists l q, r = Some l /\ st !! l = Some q
               /\ call_setState r a b st = (inr tt, <[l := QubitOps.setState q a b]> st))
  \/ (call_setState r a b st = (inl TypeError, st)).
Proof.
  unfold call_setState. destruct r as [l|]; [| now right].
  destruct (st !! l) as [q|] eqn:E; [left; now exists l, q | now right].
Qed.

Lemma kept_same {A} (touched : list ref) (st : Store) (r : result A) :
  kept touched st (r, st).
Proof. repeat split. Qed.

Lemma kept_setState (touched : list ref) (r : ref) (a b : Complex) (st : Store) :
  In r touched -> kept touched st (call_setState r a b st).
Proof.
  intros Hin.
  destruct (call_setState_cases r a b st) as [(l & q & -> & Hq & ->) | ->];
    [| apply kept_same].
  repeat split; cbn [fst snd].
  - apply length_insert.
  - intros l' Hl'. apply list_lookup_insert_ne. intros ->. contradiction.
  - discriminate.
Qed.

Lemma single_qubit_gate_kept (name : string) (m : ComplexMatrix) (qubits : list ref)
    (st : Store) :
  kept qubits st (SingleQubitGate_apply name m qubits st).
Proof.
  unfold SingleQubitGate_apply.
  destruct (negb _) eqn:Elen; [apply kept_same |].
  unfold M.bind, M.lift.
  destruct (entry m 0 0) as [e|m00]; [apply kept_same |].
  destruct (deref_cases (arg qubits 0) st) as [(l & q & Hr & Hq & ->) | ->];
    [| apply kept_same].
  destruct (entry m 0 1) as [e|m01]; [apply kept_same |].
  destruct (entry m 1 0) as [e|m10]; [apply kept_same |].
  destruct (entry m 1 1) as [e|m11]; [apply kept_same |].
  apply kept_setState. rewrite Hr. now apply (arg_in qubits 0).
Qed.

Lemma cnot_kept (qubits : list ref) (st : Store) :
  kept qubits st (CNOTGate_apply qubits st).
Proof.
  unfold CNOTGate_apply.
  destruct (negb _) eqn:Elen; [apply kept_same |].
  unfold M.bind, M.ret.
  destruct (deref_cases (arg qubits 0) st) as [(lc & c & Hc & Hqc & ->) | ->];
    [| apply kept_same].
  destruct (0 <? QubitOps.probabilityOne c)%float; [| apply kept_same].
  destruct (deref_cases (arg qubits 1) st) as [(lt & t & Ht & Hqt & ->) | ->];
    [| apply kept_same].
  apply kept_setState. rewrite Ht. now apply (arg_in qubits 1).
Qed.

Lemma cz_kept (qubits : list ref) (st : Store) :
  kept qubits st (CZGate_apply qubits st).
Proof.
  unfold CZGate_apply.
  destruct (negb _) eqn:Elen; [apply kept_same |].
  unfold M.bind, M.ret.
  destruct (deref_cases (arg qubits 0) st) as [(lc & c & Hc & Hqc & ->) | ->];
    [| apply kept_same].
  destruct (0 <? QubitOps.probabilityOne c)%float; [| apply kept_same].
  destruct (deref_cases (arg qubits 1) st) as [(lt & t & Ht & Hqt & ->) | ->];
    [| apply kept_same].
  apply kept_setState. rewrite Ht. now apply (arg_in qubits 1).
Qed.

(** What [SWAP] leaves when both references are objects: the two qubits
    hold each other's amplitudes, normalized again. *)
Lemma swap_runs (qubits : list ref) (st : list Qubit) (l1 l2 : nat) (a b : Qubit) :
  length qubits = 2%nat ->
  arg qubits 0 = Some l1 -> arg qubits 1 = Some l2 ->
  st !! l1 = Some a -> st !! l2 = Some b ->
  exists a', <[l1 := QubitOps.setState a (alpha b) (beta b)]> st !! l2 = Some a'
    /\ SWAPGate_apply qubits st
       = (inr tt, <[l2 := QubitOps.setState a' (alpha a) (beta a)]>
                    (<[l1 := QubitOps.setState a (alpha b) (beta b)]> st)).
Proof.
  intros Hlen H1 H2 Ha Hb.
  assert (Hl2 : (l2 < length (<[l1 := QubitOps.setState a (alpha b) (beta b)]> st))%nat).
  { rewrite length_insert. now apply lookup_lt_Some in Hb. }
  apply lookup_lt_is_Some in Hl2. destruct Hl2 as [a' Ha'].
  exists a'. split; [exact Ha' |].
  unfold SWAPGate_apply. rewrite Hlen. cbn [Nat.eqb negb].
  unfold M.bind. rewrite H1, H2. unfold deref, call_setState, Store.
  rewrite Ha, Hb, Ha. now rewrite Ha'.
Qed.

Lemma swap_kept (qubits : list ref) (st : list Qubit) :
  kept qubits st (SWAPGate_apply qubits st).
Proof.
  destruct (Nat.eq_dec (length qubits) 2%nat) as [Hlen | Hlen].
  2: { unfold SWAPGate_apply. apply Nat.eqb_neq in Hlen. rewrite Hlen. apply kept_same. }
  destruct (deref_cases (arg qubits 0) st) as [(l1 & a & H1 & Ha & D1) | D1].
  2: { unfold SWAPGate_apply. rewrite Hlen. cbn [Nat.eqb negb]. unfold M.bind.
       rewrite D1. apply kept_same. }
  destruct (deref_cases (arg qubits 1) st) as [(l2 & b & H2 & Hb & D2) | D2].
  2: { unfold SWAPGate_apply. rewrite Hlen. cbn [Nat.eqb negb]. unfold M.bind.
       rewrite D1, D2. apply kept_same. }
  destruct (swap_runs qubits st l1 l2 a b Hlen H1 H2 Ha Hb) as (a' & _ & ->).
  repeat split; cbn [fst snd].
  - now rewrite !length_insert.
  - intros l Hl. unfold Store.
    rewrite !list_lookup_insert_ne; [reflexivity | |]; intros ->; apply Hl.
    + now apply (arg_in qubits 0).
    + now apply (arg_in qubits 1).
  - discriminate.
Qed.

Lemma gate_kept_length (g : QuantumGate) (qubits : list ref) (st : Store) :
  library_gate g -> kept qubits st (apply g qubits st).
Proof.
  intros [(name & m00 & m01 & m10 & m11 & ->) | [-> | [-> | ->]]].
  - apply single_qubit_gate_kept.
  - apply cnot_kept.
  - apply cz_kept.
  - apply swap_kept.
Qed.

(** X5: a gate of the library keeps the number of qubits, changes no qubit
    that is not among its arguments, and changes nothing at all when it
    throws (a wrong number of arguments, an argument that is [undefined]). *)
Theorem gate_apply_is_framed (g : QuantumGate) (qubits : list ref) (st : Store) :
  library_gate g ->
  length (snd (apply g qubits st)) = length st
  /\ (forall l, ~ In (Some l) qubits -> snd (apply g qubits st) !! l = st !! l)
  /\ (forall e, fst (apply g qubits st) = inl e -> snd (apply g qubits st) = st).
Proof.
  intros [(name & m00 & m01 & m10 & m11 & ->) | [-> | [-> | ->]]].
  - apply single_qubit_gate_kept.
  - apply cnot_kept.
  - apply cz_kept.
  - apply swap_kept.
Qed.

Lemma gate_apply_is_framed_witness :
  library_gate SWAP
  /\ snd (apply SWAP [Some 0%nat; Some 2%nat]
            [mkQubit ONE ZERO; mkQubit I ZERO; mkQubit ZERO ONE]) !! 1%nat
     = Some (mkQubit I ZERO)
  /\ snd (apply SWAP [Some 0%nat; None] [mkQubit ONE ZERO]) = [mkQubit ONE ZERO].
Proof.
  assert (Hg : library_gate SWAP) by (right; right; right; reflexivity).
  split; [exact Hg | split].
  - apply (proj1 (proj2 (gate_apply_is_framed SWAP [Some 0%nat; Some 2%nat]
                           [mkQubit ONE ZERO; mkQubit I ZERO; mkQubit ZERO ONE] Hg))).
    intros [E | [E | []]]; discriminate.
  - apply (proj2 (proj2 (gate_apply_is_framed SWAP [Some 0%nat; None]
                           [mkQubit ONE ZERO] Hg)) TypeError).
    reflexivity.
Defined.

Lemma scale_by_object (a b : Complex) : scale a (JObject b) = NaN_amplitude.
Proof.
  unfold scale, NaN_amplitude. cbn [ToNumber real imag]. unfold Num.NaN.
  now rewrite !FloatFacts.mul_nan_r.
Qed.

(** X6: when the control's probability of one is positive, [CZ] leaves NaN
    in both components of the target's beta, keeps the target's alpha as it
    was, whatever the two qubits are, and does not normalize. *)
Theorem cz_leaves_nan (st : list Qubit) (control target : nat) (c t : Qubit) :
  st !! control = Some c ->
  st !! target = Some t ->
  (0 <? QubitOps.probabilityOne c) = true ->
  apply CZ [Some control; Some target] st
  = (inr tt, <[target := mkQubit (alpha t) NaN_amplitude]> st).
Proof.
  intros Hc Ht Hp.
  cbn [apply CZ CZGate]. unfold CZGate_apply.
  cbn [length Nat.eqb negb arg lookup list_lookup].
  unfold M.bind, deref, call_setState, Store. rewrite Hc, Hp, Ht.
  cbn beta iota. rewrite Ht.
  rewrite scale_by_object. unfold QubitOps.setState.
  rewrite normalize_keeps_nan; [reflexivity |]. right. left. reflexivity.
Qed.

Lemma cz_leaves_nan_witness :
  let st := [mkQubit ZERO ONE; mkQubit ONE ZERO] in
  (0 <? QubitOps.probabilityOne (mkQubit ZERO ONE)) = true
  /\ apply CZ [Some 0%nat; Some 1%nat] st
     = (inr tt, [mkQubit ZERO ONE; mkQubit ONE NaN_amplitude]).
Proof.
  intros st. split; [reflexivity |].
  exact (cz_leaves_nan st 0 1 (mkQubit ZERO ONE) (mkQubit ONE ZERO)
           eq_refl eq_refl eq_refl).
Defined.

(** On the states the fixed gates reach, normalizing again changes
    nothing. *)
Lemma normalize_reachable (q : Qubit) :
  In q Reach.reachable -> QubitOps.normalize q = q.
Proof.
  intros Hq. apply Qubit_eqb_eq. revert q Hq.
  apply forallb_forall. vm_compute. reflexivity.
Qed.

Lemma setState_reachable (old q : Qubit) :
  In q Reach.reachable -> QubitOps.setState old (alpha q) (beta q) = q.
Proof.
  intros Hq. unfold QubitOps.setState.
  destruct q as [a b]. cbn [alpha beta]. now apply normalize_reachable.
Qed.

Lemma prepared_reachable (ops : list Reach.Op) :
  In (Reach.run ops QubitOps.new_default) Reach.reachable.
Proof. apply run_reachable. apply mem_In. vm_compute. reflexivity. Qed.

(** X7: [SWAP] exchanges two qubits exactly when both were prepared from
    |0> by the gates H, X, Y, Z, S and measurements: the renormalization in
    [setState] changes no bit of them. *)
Theorem swap_exchanges_prepared
    (st : list Qubit) (l1 l2 : nat) (ops1 ops2 : list Reach.Op) :
  st !! l1 = Some (Reach.run ops1 QubitOps.new_default) ->
  st !! l2 = Some (Reach.run ops2 QubitOps.new_default) ->
  apply SWAP [Some l1; Some l2] st
  = (inr tt, <[l2 := Reach.run ops1 QubitOps.new_default]>
               (<[l1 := Reach.run ops2 QubitOps.new_default]> st)).
Proof.
  intros H1 H2.
  destruct (swap_runs [Some l1; Some l2] st l1 l2 _ _ eq_refl eq_refl eq_refl H1 H2)
    as (a' & _ & E).
  cbn [apply SWAP SWAPGate]. rewrite E.
  now rewrite !setState_reachable by apply prepared_reachable.
Qed.

Lemma swap_exchanges_prepared_witness :
  apply SWAP [Some 0%nat; Some 1%nat]
    [Reach.run [Reach.ApplyH] QubitOps.new_default;
     Reach.run [Reach.ApplyX; Reach.ApplyS] QubitOps.new_default]
  = (inr tt, [Reach.run [Reach.ApplyX; Reach.ApplyS] QubitOps.new_default;
              Reach.run [Reach.ApplyH] QubitOps.new_default]).
Proof.
  exact (swap_exchanges_prepared
           [Reach.run [Reach.ApplyH] QubitOps.new_default;
            Reach.run [Reach.ApplyX; Reach.ApplyS] QubitOps.new_default]
           0 1 [Reach.ApplyH] [Reach.ApplyX; Reach.ApplyS] eq_refl eq_refl).
Defined.

Lemma same_probabilities_eq (a b : Qubit) :
  same_probabilities a b = true ->
  QubitOps.probabilityZero a = QubitOps.probabilityZero b
  /\ QubitOps.probabilityOne a = QubitOps.probabilityOne b.
Proof.
  unfold same_probabilities. intros E. apply andb_true_iff in E.
  destruct E as [E0 E1]. split; now apply float_eqb_eq.
Qed.

Lemma exchanged_probabilities_eq (a b : Qubit) :
  exchanged_probabilities a b = true ->
  QubitOps.probabilityZero a = QubitOps.probabilityOne b
  /\ QubitOps.probabilityOne a = QubitOps.probabilityZero b.
Proof.
  unfold exchanged_probabilities. intros E. apply andb_true_iff in E.
  destruct E as [E0 E1]. split; now apply float_eqb_eq.
Qed.

(** X8: on a qubit prepared from |0> by any sequence of the gates H, X, Y,
    Z, S and of measurements, Z and S leave both probabilities exactly as
    they are, X and Y exchange them exactly, and two Hadamard gates in a row
    restore them exactly. *)
Theorem gates_on_prepared_probabilities (ops : list Reach.Op) :
  let q := Reach.run ops QubitOps.new_default in
  let P0 := QubitOps.probabilityZero in
  let P1 := QubitOps.probabilityOne in
  (P0 (Reach.apply_to Z_ q) = P0 q /\ P1 (Reach.apply_to Z_ q) = P1 q)
  /\ (P0 (Reach.apply_to S_ q) = P0 q /\ P1 (Reach.apply_to S_ q) = P1 q)
  /\ (P0 (Reach.apply_to X q) = P1 q /\ P1 (Reach.apply_to X q) = P0 q)
  /\ (P0 (Reach.apply_to Y q) = P1 q /\ P1 (Reach.apply_to Y q) = P0 q)
  /\ (P0 (Reach.apply_to H (Reach.apply_to H q)) = P0 q
      /\ P1 (Reach.apply_to H (Reach.apply_to H q)) = P1 q).
Proof.
  intros q P0 P1.
  assert (Hall : gate_probabilities_hold q = true).
  { assert (Hq : In q Reach.reachable) by apply prepared_reachable.
    revert q Hq. clear. apply forallb_forall. vm_compute. reflexivity. }
  unfold gate_probabilities_hold in Hall.
  apply andb_true_iff in Hall. destruct Hall as [Hall HH].
  apply andb_true_iff in Hall. destruct Hall as [Hall HY].
  apply andb_true_iff in Hall. destruct Hall as [Hall HX].
  apply andb_true_iff in Hall. destruct Hall as [HZ HS].
  apply same_probabilities_eq in HZ, HS, HH.
  apply exchanged_probabilities_eq in HX, HY.
  repeat split; first [apply HZ | apply HS | apply HX | apply HY | apply HH].
Qed.

(** ** The circuit, continued *)

Lemma library_gate_arity (g : QuantumGate) :
  library_gate g -> numQubits g = 1%Z \/ numQubits g = 2%Z.
Proof.
  intros [(name & m00 & m01 & m10 & m11 & ->) | [-> | [-> | ->]]]; auto.
Qed.

(** A gate of the library handed as many qubit objects as it has qubits
    returns normally. *)
Lemma library_gate_runs (g : QuantumGate) (refs : list ref) (st : list Qubit) :
  library_gate g ->
  Z.of_nat (length refs) = numQubits g ->
  Forall (fun r => exists l q, r = Some l /\ st !! l = Some q) refs ->
  fst (apply g refs st) = inr tt.
Proof.
  intros Hg Hlen Hrefs.
  destruct Hg as [(name & m00 & m01 & m10 & m11 & ->) | [-> | [-> | ->]]];
    cbn [numQubits SingleQubitGate CNOT CNOTGate CZ CZGate SWAP SWAPGate] in Hlen.
  - destruct refs as [|r [|r' rest]]; cbn in Hlen; try lia.
    apply Forall_inv in Hrefs. destruct Hrefs as (l & q & -> & Hq).
    cbn [apply SingleQubitGate]. unfold SingleQubitGate_apply.
    cbn [length Nat.eqb negb arg lookup list_lookup].
    unfold M.bind, M.lift, deref, call_setState, Store. cbn [entry at_].
    rewrite Hq. cbn. now rewrite Hq.
  - destruct refs as [|r [|r' [|r'' rest]]]; cbn in Hlen; try lia.
    pose proof (Forall_inv Hrefs) as (lc & c & -> & Hc).
    pose proof (Forall_inv (Forall_inv_tail Hrefs)) as (lt & t & -> & Ht).
    cbn [apply CNOT CNOTGate]. unfold CNOTGate_apply.
    cbn [length Nat.eqb negb arg lookup list_lookup].
    unfold M.bind, M.ret, deref, call_setState, Store. rewrite Hc.
    destruct (0 <? QubitOps.probabilityOne c)%float; [| reflexivity].
    rewrite Ht. cbn beta iota. now rewrite Ht.
  - destruct refs as [|r [|r' [|r'' rest]]]; cbn in Hlen; try lia.
    pose proof (Forall_inv Hrefs) as (lc & c & -> & Hc).
    pose proof (Forall_inv (Forall_inv_tail Hrefs)) as (lt & t & -> & Ht).
    cbn [apply CZ CZGate]. unfold CZGate_apply.
    cbn [length Nat.eqb negb arg lookup list_lookup].
    unfold M.bind, M.ret, deref, call_setState, Store. rewrite Hc.
    destruct (0 <? QubitOps.probabilityOne c)%float; [| reflexivity].
    rewrite Ht. cbn beta iota. now rewrite Ht.
  - destruct refs as [|r [|r' [|r'' rest]]]; cbn in Hlen; try lia.
    pose proof (Forall_inv Hrefs) as (l1 & a & -> & Ha).
    pose proof (Forall_inv (Forall_inv_tail Hrefs)) as (l2 & b & -> & Hb).
    destruct (swap_runs [Some l1; Some l2] st l1 l2 a b eq_refl eq_refl eq_refl Ha Hb)
      as (a' & _ & E).
    change (apply SWAP) with SWAPGate_apply. unfold ref in *. now rewrite E.
Qed.

Lemma qubit_ref_valid (c : QuantumCircuit) (index : Z) :
  (0 <= index < Circuit.qubits_length c)%Z ->
  exists l q, Circuit.qubit_ref c index = Some l /\ _qubits c !! l = Some q.
Proof.
  intros Hi. unfold Circuit.qubit_ref.
  destruct (index <? 0)%Z eqn:E1; [apply Z.ltb_lt in E1; lia |].
  destruct (index <? Circuit.qubits_length c)%Z eqn:E2; [| apply Z.ltb_ge in E2; lia].
  unfold Circuit.qubits_length in Hi.
  destruct (lookup_lt_is_Some_2 (_qubits c) (Z.to_nat index)) as [q Hq]; [lia |].
  now exists (Z.to_nat index), q.
Qed.

(** The loop of [execute] over runnable operations. *)
Lemma qubit_at_valid (c : QuantumCircuit) (index : number) :
  names_one_of (Circuit.qubits_length c) index ->
  exists l q, Circuit.qubit_at c index = Some l /\ _qubits c !! l = Some q.
Proof. intros (i & -> & Hi). rewrite qubit_at_Int. now apply qubit_ref_valid. Qed.

Lemma execute_loop (arrays : Arrays) (ops : list Operation) (c : QuantumCircuit) :
  Forall (runnable arrays (Circuit.qubits_length c)) ops ->
  exists c',
    M.for_each (Circuit.execute_step arrays) ops c = (inr tt, c')
    /\ _operations c' = _operations c
    /\ length (_qubits c') = length (_qubits c).
Proof.
  revert c. induction ops as [|op ops IH]; intros c Hall.
  - exists c. repeat split.
  - pose proof (Forall_inv Hall) as (Hg & indices & Hq & Hlen & Hidx).
    pose proof (Forall_inv_tail Hall) as Hrest.
    set (refs := Circuit.qubit_at c <$> indices).
    assert (Hrun : fst (apply (gate op) refs (_qubits c)) = inr tt).
    { apply library_gate_runs; [exact Hg | subst refs; now rewrite length_fmap |].
      subst refs. apply Forall_fmap. eapply Forall_impl; [exact Hidx |].
      intros index Hi. cbn. now apply qubit_at_valid. }
    pose proof (proj1 (gate_kept_length (gate op) refs (_qubits c) Hg)) as Hkeep.
    destruct (apply (gate op) refs (_qubits c)) as [r st1] eqn:Eap.
    cbn [fst snd] in Hrun, Hkeep. subst r.
    set (c1 := {| _qubits := st1; _operations := _operations c |}).
    destruct (IH c1) as (c' & Hc' & Hops & Hlen').
    { unfold Circuit.qubits_length, c1. cbn [_qubits]. rewrite Hkeep. exact Hrest. }
    exists c'. split; [| split].
    + cbn [M.for_each]. unfold M.bind at 1. unfold Circuit.execute_step at 1.
      rewrite Hq. unfold Circuit.on_qubits at 1.
      fold refs. rewrite Eap. exact Hc'.
    + exact Hops.
    + rewrite Hlen'. exact Hkeep.
Qed.

Lemma check_indices_return (c c0 c1 : QuantumCircuit) (indices : list number) :
  M.for_each (Circuit.check_index c) indices c0 = (inr tt, c1) ->
  Forall (valid_index c) indices /\ c1 = c0.
Proof.
  revert c0. induction indices as [|index rest IH]; intros c0 Hrun.
  - cbn in Hrun. injection Hrun as <-. split; [constructor | reflexivity].
  - cbn [M.for_each] in Hrun. unfold M.bind at 1 in Hrun.
    unfold Circuit.check_index at 1 in Hrun.
    destruct (Number.ltb index (Int 0)
              || Number.geb index (Int (Circuit.qubits_length c))) eqn:E;
      [discriminate |].
    unfold M.ret at 1 in Hrun. apply IH in Hrun. destruct Hrun as [Hrest ->].
    split; [| reflexivity]. constructor; [exact E | exact Hrest].
Qed.

(** What [addGate] has checked when it returns. *)
Lemma addGate_returns (arrays : Arrays) (g : QuantumGate) (qubits : nat)
    (c c' : QuantumCircuit) :
  Circuit.addGate arrays g qubits c = (inr tt, c') ->
  exists indices,
    arrays !! qubits = Some indices
    /\ Z.of_nat (length indices) = numQubits g
    /\ Forall (valid_index c) indices
    /\ c' = {| _qubits := _qubits c;
               _operations := _operations c ++ [mkOperation g qubits] |}.
Proof.
  unfold Circuit.addGate.
  destruct (arrays !! qubits) as [indices|]; [| discriminate].
  destruct (Z.of_nat (length indices) =? numQubits g)%Z eqn:E; cbn [negb];
    [| discriminate].
  apply Z.eqb_eq in E. unfold M.bind.
  destruct (M.for_each (Circuit.check_index c) indices c) as [[e|[]] c1] eqn:Hloop;
    [discriminate |].
  apply check_indices_return in Hloop. destruct Hloop as [Hall ->].
  intros [= <-]. exists indices. repeat split; assumption.
Qed.

(** X9: a circuit whose operations were recorded through [addGate] with
    gates of the library and with index arrays that hold integers can be
    executed, as long as those arrays hold what they held.  A fresh circuit
    has this property; a call of [addGate] that returns keeps it when the
    array it is handed holds integers; the property depends only on the
    arrays of the recorded operations; and on such a circuit [execute]
    returns normally, with the operation list and the number of qubits as
    they were.  [addGate] records the array it is handed, not a copy: after
    [addGate(H, a)] with [a = [0]] on a new one-qubit circuit and the write
    [a[0] = 5], [execute] throws a TypeError. *)
Theorem recorded_circuit_executes :
  (forall (arrays : Arrays) (n : Z) (c : QuantumCircuit),
      Circuit.new n = inr c -> recorded_well arrays c)
  /\ (forall (arrays : Arrays) (c c' : QuantumCircuit) (g : QuantumGate)
             (qubits : nat) (indices : list number),
        recorded_well arrays c -> library_gate g ->
        arrays !! qubits = Some indices ->
        Forall (fun index => exists i : Z, index = Int i) indices ->
        Circuit.addGate arrays g qubits c = (inr tt, c') -> recorded_well arrays c')
  /\ (forall (arrays arrays' : Arrays) (c : QuantumCircuit),
        recorded_well arrays c -> arrays_kept arrays arrays' c ->
        recorded_well arrays' c)
  /\ (forall (arrays : Arrays) (c : QuantumCircuit),
        recorded_well arrays c ->
        exists c', Circuit.execute arrays c = (inr tt, c')
                   /\ _operations c' = _operations c
                   /\ length (_qubits c') = length (_qubits c))
  /\ (let c := {| _qubits := [QubitOps.new_default]; _operations := [] |} in
      let c1 := {| _qubits := [QubitOps.new_default];
                   _operations := [mkOperation H 0] |} in
      Circuit.new 1 = inr c
      /\ Circuit.addGate [[Int 0]] H 0 c = (inr tt, c1)
      /\ Circuit.execute [[Int 5]] c1 = (inl TypeError, c1)).
Proof.
  split; [| split; [| split; [| split]]].
  - intros arrays n c. unfold Circuit.new.
    destruct (Array_fill n tt) as [e|slots]; [discriminate |].
    cbn [R.bind]. intros [= <-]. constructor.
  - intros arrays c c' g r indices Hc Hg Hq Hint Hadd.
    apply addGate_returns in Hadd. destruct Hadd as (indices' & Hq' & Hlen & Hidx & ->).
    rewrite Hq in Hq'. injection Hq' as <-.
    unfold recorded_well, Circuit.qubits_length in *. cbn [_qubits _operations].
    apply Forall_app. split; [exact Hc |].
    constructor; [| constructor]. split; [exact Hg |].
    exists indices. cbn [qubits gate]. repeat split; [exact Hq | exact Hlen |].
    clear Hq Hlen. induction Hidx as [|index rest Hi _ IH]; [constructor |].
    pose proof (Forall_inv Hint) as [i ->].
    constructor; [| exact (IH (Forall_inv_tail Hint))].
    exists i. split; [reflexivity |]. now apply valid_index_Int in Hi.
  - intros arrays arrays' c Hc Hkept. unfold recorded_well, arrays_kept in *.
    induction Hc as [|op ops (Hg & indices & Hq & Hrest) _ IH]; [constructor |].
    constructor; [| exact (IH (Forall_inv_tail Hkept))].
    split; [exact Hg |]. exists indices. split; [| exact Hrest].
    rewrite (Forall_inv Hkept). exact Hq.
  - intros arrays c Hc. unfold Circuit.execute. now apply execute_loop.
  - repeat split.
Qed.

Lemma recorded_circuit_executes_witness :
  let arrays := [[Int 1; Int 0]] in
  let c0 := {| _qubits := [mkQubit ONE ZERO; mkQubit ONE ZERO]; _operations := [] |} in
  let c1 := {| _qubits := _qubits c0; _operations := [mkOperation CNOT 0] |} in
  Circuit.new 2 = inr c0
  /\ library_gate CNOT
  /\ Circuit.addGate arrays CNOT 0 c0 = (inr tt, c1)
  /\ recorded_well arrays c1
  /\ exists c', Circuit.execute arrays c1 = (inr tt, c')
                /\ _operations c' = _operations c1
                /\ length (_qubits c') = length (_qubits c1).
Proof.
  intros arrays c0 c1.
  destruct recorded_circuit_executes as (Hnew & Hadd & _ & Hexec & _).
  assert (Hg : library_gate CNOT) by (right; left; reflexivity).
  assert (H1 : recorded_well arrays c1).
  { apply (Hadd arrays c0 c1 CNOT 0%nat [Int 1; Int 0]);
      [apply (Hnew arrays 2%Z); reflexivity | exact Hg | reflexivity | | reflexivity].
    constructor; [now exists 1%Z | constructor; [now exists 0%Z | constructor]]. }
  split; [reflexivity | split; [exact Hg | split; [reflexivity | split; [exact H1 |]]]].
  apply Hexec. exact H1.
Defined.

(** A basis state is measured as itself by every draw in [0, 1). *)
Lemma measure_basis (q : Qubit) (random random' : float) :
  is_draw random' ->
  QubitOps.measure (fst (QubitOps.measure q random)) random'
  = QubitOps.measure q random.
Proof.
  intros [Hlo Hhi].
  destruct (measure_collapses q random) as [-> | ->]; cbn [fst]; unfold QubitOps.measure.
  - change (QubitOps.probabilityZero (mkQubit ONE ZERO)) with 1. now rewrite Hhi.
  - change (QubitOps.probabilityZero (mkQubit ZERO ONE)) with 0.
    now rewrite (FloatFacts.not_below_zero _ Hlo).
Qed.

Lemma measure_from_repeats (randoms randoms' : nat -> float) (i j : nat) (qs : list Qubit) :
  (forall k, is_draw (randoms' k)) ->
  measure_again randoms randoms' i j qs.
Proof.
  intros Hdraw. unfold measure_again. revert i j.
  induction qs as [|q rest IH]; intros i j; [repeat split; constructor |].
  cbn [Circuit.measure_from].
  pose proof (measure_basis q (randoms i) (randoms' j) (Hdraw j)) as Hq.
  pose proof (measure_collapses q (randoms i)) as Hbit.
  destruct (QubitOps.measure q (randoms i)) as [q' b] eqn:Em.
  specialize (IH (S i) (S j)).
  destruct (Circuit.measure_from randoms (S i) rest) as [rest' bits] eqn:Er.
  cbn [fst snd] in *. destruct IH as (IH1 & IH2 & IH3).
  cbn [Circuit.measure_from]. rewrite Hq, IH1. repeat split.
  - cbn [length]. now rewrite IH2.
  - constructor; [| exact IH3].
    destruct Hbit as [[= _ <-] | [= _ <-]]; auto.
Qed.

(** X10: [measureAll] returns one outcome, 0 or 1, per qubit, and is
    repeatable: a second [measureAll] returns the same outcomes for all draws
    in [0, 1) and leaves every qubit as the first one left it. *)
Theorem circuit_measureAll_repeats
    (c : QuantumCircuit) (randoms randoms' : nat -> float) :
  (forall k, is_draw (randoms' k)) ->
  exists outcomes,
    fst (Circuit.measureAll randoms c) = inr outcomes
    /\ Circuit.measureAll randoms' (snd (Circuit.measureAll randoms c))
       = (inr outcomes, snd (Circuit.measureAll randoms c))
    /\ length outcomes = length (_qubits c)
    /\ Forall (fun b => b = 0%Z \/ b = 1%Z) outcomes.
Proof.
  intros Hdraw.
  pose proof (measure_from_repeats randoms randoms' 0 0 (_qubits c) Hdraw) as Hm.
  unfold measure_again in Hm. unfold Circuit.measureAll.
  destruct (Circuit.measure_from randoms 0 (_qubits c)) as [qs outcomes] eqn:E.
  cbn [fst snd] in *. destruct Hm as (H1 & H2 & H3).
  exists outcomes. cbn [_qubits _operations]. rewrite H1. repeat split; assumption.
Qed.

Lemma circuit_measureAll_repeats_witness :
  (forall k : nat, is_draw ((fun _ => 0x1p-1) k))
  /\ exists outcomes,
       fst (Circuit.measureAll (fun _ => 0x1p-2)
              {| _qubits := [mkQubit I ONE; mkQubit ZERO ZERO]; _operations := [] |})
       = inr outcomes
       /\ length outcomes = 2%nat.
Proof.
  assert (Hd : forall k : nat, is_draw ((fun _ => 0x1p-1) k))
    by (intros k; split; reflexivity).
  split; [exact Hd |].
  destruct (circuit_measureAll_repeats
              {| _qubits := [mkQubit I ONE; mkQubit ZERO ZERO]; _operations := [] |}
              (fun _ => 0x1p-2) (fun _ => 0x1p-1) Hd) as (outcomes & H1 & _ & H3 & _).
  exists outcomes. split; [exact H1 | exact H3].
Defined.

Lemma measure_from_zeros (randoms : nat -> float) (i n : nat) :
  (forall k, (randoms k <? 1) = true) ->
  Circuit.measure_from randoms i (replicate n (mkQubit ONE ZERO))
  = (replicate n (mkQubit ONE ZERO), replicate n 0%Z).
Proof.
  intros Hdraw. revert i. induction n as [|n IH]; intros i; [reflexivity |].
  cbn [replicate Circuit.measure_from]. unfold QubitOps.measure at 1.
  change (QubitOps.probabilityZero (mkQubit ONE ZERO)) with 1.
  rewrite (Hdraw i), setState_ONE_ZERO. now rewrite IH.
Qed.

Lemma reset_qubits (qs : list Qubit) :
  (fun q => QubitOps.setState q ONE ZERO) <$> qs = replicate (length qs) (mkQubit ONE ZERO).
Proof. induction qs as [|q rest IH]; [reflexivity |]. cbn. now rewrite <- IH. Qed.

(** X11: after [reset] no operation is recorded, the number of qubits is
    what it was, and [measureAll] returns 0 for every qubit, for all draws
    below 1, leaving the circuit reset; the same holds of a fresh circuit. *)
Theorem reset_measures_zeros (randoms : nat -> float) :
  (forall k, (randoms k <? 1) = true) ->
  (forall c : QuantumCircuit,
      let c0 := snd (Circuit.reset c) in
      fst (Circuit.reset c) = inr tt
      /\ _operations c0 = []
      /\ length (_qubits c0) = length (_qubits c)
      /\ Circuit.measureAll randoms c0 = (inr (replicate (length (_qubits c)) 0%Z), c0))
  /\ (forall (n : Z) (c : QuantumCircuit),
      Circuit.new n = inr c ->
      Circuit.measureAll randoms c = (inr (replicate (Z.to_nat n) 0%Z), c)).
Proof.
  intros Hdraw. split.
  - intros c c0. subst c0. unfold Circuit.reset. cbn [fst snd _operations _qubits].
    rewrite reset_qubits. rewrite length_replicate.
    repeat split. unfold Circuit.measureAll. cbn [_qubits _operations].
    now rewrite measure_from_zeros.
  - intros n c. unfold Circuit.new, Array_fill.
    destruct (n <? 0)%Z; [discriminate |]. cbn [R.bind]. intros [= <-].
    unfold Circuit.measureAll. cbn [_qubits _operations].
    rewrite fmap_replicate. change QubitOps.new_default with (mkQubit ONE ZERO).
    now rewrite measure_from_zeros.
Qed.

Lemma reset_measures_zeros_witness :
  (forall k : nat, ((fun _ => 0x1p-1) k <? 1) = true)
  /\ Circuit.measureAll (fun _ => 0x1p-1)
       (snd (Circuit.reset {| _qubits := [mkQubit ZERO ONE; mkQubit I I];
                              _operations := [mkOperation H 0] |}))
     = (inr [0%Z; 0%Z],
        {| _qubits := [mkQubit ONE ZERO; mkQubit ONE ZERO]; _operations := [] |}).
Proof.
  assert (Hd : forall k : nat, ((fun _ => 0x1p-1) k <? 1) = true) by reflexivity.
  split; [exact Hd |].
  exact (proj2 (proj2 (proj2
           (proj1 (reset_measures_zeros (fun _ => 0x1p-1) Hd)
              {| _qubits := [mkQubit ZERO ONE; mkQubit I I];
                 _operations := [mkOperation H 0] |})))).
Defined.

(** *** Prepared qubits in a circuit *)

Lemma prepared_step (op : Reach.Op) (q : Qubit) :
  prepared q -> prepared (Reach.step op q).
Proof.
  intros [ops ->]. exists (ops ++ [op]). unfold Reach.run.
  now rewrite foldl_app.
Qed.

Lemma prepared_zero : prepared (mkQubit ONE ZERO).
Proof. now exists []. Qed.

Lemma prepared_one : prepared (mkQubit ZERO ONE).
Proof. now exists [Reach.Measure 1]. Qed.

Lemma prepared_is_reachable (q : Qubit) : prepared q -> In q Reach.reachable.
Proof. intros [ops ->]. apply prepared_reachable. Qed.

Lemma prepared_measure (q : Qubit) (random : float) :
  prepared (fst (QubitOps.measure q random)).
Proof.
  destruct (measure_collapses q random) as [-> | ->];
    [apply prepared_zero | apply prepared_one].
Qed.

(** A single-qubit gate replaces the qubit it is applied to by what the
    gate makes of that qubit alone, or leaves the store as it is. *)
Lemma single_gate_local (name : string) (m : ComplexMatrix) (refs : list ref)
    (st : list Qubit) :
  snd (SingleQubitGate_apply name m refs st) = st
  \/ exists l q, st !! l = Some q
       /\ snd (SingleQubitGate_apply name m refs st)
          = <[l := Reach.apply_to (SingleQubitGate name m) q]> st.
Proof.
  unfold SingleQubitGate_apply.
  destruct (negb _) eqn:Elen; [now left |].
  unfold M.bind, M.lift.
  destruct (entry m 0 0) as [e|m00] eqn:E00; [now left |].
  destruct (deref_cases (arg refs 0) st) as [(l & q & Hr & Hq & ->) | ->];
    [| now left].
  destruct (entry m 0 1) as [e|m01] eqn:E01; [now left |].
  destruct (entry m 1 0) as [e|m10] eqn:E10; [now left |].
  destruct (entry m 1 1) as [e|m11] eqn:E11; [now left |].
  right. exists l, q. split; [exact Hq |].
  rewrite Hr. unfold call_setState. unfold Store in *. rewrite Hq. cbn [snd]. f_equal.
  unfold Reach.apply_to. cbn [apply SingleQubitGate]. unfold SingleQubitGate_apply.
  cbn [length Nat.eqb negb arg lookup list_lookup].
  unfold M.bind, M.lift, deref, call_setState.
  rewrite E00, E01, E10, E11. reflexivity.
Qed.

Lemma swap_cases (refs : list ref) (st : list Qubit) :
  snd (SWAPGate_apply refs st) = st
  \/ exists l1 l2 a b a',
       st !! l1 = Some a /\ st !! l2 = Some b
       /\ snd (SWAPGate_apply refs st)
          = <[l2 := QubitOps.setState a' (alpha a) (beta a)]>
              (<[l1 := QubitOps.setState a (alpha b) (beta b)]> st).
Proof.
  destruct (Nat.eq_dec (length refs) 2%nat) as [Hlen | Hlen].
  2: { left. unfold SWAPGate_apply. apply Nat.eqb_neq in Hlen. now rewrite Hlen. }
  destruct (deref_cases (arg refs 0) st) as [(l1 & a & H1 & Ha & D1) | D1].
  2: { left. unfold SWAPGate_apply. rewrite Hlen. cbn [Nat.eqb negb]. unfold M.bind.
       now rewrite D1. }
  destruct (deref_cases (arg refs 1) st) as [(l2 & b & H2 & Hb & D2) | D2].
  2: { left. unfold SWAPGate_apply. rewrite Hlen. cbn [Nat.eqb negb]. unfold M.bind.
       now rewrite D1, D2. }
  destruct (swap_runs refs st l1 l2 a b Hlen H1 H2 Ha Hb) as (a' & _ & E).
  right. exists l1, l2, a, b, a'. rewrite E. now repeat split.
Qed.

(** The fixed gates keep a store of prepared qubits prepared. *)
Lemma fixed_gate_keeps_prepared (g : QuantumGate) (refs : list ref) (st : list Qubit) :
  fixed_gate g -> Forall prepared st -> Forall prepared (snd (apply g refs st)).
Proof.
  intros Hg Hst.
  assert (Hsingle : forall name m op,
            (forall q, Reach.step op q = Reach.apply_to (SingleQubitGate name m) q) ->
            Forall prepared (snd (SingleQubitGate_apply name m refs st))).
  { intros name m op Hop.
    destruct (single_gate_local name m refs st) as [-> | (l & q & Hq & ->)];
      [exact Hst |].
    apply Forall_insert; [exact Hst |]. rewrite <- Hop. apply prepared_step.
    eapply Forall_lookup_1; [exact Hst | exact Hq]. }
  destruct Hg as [-> | [-> | [-> | [-> | [-> | ->]]]]].
  - now apply (Hsingle _ _ Reach.ApplyH).
  - now apply (Hsingle _ _ Reach.ApplyX).
  - now apply (Hsingle _ _ Reach.ApplyY).
  - now apply (Hsingle _ _ Reach.ApplyZ).
  - now apply (Hsingle _ _ Reach.ApplyS).
  - change (apply SWAP) with SWAPGate_apply.
    destruct (swap_cases refs st) as [-> | (l1 & l2 & a & b & a' & Ha & Hb & ->)];
      [exact Hst |].
    assert (Pa : prepared a) by (eapply Forall_lookup_1; [exact Hst | exact Ha]).
    assert (Pb : prepared b) by (eapply Forall_lookup_1; [exact Hst | exact Hb]).
    rewrite !setState_reachable by now apply prepared_is_reachable.
    apply Forall_insert; [apply Forall_insert |]; assumption.
Qed.

Lemma execute_keeps_prepared (arrays : Arrays) (ops : list Operation)
    (c : QuantumCircuit) :
  all_prepared c ->
  Forall (fun op => fixed_gate (gate op)) ops ->
  all_prepared (snd (M.for_each (Circuit.execute_step arrays) ops c)).
Proof.
  revert c. induction ops as [|op ops IH]; intros c Hc Hops; [exact Hc |].
  cbn [M.for_each]. unfold M.bind at 1. unfold Circuit.execute_step at 1.
  destruct (arrays !! qubits op) as [indices|]; [| exact Hc].
  unfold Circuit.on_qubits at 1.
  pose proof (fixed_gate_keeps_prepared (gate op) (Circuit.qubit_at c <$> indices)
                (_qubits c) (Forall_inv Hops) Hc) as Hst.
  destruct (apply (gate op) (Circuit.qubit_at c <$> indices) (_qubits c))
    as [[e|[]] st1]; cbn [snd] in Hst |- *.
  - exact Hst.
  - apply IH; [exact Hst | exact (Forall_inv_tail Hops)].
Qed.

Lemma check_indices_keep (c c0 : QuantumCircuit) (indices : list number) :
  snd (M.for_each (Circuit.check_index c) indices c0) = c0.
Proof.
  revert c0. induction indices as [|index rest IH]; intros c0; [reflexivity |].
  cbn [M.for_each]. unfold M.bind at 1. unfold Circuit.check_index at 1.
  destruct (Number.ltb index (Int 0) || Number.geb index (Int (Circuit.qubits_length c)));
    [reflexivity | apply IH].
Qed.

Lemma addGate_keeps_qubits (arrays : Arrays) (g : QuantumGate) (r : nat)
    (c : QuantumCircuit) :
  _qubits (snd (Circuit.addGate arrays g r c)) = _qubits c.
Proof.
  unfold Circuit.addGate. destruct (arrays !! r) as [indices|]; [| reflexivity].
  destruct (negb _); [reflexivity |].
  unfold M.bind.
  pose proof (check_indices_keep c c indices) as Hk.
  destruct (M.for_each (Circuit.check_index c) indices c) as [[e|[]] c1];
    cbn [snd] in Hk |- *; now subst c1.
Qed.

Lemma measure_from_prepared (randoms : nat -> float) (i : nat) (qs : list Qubit) :
  Forall prepared (fst (Circuit.measure_from randoms i qs)).
Proof.
  revert i. induction qs as [|q rest IH]; intros i; [constructor |].
  cbn [Circuit.measure_from].
  pose proof (prepared_measure q (randoms i)) as Hq.
  destruct (QubitOps.measure q (randoms i)) as [q' b].
  specialize (IH (S i)).
  destruct (Circuit.measure_from randoms (S i) rest) as [rest' bits].
  cbn [fst] in *. now constructor.
Qed.

Lemma execute_keeps_operations (arrays : Arrays) (ops : list Operation)
    (c : QuantumCircuit) :
  _operations (snd (M.for_each (Circuit.execute_step arrays) ops c)) = _operations c.
Proof.
  revert c. induction ops as [|op ops IH]; intros c; [reflexivity |].
  cbn [M.for_each]. unfold M.bind at 1. unfold Circuit.execute_step at 1.
  destruct (arrays !! qubits op) as [indices|]; [| reflexivity].
  unfold Circuit.on_qubits at 1.
  destruct (apply (gate op) (Circuit.qubit_at c <$> indices) (_qubits c))
    as [[e|[]] st1]; cbn [snd]; [reflexivity |].
  now rewrite IH.
Qed.

Lemma addGate_operations (arrays : Arrays) (g : QuantumGate) (r : nat)
    (c : QuantumCircuit) :
  _operations (snd (Circuit.addGate arrays g r c)) = _operations c
  \/ _operations (snd (Circuit.addGate arrays g r c))
     = _operations c ++ [mkOperation g r].
Proof.
  unfold Circuit.addGate. destruct (arrays !! r) as [indices|]; [| now left].
  destruct (negb _); [now left |].
  unfold M.bind.
  pose proof (check_indices_keep c c indices) as Hk.
  destruct (M.for_each (Circuit.check_index c) indices c) as [[e|[]] c1];
    cbn [snd] in Hk |- *; subst c1; [now left | now right].
Qed.

Lemma clone_of_all_prepared (c : QuantumCircuit) :
  all_prepared c -> Circuit.clone c = c.
Proof.
  intros Hc. unfold Circuit.clone. destruct c as [qs ops]. cbn [_qubits _operations].
  f_equal. unfold all_prepared in Hc. cbn [_qubits] in Hc.
  induction Hc as [|q rest Hq Hrest IH]; [reflexivity |].
  cbn [fmap list_fmap]. rewrite (setState_reachable _ q (prepared_is_reachable q Hq)).
  f_equal. exact IH.
Qed.

Lemma built_invariant (c : QuantumCircuit) :
  built c -> all_prepared c /\ fixed_operations c.
Proof.
  induction 1 as [n c Hnew | arrays c g r _ [IHq IHo] Hg | arrays c _ [IHq IHo]
                 | c index random _ [IHq IHo] | c randoms _ [IHq IHo]
                 | c _ [IHq IHo] | c _ [IHq IHo]].
  - unfold Circuit.new in Hnew.
    destruct (Array_fill n tt) as [e|slots]; [discriminate |].
    cbn [R.bind] in Hnew. injection Hnew as <-. split.
    + unfold all_prepared. cbn [_qubits].
      apply Forall_fmap, Forall_forall. intros x _. apply prepared_zero.
    + constructor.
  - split.
    + unfold all_prepared. now rewrite addGate_keeps_qubits.
    + unfold fixed_operations.
      destruct (addGate_operations arrays g r c) as [-> | ->]; [exact IHo |].
      apply Forall_app. split; [exact IHo |].
      constructor; [exact Hg | constructor].
  - split.
    + now apply execute_keeps_prepared.
    + unfold fixed_operations, Circuit.execute. now rewrite execute_keeps_operations.
  - unfold Circuit.measure.
    destruct ((index <? 0)%Z || (Circuit.qubits_length c <=? index)%Z); [now split |].
    destruct (_qubits c !! Z.to_nat index) as [q|] eqn:Hq; [| now split].
    pose proof (prepared_measure q random) as Hm.
    destruct (QubitOps.measure q random) as [q' b]. cbn [fst snd] in *.
    split; [| exact IHo].
    unfold all_prepared. cbn [_qubits]. now apply Forall_insert.
  - unfold Circuit.measureAll.
    pose proof (measure_from_prepared randoms 0 (_qubits c)) as Hm.
    destruct (Circuit.measure_from randoms 0 (_qubits c)) as [qs bits].
    now split.
  - split.
    + unfold Circuit.reset, all_prepared. cbn [snd _qubits].
      apply Forall_fmap, Forall_forall. intros q _. cbn. apply prepared_zero.
    + constructor.
  - now rewrite clone_of_all_prepared.
Qed.

(** X12: a circuit built without [initialize] (a new circuit, then any
    calls of [addGate] with H, X, Y, Z, S or SWAP, of [execute], [measure],
    [measureAll], [reset] and [clone], failed calls included) holds only
    qubits whose squared magnitudes sum to 1 within 1e-9; each of them is a
    state reached from |0> by H, X, Y, Z, S and measurements. *)
Theorem built_circuit_is_normalized (c : QuantumCircuit) :
  built c ->
  Forall (fun q => prepared q /\ near_one (total_probability q) = true) (_qubits c).
Proof.
  intros Hc. destruct (built_invariant c Hc) as [Hq _].
  eapply Forall_impl; [exact Hq |].
  intros q Pq. split; [exact Pq |].
  apply reachable_near_one. now apply prepared_is_reachable.
Qed.

Lemma built_circuit_is_normalized_witness :
  Forall (fun q => prepared q /\ near_one (total_probability q) = true)
    (_qubits
       (snd (Circuit.measure 0 0.25
               (snd (Circuit.execute [[Int 0]]
                       (snd (Circuit.addGate [[Int 0]] H 0
                               {| _qubits := [QubitOps.new_default; QubitOps.new_default];
                                  _operations := [] |}))))))).
Proof.
  apply built_circuit_is_normalized.
  apply built_measure, built_execute, built_addGate.
  - now apply (built_new 2).
  - now left.
Defined.

(** X13: [clone] of a circuit built without [initialize] is the same
    circuit, bit for bit: same amplitudes, same operations. *)
Theorem clone_of_built (c : QuantumCircuit) :
  built c -> Circuit.clone c = c.
Proof.
  intros Hc. apply clone_of_all_prepared. now apply built_invariant.
Qed.

Lemma clone_of_built_witness :
  Circuit.clone
    (snd (Circuit.execute [[Int 1]]
            (snd (Circuit.addGate [[Int 1]] X 0
                    {| _qubits := [QubitOps.new_default; QubitOps.new_default];
                       _operations := [] |}))))
  = snd (Circuit.execute [[Int 1]]
           (snd (Circuit.addGate [[Int 1]] X 0
                   {| _qubits := [QubitOps.new_default; QubitOps.new_default];
                      _operations := [] |}))).
Proof.
  apply clone_of_built.
  apply built_execute, built_addGate.
  - now apply (built_new 2).
  - right. now left.
Defined.

(** *** [measureAll] and [getProbability] of the state vector *)

Lemma probabilities_loop (v : list Complex) (len k : nat) (acc : list float) :
  (k + len <= length v)%nat ->
  R.for_loop (fun i acc => R.bind (at_ v i) (fun s_i => inr (acc ++ [Num.sq (magnitude s_i)])))
    (Z.of_nat <$> seq k len) acc
  = inr (acc ++ (probability_of <$> take len (drop k v))).
Proof.
  revert k acc. induction len as [|len IH]; intros k acc Hk.
  - cbn. now rewrite app_nil_r.
  - cbn [seq fmap list_fmap R.for_loop].
    destruct (at_in_range v (Z.of_nat k) ltac:(lia)) as (x & -> & Hx).
    rewrite Nat2Z.id in Hx. cbn [R.bind].
    change (list_fmap nat Z Z.of_nat (seq (S k) len)) with (Z.of_nat <$> seq (S k) len).
    rewrite IH by lia.
    rewrite (drop_S v x k Hx). cbn [take fmap list_fmap].
    now rewrite <- app_assoc.
Qed.

Lemma probabilities_of_vector (v : list Complex) :
  R.for_loop (fun i acc => R.bind (at_ v i) (fun s_i => inr (acc ++ [Num.sq (magnitude s_i)])))
    (upto (Z.of_nat (length v))) []
  = inr (probability_of <$> v).
Proof.
  unfold upto. rewrite Nat2Z.id.
  rewrite (probabilities_loop v (length v) 0 []) by lia.
  now rewrite drop_0, firstn_all.
Qed.

Lemma sample_in_range (random : float) (ps : list float) (i : Z) (c : float) :
  (0 <= i)%Z ->
  (SV.sample random ps i c = 0 \/ i <= SV.sample random ps i c < i + Z.of_nat (length ps))%Z.
Proof.
  revert i c. induction ps as [|p ps IH]; intros i c Hi; [now left |].
  cbn [SV.sample length].
  destruct (random <? c + p).
  - right. lia.
  - destruct (IH (i + 1)%Z (c + p) ltac:(lia)) as [-> | H]; [now left | right; lia].
Qed.

Lemma sample_basis (random : float) (k : nat) (rest : list float) (i : Z) :
  is_draw random ->
  SV.sample random (replicate k 0 ++ 1 :: rest) i 0 = (i + Z.of_nat k)%Z.
Proof.
  intros [H0 H1]. revert i. induction k as [|k IH]; intros i.
  - cbn [replicate app SV.sample]. change (0 + 1) with 1. rewrite H1. lia.
  - cbn [replicate app SV.sample]. change (0 + 0) with 0.
    rewrite (FloatFacts.not_below_zero random H0). rewrite IH. lia.
Qed.

Lemma land_one (x : Z) : (Z.land x 1 = 0 \/ Z.land x 1 = 1)%Z.
Proof.
  assert (E : Z.land x 1 = (x mod 2)%Z) by exact (Z.land_ones x 1 ltac:(lia)).
  rewrite E. pose proof (Z.mod_pos_bound x 2 ltac:(lia)). lia.
Qed.

Lemma bit_of_binary (o i : Z) : bit_of o i = 0%Z \/ bit_of o i = 1%Z.
Proof. unfold bit_of, Int32.and. apply land_one. Qed.

Lemma bit_of_testbit (o i : Z) :
  (0 <= o < 2 ^ 15)%Z -> (0 <= i <= 15)%Z ->
  bit_of o i = Z.b2z (Z.testbit o i).
Proof.
  intros Ho Hi. unfold bit_of, Int32.and, Int32.shr.
  rewrite (wrap_small o) by lia.
  replace (Z.land i 31) with i.
  2: { change 31%Z with (Z.ones 5). rewrite Z.land_ones by lia.
       rewrite Z.mod_small; [reflexivity | change (2 ^ 5)%Z with 32%Z; lia]. }
  assert (Hs : (0 <= Z.shiftr o i <= o)%Z).
  { rewrite Z.shiftr_div_pow2 by lia.
    assert (0 < 2 ^ i)%Z by (apply Z.pow_pos_nonneg; lia).
    split; [apply Z.div_pos; lia | apply Z.div_le_upper_bound; nia]. }
  rewrite (wrap_small (Z.shiftr o i)) by lia.
  change (Int32.wrap 1) with (Z.ones 1). rewrite Z.land_ones by lia.
  change (2 ^ 1)%Z with 2%Z. rewrite <- Z.bit0_mod. rewrite Z.shiftr_spec by lia.
  now rewrite Z.add_0_l.
Qed.

(** One step of the conversion of bits to an index. *)
Lemma or_next_bit (o k : Z) :
  (0 <= o < 2 ^ 15)%Z -> (0 <= k < 15)%Z ->
  Int32.or (o mod 2 ^ k) (Int32.shl (bit_of o k) k) = (o mod 2 ^ (k + 1))%Z.
Proof.
  intros Ho Hk.
  assert (Hpk : (0 < 2 ^ k <= 2 ^ 15)%Z) by (apply pow2_le_15; lia).
  assert (Hmod : (0 <= o mod 2 ^ k < 2 ^ k)%Z) by (apply Z.mod_pos_bound; lia).
  assert (Hshl : Int32.shl (bit_of o k) k = Z.shiftl (Z.b2z (Z.testbit o k)) k).
  { rewrite bit_of_testbit by lia. unfold Int32.shl.
    replace (Z.land k 31) with k.
    2: { change 31%Z with (Z.ones 5). rewrite Z.land_ones by lia.
         rewrite Z.mod_small; [reflexivity | change (2 ^ 5)%Z with 32%Z; lia]. }
    destruct (Z.testbit o k); cbn [Z.b2z].
    - rewrite (wrap_small 1) by lia. rewrite Z.shiftl_1_l. apply wrap_small. lia.
    - rewrite (wrap_small 0) by lia. rewrite Z.shiftl_0_l. apply wrap_small. lia. }
  rewrite Hshl. unfold Int32.or.
  assert (Hb : (0 <= Z.shiftl (Z.b2z (Z.testbit o k)) k <= 2 ^ k)%Z).
  { destruct (Z.testbit o k); cbn [Z.b2z].
    - rewrite Z.shiftl_1_l. lia.
    - rewrite Z.shiftl_0_l. lia. }
  rewrite !wrap_small by lia.
  apply Z.bits_inj'. intros j Hj.
  rewrite Z.lor_spec, Z.shiftl_spec by lia.
  destruct (Z_lt_le_dec j k) as [Hlt | Hge].
  - rewrite !Z.mod_pow2_bits_low by lia.
    rewrite (Z.testbit_neg_r _ (j - k)) by lia. now rewrite orb_false_r.
  - rewrite (Z.mod_pow2_bits_high o k j) by lia. cbn [orb].
    destruct (Z.eq_dec j k) as [-> | Hne].
    + rewrite Z.sub_diag, Z.mod_pow2_bits_low by lia.
      destruct (Z.testbit o k); reflexivity.
    + rewrite Z.mod_pow2_bits_high by lia.
      destruct (Z.testbit o k); cbn [Z.b2z].
      * apply Z.bits_above_log2; [lia |]. cbn. lia.
      * apply Z.bits_0.
Qed.

Lemma index_loop_bits (o : Z) (bits : list Z) (n len k : nat) :
  (0 <= o < 2 ^ 15)%Z -> (n <= 15)%nat -> (k + len = n)%nat ->
  bits = (fun i => bit_of o i) <$> upto (Z.of_nat n) ->
  SV.index_loop bits (Z.of_nat <$> seq k len) (o mod 2 ^ Z.of_nat k)
  = inr (o mod 2 ^ Z.of_nat n)%Z.
Proof.
  intros Ho Hn Hk Hbits. revert k Hk.
  induction len as [|len IH]; intros k Hk.
  - cbn. now replace k with n by lia.
  - cbn [seq fmap list_fmap SV.index_loop].
    destruct (Z.of_nat k <? 0)%Z eqn:E; [apply Z.ltb_lt in E; lia |].
    rewrite Nat2Z.id.
    assert (Hlook : bits !! k = Some (bit_of o (Z.of_nat k))).
    { rewrite Hbits. unfold upto. rewrite Nat2Z.id, <- list_fmap_compose.
      rewrite list_lookup_fmap, lookup_seq_lt by lia. reflexivity. }
    rewrite Hlook.
    destruct (bit_of_binary o (Z.of_nat k)) as [Hb | Hb].
    + rewrite Hb at 1 2. cbn [Z.eqb negb andb].
      change (list_fmap nat Z Z.of_nat (seq (S k) len)) with (Z.of_nat <$> seq (S k) len).
      rewrite or_next_bit by lia.
      replace (Z.of_nat k + 1)%Z with (Z.of_nat (S k)) by lia. apply IH. lia.
    + rewrite Hb at 1 2. cbn [Z.eqb negb andb Pos.eqb].
      change (list_fmap nat Z Z.of_nat (seq (S k) len)) with (Z.of_nat <$> seq (S k) len).
      rewrite or_next_bit by lia.
      replace (Z.of_nat k + 1)%Z with (Z.of_nat (S k)) by lia. apply IH. lia.
Qed.

Lemma probability_of_basis (D o : nat) :
  (o < D)%nat ->
  probability_of <$> <[o := ONE]> (replicate D ZERO)
  = replicate o 0 ++ 1 :: replicate (D - S o) 0.
Proof.
  intros Ho. rewrite (insert_replicate_lt ZERO ONE D o Ho).
  rewrite fmap_app, fmap_cons, !fmap_replicate. reflexivity.
Qed.

Lemma norm_of_basis (D o : nat) :
  (o < D)%nat -> SV.norm_of (<[o := ONE]> (replicate D ZERO)) = 1.
Proof.
  intros Ho. rewrite (insert_replicate_lt ZERO ONE D o Ho).
  unfold SV.norm_of. rewrite foldl_app. rewrite norm_of_zeros by now left.
  cbn [foldl]. change (0 + Num.sq (magnitude ONE)) with 1.
  apply norm_of_zeros. now right.
Qed.

(** What [measureAll] does on a state vector with one amplitude per basis
    state. *)
Lemma measureAll_runs (random : float) (sv : StateVector) :
  well_formed sv ->
  let outcome := SV.sample random (probability_of <$> _stateVector sv) 0 0 in
  (0 <= outcome < 2 ^ _numQubits sv)%Z
  /\ SV.measureAll random sv
     = (inr ((fun i => bit_of outcome i) <$> upto (_numQubits sv)),
        {| _numQubits := _numQubits sv;
           _stateVector := <[Z.to_nat outcome := ONE]>
                             (replicate (Z.to_nat (2 ^ _numQubits sv)) ZERO) |}).
Proof.
  intros [Hn Hlen] outcome.
  assert (Hp : (0 < 2 ^ _numQubits sv)%Z) by (apply Z.pow_pos_nonneg; lia).
  assert (Ho : (0 <= outcome < 2 ^ _numQubits sv)%Z).
  { subst outcome.
    destruct (sample_in_range random (probability_of <$> _stateVector sv) 0 0 ltac:(lia))
      as [-> | H]; [lia |].
    rewrite length_fmap in H. lia. }
  split; [exact Ho |].
  unfold SV.measureAll, SV.dimension. rewrite (shl_one _ Hn), <- Hlen.
  rewrite probabilities_of_vector. cbn [R.bind].
  unfold Array_fill.
  destruct (Z.of_nat (length (_stateVector sv)) <? 0)%Z eqn:E;
    [apply Z.ltb_lt in E; lia |].
  cbn [R.bind]. rewrite Nat2Z.id. reflexivity.
Qed.

(** X14: on a state vector of 0 to 15 qubits with one amplitude per basis
    state, [measureAll] returns for every draw: one bit per qubit, each 0 or
    1, and the state is left as the basis state of those bits: its squared
    magnitudes sum to exactly 1, [getProbability] of the returned bits is
    exactly 1, and a second [measureAll] returns the same bits and leaves the
    same state, for every draw in [0, 1). *)
Theorem state_vector_measureAll_round_trip
    (sv : StateVector) (random random' : float) :
  well_formed sv ->
  is_draw random' ->
  exists bits sv',
    SV.measureAll random sv = (inr bits, sv')
    /\ Z.of_nat (length bits) = _numQubits sv
    /\ Forall (fun b => b = 0%Z \/ b = 1%Z) bits
    /\ well_formed sv'
    /\ SV.norm_of (_stateVector sv') = 1
    /\ SV.getProbability bits sv' = inr 1
    /\ SV.measureAll random' sv' = (inr bits, sv').
Proof.
  intros Hwf Hdraw. pose proof Hwf as [Hn Hlen].
  destruct (measureAll_runs random sv Hwf) as [Ho Hrun].
  set (o := SV.sample random (probability_of <$> _stateVector sv) 0 0) in *.
  set (D := Z.to_nat (2 ^ _numQubits sv)) in *.
  set (bits := (fun i => bit_of o i) <$> upto (_numQubits sv)) in *.
  set (sv' := {| _numQubits := _numQubits sv;
                 _stateVector := <[Z.to_nat o := ONE]> (replicate D ZERO) |}) in *.
  assert (HoD : (Z.to_nat o < D)%nat) by (subst D; lia).
  assert (Hp15 : (0 < 2 ^ _numQubits sv <= 2 ^ 15)%Z) by now apply pow2_le_15.
  assert (Hbits : Z.of_nat (length bits) = _numQubits sv).
  { subst bits. unfold upto. rewrite !length_fmap, length_seq. lia. }
  assert (Hwf' : well_formed sv').
  { split; [exact Hn |]. subst sv' D. cbn [_stateVector _numQubits].
    rewrite length_insert, length_replicate. lia. }
  exists bits, sv'.
  split; [exact Hrun |]. split; [exact Hbits |].
  split; [| split; [exact Hwf' |]; split; [| split]].
  - subst bits. apply Forall_fmap, Forall_forall. intros i _. apply bit_of_binary.
  - now apply norm_of_basis.
  - unfold SV.getProbability. subst sv'. cbn [_numQubits _stateVector].
    rewrite Hbits, Z.eqb_refl. cbn [negb].
    assert (Hidx : SV.index_loop bits (upto (_numQubits sv)) 0 = inr o).
    { pose proof (index_loop_bits o bits (Z.to_nat (_numQubits sv))
                    (Z.to_nat (_numQubits sv)) 0 ltac:(lia) ltac:(lia) ltac:(lia)) as Hi.
      rewrite Z2Nat.id in Hi by lia.
      specialize (Hi eq_refl).
      change (2 ^ Z.of_nat 0)%Z with 1%Z in Hi. rewrite Z.mod_1_r in Hi.
      rewrite Z.mod_small in Hi by lia. exact Hi. }
    rewrite Hidx.
    destruct (at_in_range (<[Z.to_nat o := ONE]> (replicate D ZERO)) o) as (x & -> & Hx).
    { rewrite length_insert, length_replicate. lia. }
    rewrite list_lookup_insert_eq in Hx by (rewrite length_replicate; lia).
    now injection Hx as <-.
  - destruct (measureAll_runs random' sv' Hwf') as [_ Hrun'].
    rewrite Hrun'. subst sv'. cbn [_numQubits _stateVector]. fold D.
    rewrite (probability_of_basis D (Z.to_nat o) HoD).
    rewrite (sample_basis random' _ _ 0%Z Hdraw).
    rewrite Z.add_0_l, Z2Nat.id by lia. reflexivity.
Qed.

Lemma state_vector_measureAll_round_trip_witness :
  exists bits sv',
    SV.measureAll 0x1.8p-1 {| _numQubits := 2; _stateVector := uniform2 |} = (inr bits, sv')
    /\ Z.of_nat (length bits) = 2%Z
    /\ Forall (fun b => b = 0%Z \/ b = 1%Z) bits
    /\ well_formed sv'
    /\ SV.norm_of (_stateVector sv') = 1
    /\ SV.getProbability bits sv' = inr 1
    /\ SV.measureAll 0x1p-2 sv' = (inr bits, sv').
Proof.
  apply (state_vector_measureAll_round_trip
           {| _numQubits := 2; _stateVector := uniform2 |} 0x1.8p-1 0x1p-2).
  - split; [cbn; lia | reflexivity].
  - split; reflexivity.
Defined.

(** *** Gates on the state vector *)

(** A counting loop with an invariant that depends on the counter. *)
Lemma for_loop_counted {A} (body : Z -> A -> result A) (Inv : nat -> A -> Prop)
    (n len k : nat) (acc : A) :
  (k + len = n)%nat ->
  Inv k acc ->
  (forall i a, (i < n)%nat -> Inv i a -> exists a', body (Z.of_nat i) a = inr a' /\ Inv (S i) a') ->
  exists r, R.for_loop body (Z.of_nat <$> seq k len) acc = inr r /\ Inv n r.
Proof.
  intros Hk H0 Hstep. revert k acc Hk H0.
  induction len as [|len IH]; intros k acc Hk H0.
  - exists acc. split; [reflexivity |]. now replace n with k by lia.
  - destruct (Hstep k acc ltac:(lia) H0) as (a' & Hb & Ha').
    destruct (IH (S k) a' ltac:(lia) Ha') as (r & Hr & HI).
    exists r. split; [| exact HI].
    cbn [seq fmap list_fmap R.for_loop]. rewrite Hb. exact Hr.
Qed.

Lemma entry_value_scales_to_nan (m : ComplexMatrix) (r c : Z) (v : jsvalue) (a : Complex) :
  entry_value m r c = inr v -> scale a v = NaN_amplitude.
Proof.
  unfold entry_value. destruct (at_ m r) as [e|row]; [discriminate |].
  cbn [R.bind]. intros [= <-].
  assert (E : forall v, v = JUndefined \/ (exists x, v = JObject x) ->
                        scale a v = NaN_amplitude).
  { intros v [-> | [x ->]]; unfold scale, NaN_amplitude; cbn [ToNumber]; unfold Num.NaN;
      now rewrite !FloatFacts.mul_nan_r. }
  apply E. destruct (c <? 0)%Z; [now left |].
  destruct (row !! Z.to_nat c) as [x|]; [right; now exists x | now left].
Qed.

Lemma entry_value_runs (m : ComplexMatrix) (r c : Z) :
  (0 <= r < Z.of_nat (length m))%Z -> exists v, entry_value m r c = inr v.
Proof.
  intros Hr. unfold entry_value.
  destruct (at_in_range m r Hr) as (row & -> & _). cbn [R.bind]. eauto.
Qed.

Lemma add_nan_amplitude (a : Complex) : add a NaN_amplitude = NaN_amplitude.
Proof.
  unfold add, NaN_amplitude. cbn [real imag]. now rewrite !FloatAlgebra.add_nan_r.
Qed.

(** An amplitude that is NaN stays NaN when NaN is written anywhere. *)
Lemma nan_stays (v : list Complex) (x y : nat) :
  v !! x = Some NaN_amplitude -> <[y := NaN_amplitude]> v !! x = Some NaN_amplitude.
Proof.
  intros Hx. destruct (Nat.eq_dec y x) as [-> | Hne].
  - apply list_lookup_insert_eq. now apply lookup_lt_Some in Hx.
  - now rewrite list_lookup_insert_ne.
Qed.

Lemma nan_written (v : list Complex) (y : nat) :
  (y < length v)%nat -> <[y := NaN_amplitude]> v !! y = Some NaN_amplitude.
Proof. intros Hy. now apply list_lookup_insert_eq. Qed.

Lemma all_nan_replicate (v : list Complex) (D : nat) :
  length v = D ->
  (forall j, (j < D)%nat -> v !! j = Some NaN_amplitude) ->
  v = replicate D NaN_amplitude.
Proof.
  intros Hlen Hall. apply list_eq. intros j.
  destruct (Nat.lt_ge_cases j D) as [Hlt | Hge].
  - rewrite (Hall j Hlt). symmetry. now apply lookup_replicate_2.
  - rewrite !(proj2 (lookup_ge_None _ _)); [reflexivity | |].
    + rewrite length_replicate. lia.
    + lia.
Qed.

(** One iteration of [applySingleQubitGate] writes NaN at [i] and at the
    flipped index, in one order or the other. *)
Lemma single_step_writes_nan (old v : list Complex) (m : ComplexMatrix) (n q i : Z) :
  (0 <= q < n)%Z -> (n <= 15)%Z -> (0 <= i < 2 ^ n)%Z ->
  Z.of_nat (length old) = (2 ^ n)%Z -> Z.of_nat (length v) = (2 ^ n)%Z ->
  (2 <= length m)%nat ->
  exists x y,
    SV.single_step old m q i v = inr (<[y := NaN_amplitude]> (<[x := NaN_amplitude]> v))
    /\ (x < length v)%nat /\ (y < length v)%nat
    /\ (x = Z.to_nat i \/ y = Z.to_nat i).
Proof.
  intros Hq Hn Hi Hold Hv Hm.
  pose proof (flipped_in_range n q i Hq Hn Hi) as Hf.
  set (f := Int32.xor i (Int32.shl 1 q)) in *.
  destruct (entry_value_runs m 0 0 ltac:(lia)) as (m00 & E00).
  destruct (entry_value_runs m 0 1 ltac:(lia)) as (m01 & E01).
  destruct (entry_value_runs m 1 0 ltac:(lia)) as (m10 & E10).
  destruct (entry_value_runs m 1 1 ltac:(lia)) as (m11 & E11).
  destruct (at_in_range old i ltac:(lia)) as (s_i & Hs & _).
  unfold SV.single_step. fold f.
  destruct (Int32.and (Int32.shr i q) 1 =? 0)%Z.
  - exists (Z.to_nat i), (Z.to_nat f).
    destruct (at_in_range v i ltac:(lia)) as (n_i & -> & _).
    cbn [R.bind]. rewrite Hs, E00. cbn [R.bind].
    destruct (at_in_range (set_at v i (add n_i (scale s_i m00))) f) as (n_f & -> & _).
    { unfold set_at. rewrite length_insert. lia. }
    cbn [R.bind]. rewrite E10. cbn [R.bind]. unfold set_at.
    rewrite (entry_value_scales_to_nan m 0 0 m00 s_i E00).
    rewrite (entry_value_scales_to_nan m 1 0 m10 s_i E10).
    rewrite !add_nan_amplitude.
    split; [reflexivity | repeat split; [lia | lia | now left]].
  - exists (Z.to_nat f), (Z.to_nat i).
    destruct (at_in_range v f ltac:(lia)) as (n_f & -> & _).
    cbn [R.bind]. rewrite Hs, E01. cbn [R.bind].
    destruct (at_in_range (set_at v f (add n_f (scale s_i m01))) i) as (n_i & -> & _).
    { unfold set_at. rewrite length_insert. lia. }
    cbn [R.bind]. rewrite E11. cbn [R.bind]. unfold set_at.
    rewrite (entry_value_scales_to_nan m 0 1 m01 s_i E01).
    rewrite (entry_value_scales_to_nan m 1 1 m11 s_i E11).
    rewrite !add_nan_amplitude.
    split; [reflexivity | repeat split; [lia | lia | now right]].
Qed.

(** The state of a loop that has written NaN at every index below [k]. *)
Lemma nan_below_step (v : list Complex) (D k x y : nat) :
  length v = D ->
  (forall j, (j < k)%nat -> v !! j = Some NaN_amplitude) ->
  (x < length v)%nat -> (y < length v)%nat -> (x = k \/ y = k) ->
  length (<[y := NaN_amplitude]> (<[x := NaN_amplitude]> v)) = D
  /\ (forall j, (j < S k)%nat ->
        <[y := NaN_amplitude]> (<[x := NaN_amplitude]> v) !! j = Some NaN_amplitude).
Proof.
  intros Hlen Hall Hx Hy Hxy. split; [now rewrite !length_insert |].
  intros j Hj. destruct (Nat.eq_dec j k) as [-> | Hne].
  - destruct Hxy as [-> | ->].
    + apply nan_stays. now apply nan_written.
    + apply nan_written. now rewrite length_insert.
  - apply nan_stays, nan_stays, Hall. lia.
Qed.

Lemma single_loop_all_nan (old : list Complex) (m : ComplexMatrix) (n q : Z) :
  (0 <= q < n)%Z -> (n <= 15)%Z ->
  Z.of_nat (length old) = (2 ^ n)%Z -> (2 <= length m)%nat ->
  R.for_loop (SV.single_step old m q) (upto (2 ^ n)) (replicate (Z.to_nat (2 ^ n)) ZERO)
  = inr (replicate (Z.to_nat (2 ^ n)) NaN_amplitude).
Proof.
  intros Hq Hn Hold Hm. set (D := Z.to_nat (2 ^ n)).
  assert (Hp : (0 < 2 ^ n)%Z) by (apply Z.pow_pos_nonneg; lia).
  destruct (for_loop_counted (SV.single_step old m q)
              (fun k v => length v = D
                          /\ forall j, (j < k)%nat -> v !! j = Some NaN_amplitude)
              D D 0 (replicate D ZERO)) as (r & Hr & Hlen & Hall).
  - lia.
  - split; [apply length_replicate | intros j Hj; lia].
  - intros i v Hi [Hlen Hall].
    destruct (single_step_writes_nan old v m n q (Z.of_nat i))
      as (x & y & -> & Hx & Hy & Hxy); try lia.
    eexists. split; [reflexivity |].
    rewrite Nat2Z.id in Hxy. now apply nan_below_step.
  - unfold upto. fold D. rewrite Hr. f_equal. now apply all_nan_replicate.
Qed.

(** X15: on a state vector of 1 to 15 qubits with one amplitude per basis
    state, [applySingleQubitGate] with a valid qubit index and any
    single-qubit gate whose matrix has its two rows returns normally and
    leaves NaN in both components of every amplitude, whatever the state and
    the matrix are. *)
Theorem applySingleQubitGate_leaves_nan
    (gate : QuantumGate) (qubitIndex : Z) (sv : StateVector) :
  well_formed sv ->
  numQubits gate = 1%Z ->
  (2 <= length (matrix gate))%nat ->
  (0 <= qubitIndex < _numQubits sv)%Z ->
  SV.applySingleQubitGate gate qubitIndex sv
  = (inr tt, {| _numQubits := _numQubits sv;
                _stateVector := replicate (Z.to_nat (2 ^ _numQubits sv)) NaN_amplitude |}).
Proof.
  intros [Hn Hlen] Hg Hm Hq.
  unfold SV.applySingleQubitGate, SV.replace_with, SV.dimension.
  rewrite Hg. cbn [Z.eqb Pos.eqb negb].
  destruct ((qubitIndex <? 0)%Z || (_numQubits sv <=? qubitIndex)%Z) eqn:E.
  { apply orb_true_iff in E. destruct E as [E | E]; [apply Z.ltb_lt in E | apply Z.leb_le in E]; lia. }
  rewrite (shl_one _ Hn). unfold Array_fill.
  assert (Hp : (0 < 2 ^ _numQubits sv)%Z) by (apply Z.pow_pos_nonneg; lia).
  destruct (2 ^ _numQubits sv <? 0)%Z eqn:E2; [apply Z.ltb_lt in E2; lia |].
  cbn [R.bind].
  now rewrite (single_loop_all_nan (_stateVector sv) (matrix gate) (_numQubits sv) qubitIndex)
    by lia.
Qed.

Lemma applySingleQubitGate_leaves_nan_witness :
  SV.applySingleQubitGate X 1 {| _numQubits := 2; _stateVector := [ZERO; ONE; ZERO; ZERO] |}
  = (inr tt, {| _numQubits := 2;
                _stateVector := replicate (Z.to_nat (2 ^ 2)) NaN_amplitude |}).
Proof.
  apply (applySingleQubitGate_leaves_nan X 1
           {| _numQubits := 2; _stateVector := [ZERO; ONE; ZERO; ZERO] |}).
  - split; [cbn; lia | reflexivity].
  - reflexivity.
  - cbn. lia.
  - cbn. lia.
Defined.

Lemma shl_bit_of (o k : Z) :
  (0 <= o < 2 ^ 15)%Z -> (0 <= k < 15)%Z ->
  Int32.shl (bit_of o k) k = Z.shiftl (Z.b2z (Z.testbit o k)) k.
Proof.
  intros Ho Hk.
  assert (Hpk : (0 < 2 ^ k <= 2 ^ 15)%Z) by (apply pow2_le_15; lia).
  rewrite bit_of_testbit by lia. unfold Int32.shl.
  replace (Z.land k 31) with k.
  2: { change 31%Z with (Z.ones 5). rewrite Z.land_ones by lia.
       rewrite Z.mod_small; [reflexivity | change (2 ^ 5)%Z with 32%Z; lia]. }
  destruct (Z.testbit o k); cbn [Z.b2z].
  - rewrite (wrap_small 1) by lia. rewrite Z.shiftl_1_l. apply wrap_small. lia.
  - rewrite (wrap_small 0) by lia. rewrite Z.shiftl_0_l. apply wrap_small. lia.
Qed.

Lemma shifted_bit_spec (b : bool) (k j : Z) :
  (0 <= k)%Z -> (0 <= j)%Z ->
  Z.testbit (Z.shiftl (Z.b2z b) k) j = (j =? k)%Z && b.
Proof.
  intros Hk Hj. rewrite Z.shiftl_spec by lia.
  destruct (Z.eqb_spec j k) as [-> | Hne].
  - rewrite Z.sub_diag. now destruct b.
  - destruct b; cbn [Z.b2z andb].
    + destruct (Z_lt_le_dec j k) as [Hlt | Hge]; [apply Z.testbit_neg_r; lia |].
      change 1%Z with (2 ^ 0)%Z. rewrite Z.pow2_bits_eqb by lia.
      apply Z.eqb_neq. lia.
    + apply Z.bits_0.
Qed.

(** The basis state [applyTwoQubitGate] writes to when the output state is
    the input state: the index it came from. *)
Lemma new_state_of_own_bits (n control target i : Z) :
  (0 <= control < n)%Z -> (0 <= target < n)%Z -> (n <= 15)%Z -> (0 <= i < 2 ^ n)%Z ->
  Int32.or
    (Int32.or
       (Int32.and i (Int32.not (Int32.or (Int32.shl 1 control) (Int32.shl 1 target))))
       (Int32.shl (bit_of i control) control))
    (Int32.shl (bit_of i target) target)
  = i.
Proof.
  intros Hc Ht Hn Hi.
  pose proof (pow2_le_15 n ltac:(lia)) as Hp.
  pose proof (shl_bit 1 control n ltac:(now right) Hc Hn) as Hsc.
  pose proof (shl_bit 1 target n ltac:(now right) Ht Hn) as Hst.
  pose proof (lor_in_range n _ _ ltac:(lia) Hsc Hst) as Hm.
  pose proof (and_not_in_range n i _ ltac:(lia) Hi Hm) as HA.
  pose proof (shl_bit (bit_of i control) control n (bit_of_binary i control) Hc Hn) as HB.
  pose proof (shl_bit (bit_of i target) target n (bit_of_binary i target) Ht Hn) as HC.
  pose proof (lor_in_range n _ _ ltac:(lia) HA HB) as HAB.
  assert (Em : Int32.or (Int32.shl 1 control) (Int32.shl 1 target)
               = Z.lor (2 ^ control) (2 ^ target)).
  { unfold Int32.or. rewrite !shl_one by lia.
    pose proof (pow2_le_15 control ltac:(lia)). pose proof (pow2_le_15 target ltac:(lia)).
    now rewrite !wrap_small by lia. }
  assert (EA : Int32.and i (Int32.not (Int32.or (Int32.shl 1 control) (Int32.shl 1 target)))
               = Z.land i (Z.lnot (Z.lor (2 ^ control) (2 ^ target)))).
  { rewrite Em in Hm |- *. unfold Int32.and, Int32.not.
    assert (Hnot : Z.lnot (Z.lor (2 ^ control) (2 ^ target))
                   = (- Z.lor (2 ^ control) (2 ^ target) - 1)%Z) by (unfold Z.lnot; lia).
    rewrite (wrap_small (Z.lor _ _)), (wrap_small i) by lia.
    now rewrite (wrap_small (Z.lnot _)) by lia. }
  unfold Int32.or at 1. rewrite !wrap_small by lia.
  unfold Int32.or at 1. rewrite !wrap_small by lia.
  rewrite EA, !shl_bit_of by lia.
  apply Z.bits_inj'. intros j Hj.
  rewrite !Z.lor_spec, Z.land_spec, Z.lnot_spec, Z.lor_spec, !Z.pow2_bits_eqb by lia.
  rewrite !shifted_bit_spec by lia.
  rewrite (Z.eqb_sym control j), (Z.eqb_sym target j).
  destruct (Z.eqb_spec j control) as [Ec | Hjc]; [rewrite <- Ec |];
    (destruct (Z.eqb_spec j target) as [Et | Hjt]; [rewrite <- Et |]);
    destruct (Z.testbit i j); reflexivity.
Qed.

Lemma state_index_of_bits (i control target : Z) :
  let stateIndex :=
    Int32.or (Int32.shl (bit_of i control) 1) (bit_of i target) in
  (0 <= stateIndex < 4)%Z
  /\ Int32.and (Int32.shr stateIndex 1) 1 = bit_of i control
  /\ Int32.and stateIndex 1 = bit_of i target.
Proof.
  destruct (bit_of_binary i control) as [-> | ->];
    destruct (bit_of_binary i target) as [-> | ->]; vm_compute; repeat split; congruence.
Qed.

(** The inner loop of [applyTwoQubitGate] writes NaN four times, once at
    the index [i] itself. *)
Lemma two_step_writes_nan (old v : list Complex) (m : ComplexMatrix)
    (n control target i : Z) (k : nat) :
  (0 <= control < n)%Z -> (0 <= target < n)%Z -> (n <= 15)%Z -> (0 <= i < 2 ^ n)%Z ->
  Z.of_nat (length old) = (2 ^ n)%Z -> Z.of_nat (length v) = (2 ^ n)%Z ->
  (4 <= length m)%nat ->
  (forall j, (j < k)%nat -> v !! j = Some NaN_amplitude) ->
  exists v',
    SV.two_step old m control target i v = inr v'
    /\ length v' = length v
    /\ (forall j, (j < k)%nat -> v' !! j = Some NaN_amplitude)
    /\ v' !! Z.to_nat i = Some NaN_amplitude.
Proof.
  intros Hc Ht Hn Hi Hold Hv Hm Hall.
  unfold SV.two_step.
  change (Int32.and (Int32.shr i control) 1) with (bit_of i control).
  change (Int32.and (Int32.shr i target) 1) with (bit_of i target).
  destruct (state_index_of_bits i control target) as (Hs & Hcb & Htb).
  set (stateIndex := Int32.or (Int32.shl (bit_of i control) 1) (bit_of i target)) in *.
  destruct (at_in_range old i ltac:(lia)) as (s_i & Hsi & _).
  destruct (for_loop_counted (SV.two_inner old m control target i stateIndex)
              (fun c w => length w = length v
                          /\ (forall j, (j < k)%nat -> w !! j = Some NaN_amplitude)
                          /\ ((Z.to_nat stateIndex < c)%nat ->
                              w !! Z.to_nat i = Some NaN_amplitude))
              4 4 0 v) as (r & Hr & Hlen & Hkeep & Hown).
  - reflexivity.
  - split; [reflexivity | split; [exact Hall | intros; lia]].
  - intros j w Hj (Hlen & Hkeep & Hown).
    pose proof (new_state_in_range n control target i (Z.of_nat j) Hc Ht Hn Hi) as Hrange.
    cbv zeta in Hrange.
    assert (Hin : In (Z.of_nat j) (upto 4)).
    { unfold upto. apply in_map_iff. exists j. split; [reflexivity |]. apply in_seq.
      change (Z.to_nat 4) with 4%nat. lia. }
    specialize (Hrange Hin).
    unfold SV.two_inner.
    set (newState :=
           Int32.or
             (Int32.or
                (Int32.and i (Int32.not (Int32.or (Int32.shl 1 control)
                                                  (Int32.shl 1 target))))
                (Int32.shl (Int32.and (Int32.shr (Z.of_nat j) 1) 1) control))
             (Int32.shl (Int32.and (Z.of_nat j) 1) target)) in *.
    destruct (at_in_range w newState ltac:(lia)) as (n_s & -> & _). cbn [R.bind].
    rewrite Hsi. cbn [R.bind].
    destruct (entry_value_runs m stateIndex (Z.of_nat j) ltac:(lia)) as (m_sj & Em).
    rewrite Em. cbn [R.bind].
    rewrite (entry_value_scales_to_nan m stateIndex (Z.of_nat j) m_sj s_i Em).
    rewrite add_nan_amplitude. unfold set_at.
    eexists. split; [reflexivity |].
    split; [now rewrite length_insert |].
    split; [intros x Hx; now apply nan_stays, Hkeep |].
    intros Hlt. destruct (Nat.eq_dec j (Z.to_nat stateIndex)) as [Ej | Hne].
    + assert (EnS : newState = i).
      { subst newState. replace (Z.of_nat j) with stateIndex by lia.
        rewrite Hcb, Htb. now apply (new_state_of_own_bits n). }
      rewrite EnS. apply nan_written. lia.
    + apply nan_stays, Hown. lia.
  - exists r. split; [exact Hr |]. split; [exact Hlen |]. split; [exact Hkeep |].
    apply Hown. lia.
Qed.

Lemma two_loop_all_nan (old : list Complex) (m : ComplexMatrix) (n control target : Z) :
  (0 <= control < n)%Z -> (0 <= target < n)%Z -> (n <= 15)%Z ->
  Z.of_nat (length old) = (2 ^ n)%Z -> (4 <= length m)%nat ->
  R.for_loop (SV.two_step old m control target) (upto (2 ^ n))
    (replicate (Z.to_nat (2 ^ n)) ZERO)
  = inr (replicate (Z.to_nat (2 ^ n)) NaN_amplitude).
Proof.
  intros Hc Ht Hn Hold Hm. set (D := Z.to_nat (2 ^ n)).
  assert (Hp : (0 < 2 ^ n)%Z) by (apply Z.pow_pos_nonneg; lia).
  destruct (for_loop_counted (SV.two_step old m control target)
              (fun k v => length v = D
                          /\ forall j, (j < k)%nat -> v !! j = Some NaN_amplitude)
              D D 0 (replicate D ZERO)) as (r & Hr & Hlen & Hall).
  - lia.
  - split; [apply length_replicate | intros j Hj; lia].
  - intros i v Hi [Hlen Hall].
    destruct (two_step_writes_nan old v m n control target (Z.of_nat i) i)
      as (v' & -> & Hlen' & Hkeep & Hown); try lia; [exact Hall |].
    exists v'. split; [reflexivity |]. split; [lia |].
    intros j Hj. destruct (Nat.eq_dec j i) as [-> | Hne].
    + now rewrite Nat2Z.id in Hown.
    + apply Hkeep. lia.
  - unfold upto. fold D. rewrite Hr. f_equal. now apply all_nan_replicate.
Qed.

(** X16: on a state vector of at most 15 qubits with one amplitude per
    basis state, [applyTwoQubitGate] with two different valid qubit indices
    and any two-qubit gate whose matrix has its four rows returns normally
    and leaves NaN in both components of every amplitude, whatever the state
    and the matrix are. *)
Theorem applyTwoQubitGate_leaves_nan
    (gate : QuantumGate) (q1 q2 : Z) (sv : StateVector) :
  well_formed sv ->
  numQubits gate = 2%Z ->
  (4 <= length (matrix gate))%nat ->
  (0 <= q1 < _numQubits sv)%Z -> (0 <= q2 < _numQubits sv)%Z -> q1 <> q2 ->
  SV.applyTwoQubitGate gate (Int q1, Int q2) sv
  = (inr tt, {| _numQubits := _numQubits sv;
                _stateVector := replicate (Z.to_nat (2 ^ _numQubits sv)) NaN_amplitude |}).
Proof.
  intros [Hn Hlen] Hg Hm H1 H2 Hne.
  unfold SV.applyTwoQubitGate, SV.replace_with, SV.dimension.
  rewrite Hg. cbn [Z.eqb Pos.eqb negb].
  rewrite !ltb_Int, !geb_Int, eqb_Int.
  destruct ((q1 <? 0)%Z || (_numQubits sv <=? q1)%Z || (q2 <? 0)%Z
            || (_numQubits sv <=? q2)%Z) eqn:E.
  { repeat (apply orb_true_iff in E; destruct E as [E | E]);
      first [apply Z.ltb_lt in E | apply Z.leb_le in E]; lia. }
  destruct (q1 =? q2)%Z eqn:Eq; [apply Z.eqb_eq in Eq; lia |].
  rewrite (shl_one _ Hn). unfold Array_fill.
  assert (Hp : (0 < 2 ^ _numQubits sv)%Z) by (apply Z.pow_pos_nonneg; lia).
  destruct (2 ^ _numQubits sv <? 0)%Z eqn:E2; [apply Z.ltb_lt in E2; lia |].
  destruct (q1 <? q2)%Z; cbn [R.bind]; rewrite !ToInt32_Int, !wrap_small by lia;
    now rewrite (two_loop_all_nan (_stateVector sv) (matrix gate) (_numQubits sv)) by lia.
Qed.

Lemma applyTwoQubitGate_leaves_nan_witness :
  SV.applyTwoQubitGate CNOT (Int 1, Int 0)
    {| _numQubits := 2; _stateVector := [ZERO; ONE; ZERO; ZERO] |}
  = (inr tt, {| _numQubits := 2;
                _stateVector := replicate (Z.to_nat (2 ^ 2)) NaN_amplitude |}).
Proof.
  apply (applyTwoQubitGate_leaves_nan CNOT 1 0
           {| _numQubits := 2; _stateVector := [ZERO; ONE; ZERO; ZERO] |}).
  - split; [cbn; lia | reflexivity].
  - reflexivity.
  - cbn. lia.
  - cbn. lia.
  - cbn. lia.
  - lia.
Defined.

(** *** The sum of the squared magnitudes after a gate *)

Lemma norm_step_nan_acc (v : list Complex) :
  foldl (fun norm amplitude => norm + Num.sq (magnitude amplitude)) nan v = nan.
Proof.
  induction v as [|a v IH]; [reflexivity |].
  cbn [foldl]. now rewrite FloatAlgebra.add_nan_l.
Qed.

Lemma norm_of_nan (v : list Complex) : Exists has_nan v -> SV.norm_of v = nan.
Proof.
  unfold SV.norm_of. generalize 0%float as acc.
  induction v as [|a v IH]; intros acc Hex; [inversion Hex |].
  cbn [foldl]. apply Exists_cons in Hex. destruct Hex as [Ha | Hv].
  - rewrite (magnitude_nan a Ha). unfold Num.sq.
    rewrite FloatFacts.mul_nan_l, FloatAlgebra.add_nan_r. apply norm_step_nan_acc.
  - now apply IH.
Qed.

Lemma norm_of_all_nan (n : Z) :
  (0 <= n)%Z -> SV.norm_of (replicate (Z.to_nat (2 ^ n)) NaN_amplitude) = nan.
Proof.
  intros Hn. apply norm_of_nan.
  assert (Hp : (0 < 2 ^ n)%Z) by (apply Z.pow_pos_nonneg; lia).
  destruct (Z.to_nat (2 ^ n)) as [|k] eqn:E; [lia |].
  cbn [replicate]. apply Exists_cons. left. now left.
Qed.

(** C2 on the code: the squared magnitudes do not sum to 1 after every
    operation.  On a state vector of 1 to 15 qubits with one amplitude per
    basis state, every single-qubit gate whose matrix has its two rows, at
    a valid index, and every two-qubit gate whose matrix has its four rows,
    on two different valid indices, returns normally and leaves a state
    whose squared magnitudes sum to NaN, which is not within 1e-9 of 1: the
    matrix entries reach [scale] as objects.  In the same way CZ, when the
    control's probability of one is positive, leaves a target qubit whose
    two probabilities sum to NaN.  The Hadamard gate on a new one-qubit
    state vector is an instance. *)
Theorem gates_break_normalization :
  (forall (gate : QuantumGate) (qubitIndex : Z) (sv : StateVector),
      well_formed sv ->
      numQubits gate = 1%Z ->
      (2 <= length (matrix gate))%nat ->
      (0 <= qubitIndex < _numQubits sv)%Z ->
      exists sv',
        SV.applySingleQubitGate gate qubitIndex sv = (inr tt, sv')
        /\ SV.norm_of (_stateVector sv') = nan
        /\ near_one (SV.norm_of (_stateVector sv')) = false)
  /\ (forall (gate : QuantumGate) (q1 q2 : Z) (sv : StateVector),
      well_formed sv ->
      numQubits gate = 2%Z ->
      (4 <= length (matrix gate))%nat ->
      (0 <= q1 < _numQubits sv)%Z -> (0 <= q2 < _numQubits sv)%Z -> q1 <> q2 ->
      exists sv',
        SV.applyTwoQubitGate gate (Int q1, Int q2) sv = (inr tt, sv')
        /\ SV.norm_of (_stateVector sv') = nan
        /\ near_one (SV.norm_of (_stateVector sv')) = false)
  /\ (forall (st : list Qubit) (control target : nat) (c t : Qubit),
      st !! control = Some c ->
      st !! target = Some t ->
      (0 <? QubitOps.probabilityOne c) = true ->
      exists (st' : list Qubit) (t' : Qubit),
        apply CZ [Some control; Some target] st = (inr tt, st')
        /\ st' !! target = Some t'
        /\ total_probability t' = nan
        /\ near_one (total_probability t') = false)
  /\ (let sv := {| _numQubits := 1; _stateVector := [ONE; ZERO] |} in
      let sv' := {| _numQubits := 1; _stateVector := [NaN_amplitude; NaN_amplitude] |} in
      SV.new 1 = inr sv
      /\ SV.applySingleQubitGate H 0 sv = (inr tt, sv')
      /\ SV.norm_of (_stateVector sv') = nan
      /\ near_one (SV.norm_of (_stateVector sv')) = false).
Proof.
  split; [| split; [| split]].
  - intros gate qubitIndex sv [Hn Hlen] Hg Hm Hq.
    exists {| _numQubits := _numQubits sv;
              _stateVector := replicate (Z.to_nat (2 ^ _numQubits sv)) NaN_amplitude |}.
    cbn [_stateVector]. rewrite norm_of_all_nan by lia.
    split; [| split; reflexivity].
    unfold SV.applySingleQubitGate, SV.replace_with, SV.dimension.
    rewrite Hg. cbn [Z.eqb Pos.eqb negb].
    destruct (Z.ltb_spec qubitIndex 0); [lia |].
    destruct (Z.leb_spec (_numQubits sv) qubitIndex); [lia |]. cbn [orb].
    rewrite (shl_one _ Hn). unfold Array_fill.
    assert (Hp : (0 < 2 ^ _numQubits sv)%Z) by (apply Z.pow_pos_nonneg; lia).
    destruct (Z.ltb_spec (2 ^ _numQubits sv) 0); [lia |].
    cbn [R.bind].
    now rewrite (single_loop_all_nan (_stateVector sv) (matrix gate) (_numQubits sv)
                   qubitIndex) by lia.
  - intros gate q1 q2 sv [Hn Hlen] Hg Hm H1 H2 Hne.
    exists {| _numQubits := _numQubits sv;
              _stateVector := replicate (Z.to_nat (2 ^ _numQubits sv)) NaN_amplitude |}.
    cbn [_stateVector]. rewrite norm_of_all_nan by lia.
    split; [| split; reflexivity].
    unfold SV.applyTwoQubitGate, SV.replace_with, SV.dimension.
    rewrite Hg. cbn [Z.eqb Pos.eqb negb].
    rewrite !ltb_Int, !geb_Int, eqb_Int.
    destruct (Z.ltb_spec q1 0); [lia |].
    destruct (Z.leb_spec (_numQubits sv) q1); [lia |].
    destruct (Z.ltb_spec q2 0); [lia |].
    destruct (Z.leb_spec (_numQubits sv) q2); [lia |]. cbn [orb].
    destruct (Z.eqb_spec q1 q2); [lia |].
    rewrite (shl_one _ Hn). unfold Array_fill.
    assert (Hp : (0 < 2 ^ _numQubits sv)%Z) by (apply Z.pow_pos_nonneg; lia).
    destruct (Z.ltb_spec (2 ^ _numQubits sv) 0); [lia |].
    destruct (q1 <? q2)%Z; cbn [R.bind]; rewrite !ToInt32_Int, !wrap_small by lia;
      now rewrite (two_loop_all_nan (_stateVector sv) (matrix gate) (_numQubits sv)) by lia.
  - intros st control target c t Hc Ht Hp.
    exists (<[target := mkQubit (alpha t) NaN_amplitude]> st),
           (mkQubit (alpha t) NaN_amplitude).
    assert (Hsum : total_probability (mkQubit (alpha t) NaN_amplitude) = nan).
    { unfold total_probability, QubitOps.probabilityOne. cbn [beta].
      change (Num.sq (magnitude NaN_amplitude)) with nan.
      apply FloatAlgebra.add_nan_r. }
    rewrite Hsum. split; [| split; [| split; reflexivity]].
    + cbn [apply CZ CZGate]. unfold CZGate_apply.
      cbn [length Nat.eqb negb arg lookup list_lookup].
      unfold M.bind, deref, call_setState, Store. rewrite Hc, Hp, Ht.
      cbn beta iota. rewrite Ht.
      rewrite scale_by_object. unfold QubitOps.setState.
      rewrite normalize_keeps_nan; [reflexivity |]. right. left. reflexivity.
    + apply list_lookup_insert_eq. now apply lookup_lt_Some in Ht.
  - repeat split.
Qed.

(** *** [setState] and [getProbability] of the state vector *)

(** X17: the normalization check of [setState] lets NaN through: a vector
    of the right length with NaN in a component of any amplitude is accepted
    and becomes the state, although the sum of its squared magnitudes is NaN
    and not 1. *)
Theorem state_vector_setState_accepts_nan (stateVector : list Complex) (sv : StateVector) :
  Z.of_nat (length stateVector) = SV.dimension sv ->
  Exists has_nan stateVector ->
  SV.norm_of stateVector = nan
  /\ SV.setState stateVector sv
     = (inr tt, {| _numQubits := _numQubits sv; _stateVector := stateVector |}).
Proof.
  intros Hlen Hnan. pose proof (norm_of_nan stateVector Hnan) as Hnorm.
  split; [exact Hnorm |].
  unfold SV.setState, SV.replace_with. rewrite Hlen, Z.eqb_refl. cbn [negb].
  rewrite Hnorm. reflexivity.
Qed.

Lemma state_vector_setState_accepts_nan_witness :
  SV.norm_of [complex 0x1p1 0; complex 0 nan] = nan
  /\ SV.setState [complex 0x1p1 0; complex 0 nan]
       {| _numQubits := 1; _stateVector := [ONE; ZERO] |}
     = (inr tt, {| _numQubits := 1; _stateVector := [complex 0x1p1 0; complex 0 nan] |}).
Proof.
  apply (state_vector_setState_accepts_nan [complex 0x1p1 0; complex 0 nan]
           {| _numQubits := 1; _stateVector := [ONE; ZERO] |}).
  - reflexivity.
  - right. left. now right.
Defined.

Lemma index_loop_rejects (basisState : list Z) (len k : nat) (index : Z) :
  (k + len = length basisState)%nat ->
  Exists (fun b => ~ binary b) (drop k basisState) ->
  SV.index_loop basisState (Z.of_nat <$> seq k len) index = inl ErrNotBinary.
Proof.
  revert k index. induction len as [|len IH]; intros k index Hk Hex.
  - rewrite drop_ge in Hex by lia. inversion Hex.
  - cbn [seq fmap list_fmap SV.index_loop].
    destruct (Z.of_nat k <? 0)%Z eqn:E; [apply Z.ltb_lt in E; lia |].
    rewrite Nat2Z.id.
    destruct (basisState !! k) as [b|] eqn:Hb; [| reflexivity].
    rewrite (drop_S basisState b k Hb) in Hex. apply Exists_cons in Hex.
    destruct (negb (b =? 0)%Z && negb (b =? 1)%Z) eqn:Eb; [reflexivity |].
    destruct Hex as [Hnb | Hrest].
    + exfalso. apply Hnb. unfold binary.
      apply andb_false_iff in Eb. destruct Eb as [Eb | Eb];
        apply negb_false_iff, Z.eqb_eq in Eb; auto.
    + apply IH; [lia | exact Hrest].
Qed.

Lemma index_loop_accepts (basisState : list Z) (n : Z) (len k : nat) (index : Z) :
  (n <= 15)%Z -> (k + len = length basisState)%nat -> Z.of_nat (length basisState) = n ->
  Forall binary basisState ->
  (0 <= index < 2 ^ Z.of_nat k)%Z ->
  exists index', SV.index_loop basisState (Z.of_nat <$> seq k len) index = inr index'
                 /\ (0 <= index' < 2 ^ n)%Z.
Proof.
  intros Hn Hk Hlen Hbin. revert k index Hk.
  induction len as [|len IH]; intros k index Hk Hidx.
  - exists index. split; [reflexivity |]. now replace n with (Z.of_nat k) by lia.
  - cbn [seq fmap list_fmap SV.index_loop].
    destruct (Z.of_nat k <? 0)%Z eqn:E; [apply Z.ltb_lt in E; lia |].
    rewrite Nat2Z.id.
    destruct (basisState !! k) as [b|] eqn:Hb.
    2: { apply lookup_ge_None in Hb. lia. }
    assert (Hbb : binary b) by (eapply Forall_lookup_1; eassumption).
    assert (Eb : negb (b =? 0)%Z && negb (b =? 1)%Z = false)
      by (destruct Hbb as [-> | ->]; reflexivity).
    rewrite Eb. apply IH; [lia |].
    replace (Z.of_nat (S k)) with (Z.of_nat k + 1)%Z by lia.
    assert (Hlt : (2 ^ Z.of_nat k < 2 ^ (Z.of_nat k + 1))%Z)
      by (apply Z.pow_lt_mono_r; lia).
    apply lor_in_range; [lia | lia |].
    apply shl_bit; [exact Hbb | lia | lia].
Qed.

(** X18: what [getProbability] answers.  A basis state of the wrong length
    is refused; one of the right length with an entry that is neither 0 nor 1
    is refused; and on a state vector of at most 15 qubits with one amplitude
    per basis state every list of 0s and 1s of the right length gets a
    probability, which is not negative. *)
Theorem getProbability_answers (basisState : list Z) (sv : StateVector) :
  (Z.of_nat (length basisState) <> _numQubits sv ->
   SV.getProbability basisState sv = inl (ErrBasisLength (_numQubits sv)))
  /\ (Z.of_nat (length basisState) = _numQubits sv ->
      Exists (fun b => ~ binary b) basisState ->
      SV.getProbability basisState sv = inl ErrNotBinary)
  /\ (Z.of_nat (length basisState) = _numQubits sv ->
      Forall binary basisState ->
      well_formed sv ->
      exists p, SV.getProbability basisState sv = inr p /\ (p <? 0) = false).
Proof.
  unfold SV.getProbability. split; [| split].
  - intros Hne. apply Z.eqb_neq in Hne. now rewrite Hne.
  - intros Hlen Hex. rewrite Hlen, Z.eqb_refl. cbn [negb].
    unfold upto. rewrite <- Hlen, Nat2Z.id.
    now rewrite (index_loop_rejects basisState (length basisState) 0 0 eq_refl Hex).
  - intros Hlen Hbin [Hn Hv]. rewrite Hlen, Z.eqb_refl. cbn [negb].
    destruct (index_loop_accepts basisState (_numQubits sv) (length basisState) 0 0)
      as (index & Hidx & Hrange); try lia; try assumption.
    unfold upto. replace (Z.to_nat (_numQubits sv)) with (length basisState) by lia.
    rewrite Hidx.
    destruct (at_in_range (_stateVector sv) index ltac:(lia)) as (a & -> & _).
    eexists. split; [reflexivity |]. apply FloatAlgebra.sq_not_negative.
Qed.

Lemma getProbability_answers_witness :
  SV.getProbability [1%Z] {| _numQubits := 2; _stateVector := uniform2 |}
  = inl (ErrBasisLength 2)
  /\ SV.getProbability [1%Z; 2%Z] {| _numQubits := 2; _stateVector := uniform2 |}
     = inl ErrNotBinary
  /\ exists p, SV.getProbability [1%Z; 0%Z] {| _numQubits := 2; _stateVector := uniform2 |}
               = inr p /\ (p <? 0) = false.
Proof.
  split; [| split].
  - apply (getProbability_answers [1%Z] {| _numQubits := 2; _stateVector := uniform2 |}).
    cbn. lia.
  - apply (getProbability_answers [1%Z; 2%Z]
             {| _numQubits := 2; _stateVector := uniform2 |}); [reflexivity |].
    right. left. unfold binary. lia.
  - apply (getProbability_answers [1%Z; 0%Z]
             {| _numQubits := 2; _stateVector := uniform2 |}); [reflexivity | |].
    + repeat constructor; unfold binary; lia.
    + split; [cbn; lia | reflexivity].
Defined.

(** *** [measure] on a basis state *)

Section BasisState.

Variables (n q : Z) (D O : nat).
Hypothesis Hn : (0 <= n <= 15)%Z.
Hypothesis Hq : (0 <= q < n)%Z.
Hypothesis HD : D = Z.to_nat (2 ^ n).
Hypothesis HO : (O < D)%nat.

Local Abbreviation basis := (<[O := ONE]> (replicate D ZERO)).

Lemma basis_length : Z.of_nat (length basis) = (2 ^ n)%Z.
Proof.
  rewrite length_insert, length_replicate, HD.
  assert (0 < 2 ^ n)%Z by (apply Z.pow_pos_nonneg; lia). lia.
Qed.

Lemma basis_at (i : nat) :
  (i < D)%nat ->
  at_ basis (Z.of_nat i) = inr (if Nat.eq_dec i O then ONE else ZERO)
  /\ basis !! i = Some (if Nat.eq_dec i O then ONE else ZERO).
Proof.
  intros Hi.
  assert (Hl : basis !! i = Some (if Nat.eq_dec i O then ONE else ZERO)).
  { destruct (Nat.eq_dec i O) as [-> | Hne].
    - apply list_lookup_insert_eq. now rewrite length_replicate.
    - rewrite list_lookup_insert_ne by lia. now apply lookup_replicate_2. }
  split; [| exact Hl]. unfold at_.
  destruct (Z.of_nat i <? 0)%Z eqn:E; [apply Z.ltb_lt in E; lia |].
  now rewrite Nat2Z.id, Hl.
Qed.

Lemma zeros_at (i : nat) : (i < D)%nat -> replicate D ZERO !! i = Some ZERO.
Proof. intros Hi. now apply lookup_replicate_2. Qed.

(** The first loop: the probability of one is exactly the measured bit. *)
Lemma basis_prob1 :
  R.for_loop (SV.prob1_step basis q) (upto (2 ^ n)) 0
  = inr (if (bit_of (Z.of_nat O) q =? 1)%Z then 1 else 0).
Proof.
  destruct (for_loop_counted (SV.prob1_step basis q)
              (fun k p => p = if (O <? k)%nat && (bit_of (Z.of_nat O) q =? 1)%Z
                              then 1 else 0)
              D D 0 0) as (r & Hr & ->).
  - lia.
  - reflexivity.
  - intros i p Hi ->. unfold SV.prob1_step.
    change (Int32.and (Int32.shr (Z.of_nat i) q) 1) with (bit_of (Z.of_nat i) q).
    destruct (basis_at i Hi) as [Hat _].
    destruct (Nat.eq_dec i O) as [-> | Hne].
    + rewrite Nat.ltb_irrefl. cbn [andb].
      replace (O <? S O)%nat with true by (symmetry; apply Nat.ltb_lt; lia).
      cbn [andb]. destruct (bit_of (Z.of_nat O) q =? 1)%Z.
      * rewrite Hat. cbn [R.bind]. eexists. split; reflexivity.
      * eexists. split; reflexivity.
    + replace (O <? S i)%nat with (O <? i)%nat.
      2: { destruct (O <? i)%nat eqn:E1; symmetry;
             [apply Nat.ltb_lt in E1; apply Nat.ltb_lt | apply Nat.ltb_ge in E1; apply Nat.ltb_ge];
             lia. }
      destruct (bit_of (Z.of_nat i) q =? 1)%Z.
      * rewrite Hat. cbn [R.bind]. eexists. split; [reflexivity |].
        destruct ((O <? i)%nat && (bit_of (Z.of_nat O) q =? 1)%Z); reflexivity.
      * eexists. split; reflexivity.
  - unfold upto. rewrite <- HD, Hr. f_equal.
    replace (O <? D)%nat with true by (symmetry; apply Nat.ltb_lt; lia). reflexivity.
Qed.

(** The second loop keeps the basis state and sums its squared magnitudes
    to 1. *)
Lemma basis_collapse :
  R.for_loop (SV.collapse_step basis q (bit_of (Z.of_nat O) q)) (upto (2 ^ n))
    (replicate D ZERO, 0)
  = inr (basis, 1).
Proof.
  destruct (for_loop_counted (SV.collapse_step basis q (bit_of (Z.of_nat O) q))
              (fun k acc => acc = if (O <? k)%nat then (basis, 1) else (replicate D ZERO, 0))
              D D 0 (replicate D ZERO, 0)) as (r & Hr & ->).
  - lia.
  - reflexivity.
  - intros i acc Hi ->. unfold SV.collapse_step.
    change (Int32.and (Int32.shr (Z.of_nat i) q) 1) with (bit_of (Z.of_nat i) q).
    destruct (basis_at i Hi) as [Hat Hl].
    destruct (Nat.eq_dec i O) as [-> | Hne].
    + rewrite Nat.ltb_irrefl, Z.eqb_refl, Hat. cbn [R.bind].
      replace (O <? S O)%nat with true by (symmetry; apply Nat.ltb_lt; lia).
      eexists. split; [| reflexivity]. unfold set_at. now rewrite Nat2Z.id.
    + replace (O <? S i)%nat with (O <? i)%nat.
      2: { destruct (O <? i)%nat eqn:E1; symmetry;
             [apply Nat.ltb_lt in E1; apply Nat.ltb_lt | apply Nat.ltb_ge in E1; apply Nat.ltb_ge];
             lia. }
      destruct (O <? i)%nat;
        (destruct (bit_of (Z.of_nat i) q =? bit_of (Z.of_nat O) q)%Z;
         [| eexists; split; reflexivity]);
        rewrite Hat; cbn [R.bind]; unfold set_at; rewrite Nat2Z.id;
        eexists; (split; [reflexivity |]); f_equal.
      * now apply list_insert_id.
      * apply list_insert_id. now apply zeros_at.
  - unfold upto. rewrite <- HD, Hr. f_equal.
    replace (O <? D)%nat with true by (symmetry; apply Nat.ltb_lt; lia). reflexivity.
Qed.

(** The third loop divides by 1 and changes nothing. *)
Lemma basis_rescale :
  R.for_loop (SV.rescale_step (Num.Math_sqrt 1)) (upto (2 ^ n)) basis = inr basis.
Proof.
  destruct (for_loop_counted (SV.rescale_step (Num.Math_sqrt 1))
              (fun k w => w = basis) D D 0 basis) as (r & Hr & ->).
  - lia.
  - reflexivity.
  - intros i w Hi ->. unfold SV.rescale_step.
    destruct (basis_at i Hi) as [Hat Hl]. rewrite Hat. cbn [R.bind].
    eexists. split; [reflexivity |]. unfold set_at. rewrite Nat2Z.id.
    apply list_insert_id. rewrite Hl. f_equal.
    destruct (Nat.eq_dec i O); reflexivity.
  - unfold upto. now rewrite <- HD, Hr.
Qed.

Lemma basis_measure (random : float) :
  is_draw random ->
  SV.measure q random {| _numQubits := n; _stateVector := basis |}
  = (inr (bit_of (Z.of_nat O) q), {| _numQubits := n; _stateVector := basis |}).
Proof.
  intros [H0 H1].
  assert (Hp : (0 < 2 ^ n)%Z) by (apply Z.pow_pos_nonneg; lia).
  assert (Hres : (if random <? (if (bit_of (Z.of_nat O) q =? 1)%Z then 1 else 0)
                  then 1%Z else 0%Z) = bit_of (Z.of_nat O) q).
  { destruct (bit_of_binary (Z.of_nat O) q) as [-> | ->]; cbn [Z.eqb Pos.eqb].
    - now rewrite (FloatFacts.not_below_zero random H0).
    - now rewrite H1. }
  rewrite <- Hres at 1.
  apply (measure_runs q random {| _numQubits := n; _stateVector := basis |}
           _ (replicate D ZERO) basis basis 1);
    unfold SV.dimension; cbn [_numQubits _stateVector]; rewrite ?(shl_one n Hn).
  - apply orb_false_iff. split; [apply Z.ltb_ge | apply Z.leb_gt]; lia.
  - apply basis_prob1.
  - unfold Array_fill. destruct (2 ^ n <? 0)%Z eqn:E; [apply Z.ltb_lt in E; lia |].
    now rewrite HD.
  - rewrite Hres. apply basis_collapse.
  - apply basis_rescale.
Qed.

End BasisState.

(** X19: after [measureAll], [measure] of any qubit returns the bit
    [measureAll] reported for it and leaves the state as it is, for every
    draw in [0, 1). *)
Theorem measure_after_measureAll
    (sv : StateVector) (qubitIndex : Z) (random random' : float) :
  well_formed sv ->
  (0 <= qubitIndex < _numQubits sv)%Z ->
  is_draw random' ->
  exists bits sv' b,
    SV.measureAll random sv = (inr bits, sv')
    /\ bits !! Z.to_nat qubitIndex = Some b
    /\ SV.measure qubitIndex random' sv' = (inr b, sv').
Proof.
  intros Hwf Hq Hdraw. pose proof Hwf as [Hn Hlen].
  destruct (measureAll_runs random sv Hwf) as [Ho Hrun].
  set (o := SV.sample random (probability_of <$> _stateVector sv) 0 0) in *.
  eexists _, _, (bit_of o qubitIndex). split; [exact Hrun | split].
  - unfold upto. rewrite <- list_fmap_compose, list_lookup_fmap.
    rewrite lookup_seq_lt by lia. cbn. now rewrite Z2Nat.id by lia.
  - rewrite <- (Z2Nat.id o) at 2 by lia.
    apply (basis_measure (_numQubits sv) qubitIndex _ (Z.to_nat o) Hn Hq eq_refl);
      [lia | exact Hdraw].
Qed.

Lemma measure_after_measureAll_witness :
  exists bits sv' b,
    SV.measureAll 0x1.8p-1 {| _numQubits := 2; _stateVector := uniform2 |} = (inr bits, sv')
    /\ bits !! Z.to_nat 1 = Some b
    /\ SV.measure 1 0x1p-2 sv' = (inr b, sv').
Proof.
  apply (measure_after_measureAll
           {| _numQubits := 2; _stateVector := uniform2 |} 1 0x1.8p-1 0x1p-2).
  - split; [cbn; lia | reflexivity].
  - cbn. lia.
  - split; reflexivity.
Defined.

(** *** The encodings *)

Lemma recorded_on_nil (c : QuantumCircuit) : recorded_on c [] = c.
Proof. destruct c. unfold recorded_on. cbn. now rewrite app_nil_r. Qed.

Lemma recorded_on_app (c : QuantumCircuit) (ops ops' : list Operation) :
  recorded_on (recorded_on c ops) ops' = recorded_on c (ops ++ ops').
Proof. unfold recorded_on. cbn. now rewrite app_assoc. Qed.

Lemma with_literals_nil (w : World) : with_literals [] w = w.
Proof.
  destruct w as [arrays c]. unfold with_literals. cbn [fst snd fmap list_fmap imap].
  now rewrite app_nil_r, recorded_on_nil.
Qed.

Lemma with_literals_app (calls calls' : list Call) (w : World) :
  with_literals calls' (with_literals calls w) = with_literals (calls ++ calls') w.
Proof.
  unfold with_literals. cbn [fst snd]. f_equal.
  - now rewrite fmap_app, app_assoc.
  - rewrite recorded_on_app. f_equal. rewrite imap_app. f_equal.
    apply imap_ext. intros k call _. cbn. f_equal.
    rewrite length_app, length_fmap. lia.
Qed.

(** The indices a circuit accepts depend on its number of qubits only. *)
Lemma valid_index_with_literals (calls : list Call) (w : World) (q : number) :
  valid_index (snd (with_literals calls w)) q <-> valid_index (snd w) q.
Proof. reflexivity. Qed.

Lemma literal_lookup (arrays : Arrays) (q : number) :
  (arrays ++ [[q]]) !! length arrays = Some [q].
Proof. now rewrite lookup_app_r, Nat.sub_diag by lia. Qed.

Lemma addGate_literal_valid (g : QuantumGate) (q : number) (w : World) :
  numQubits g = 1%Z -> valid_index (snd w) q ->
  addGate_literal g q w = (inr tt, with_literals [(g, q)] w).
Proof.
  intros Hg Hq. unfold addGate_literal, engine, Circuit.addGate.
  rewrite literal_lookup, Hg.
  change (Z.of_nat (length [q]) =? 1)%Z with true. cbn [negb]. unfold M.bind.
  rewrite (check_indices_pass (snd w) (snd w) [q]) by (constructor; [exact Hq | constructor]).
  unfold with_literals, recorded_on. cbn [fst snd fmap list_fmap imap].
  now rewrite Nat.add_0_r.
Qed.

Lemma addGate_literal_invalid (g : QuantumGate) (q : number) (w : World) :
  numQubits g = 1%Z -> ~ valid_index (snd w) q ->
  addGate_literal g q w
  = (inl (Thrown (ErrInvalidQubitIndex q)), (fst w ++ [[q]], snd w)).
Proof.
  intros Hg Hq. unfold addGate_literal, engine, Circuit.addGate.
  rewrite literal_lookup, Hg.
  change (Z.of_nat (length [q]) =? 1)%Z with true. cbn [negb]. unfold M.bind.
  pose proof (check_indices_fail (snd w) (snd w) [] q [] (Forall_nil_2 _) Hq) as E.
  cbn [app] in E. now rewrite E.
Qed.

(** A loop that records one single-qubit gate per element. *)
Lemma record_each {A} (G : A -> QuantumGate) (Q : A -> number) (xs : list A)
    (w : World) :
  (forall x, numQubits (G x) = 1%Z) ->
  Forall (fun x => valid_index (snd w) (Q x)) xs ->
  encode_each (fun x => addGate_literal (G x) (Q x)) xs w
  = (inr tt, with_literals ((fun x => (G x, Q x)) <$> xs) w).
Proof.
  intros HG. revert w. induction xs as [|x xs IH]; intros w Hall.
  - cbn. now rewrite with_literals_nil.
  - cbn [encode_each].
    rewrite (addGate_literal_valid (G x) (Q x) w (HG x) (Forall_inv Hall)).
    rewrite IH by exact (Forall_inv_tail Hall).
    now rewrite with_literals_app.
Qed.

(** The same loop when an element is refused: what came before it stays
    recorded, and the array made for the refused call is left behind. *)
Lemma record_each_invalid {A} (G : A -> QuantumGate) (Q : A -> number) (good : list A)
    (bad : A) (rest : list A) (w : World) :
  (forall x, numQubits (G x) = 1%Z) ->
  Forall (fun x => valid_index (snd w) (Q x)) good ->
  ~ valid_index (snd w) (Q bad) ->
  encode_each (fun x => addGate_literal (G x) (Q x)) (good ++ bad :: rest) w
  = (inl (Thrown (ErrInvalidQubitIndex (Q bad))),
     (fst (with_literals ((fun x => (G x, Q x)) <$> good) w) ++ [[Q bad]],
      snd (with_literals ((fun x => (G x, Q x)) <$> good) w))).
Proof.
  intros HG. revert w. induction good as [|x xs IH]; intros w Hall Hbad.
  - cbn [app encode_each].
    rewrite (addGate_literal_invalid (G bad) (Q bad) w (HG bad) Hbad).
    cbn [fmap list_fmap]. now rewrite with_literals_nil.
  - cbn [app encode_each].
    rewrite (addGate_literal_valid (G x) (Q x) w (HG x) (Forall_inv Hall)).
    rewrite IH; [| exact (Forall_inv_tail Hall) | exact Hbad].
    cbn [fmap list_fmap]. now rewrite with_literals_app.
Qed.

Section Encodings.

Variables Math_cos Math_sin : float -> float.

Local Abbreviation RY := (RYGate Math_cos Math_sin).
Local Abbreviation RX := (RXGate Math_cos Math_sin).

(** X20: [angleEncoding] only records operations, each on a new one-element
    array.  With fewer qubits than data it throws and leaves the circuit as
    it was.  When every index passes the two comparisons of [addGate] (it is
    not below 0 and not at or above the number of qubits) it returns, the
    qubits are as they were and the operations grow by one Hadamard gate per
    index followed by one rotation about Y per data value, by the value
    times the scaling.  When an index fails one of the comparisons it throws
    after the Hadamard gates of the indices before it have been recorded.
    The comparisons do not ask for an integer: NaN passes them on every
    circuit and 0.5 on every circuit that has a qubit, and is recorded like
    an index that names a qubit. *)
Theorem angleEncoding_records
    (data : list float) (qubits : list number) (scaling : float) (w : World) :
  ((length qubits < length data)%nat ->
   angleEncoding Math_cos Math_sin data qubits scaling w
   = (inl (ErrNotEnoughQubits "angle"), w))
  /\ ((length data <= length qubits)%nat ->
      Forall (valid_index (snd w)) qubits ->
      angleEncoding Math_cos Math_sin data qubits scaling w
      = (inr tt,
         with_literals
           (((fun q => (H, q)) <$> qubits)
            ++ ((fun dq : float * number => (RY (fst dq * scaling), snd dq))
                  <$> zip data qubits)) w))
  /\ (forall (good : list number) (bad : number) (rest : list number),
        qubits = good ++ bad :: rest ->
        (length data <= length qubits)%nat ->
        Forall (valid_index (snd w)) good ->
        ~ valid_index (snd w) bad ->
        angleEncoding Math_cos Math_sin data qubits scaling w
        = (inl (Thrown (ErrInvalidQubitIndex bad)),
           (fst (with_literals ((fun q => (H, q)) <$> good) w) ++ [[bad]],
            snd (with_literals ((fun q => (H, q)) <$> good) w))))
  /\ valid_index (snd w) NotANumber
  /\ ((1 <= length (_qubits (snd w)))%nat -> valid_index (snd w) (Finite (1 # 2))).
Proof.
  unfold angleEncoding. split; [| split; [| split; [| split]]].
  - intros Hlt. apply Nat.ltb_lt in Hlt. now rewrite Hlt.
  - intros Hle Hall. apply Nat.ltb_ge in Hle. rewrite Hle.
    assert (E1 : encode_each (addGate_literal H) qubits w
                 = (inr tt, with_literals ((fun q => (H, q)) <$> qubits) w))
      by exact (record_each (fun _ => H) (fun q => q) qubits w (fun _ => eq_refl) Hall).
    rewrite E1. cbv zeta.
    rewrite (record_each (fun dq : float * number => RY (fst dq * scaling)) snd
               (zip data qubits) _ (fun _ => eq_refl)).
    + now rewrite with_literals_app.
    + apply Forall_forall. intros [d q] Hin. cbn [snd].
      apply elem_of_zip_r in Hin. apply valid_index_with_literals.
      exact (proj1 (Forall_forall _ _) Hall q Hin).
  - intros good bad rest -> Hle Hgood Hbad. apply Nat.ltb_ge in Hle. rewrite Hle.
    assert (E1 : encode_each (addGate_literal H) (good ++ bad :: rest) w
                 = (inl (Thrown (ErrInvalidQubitIndex bad)),
                    (fst (with_literals ((fun q => (H, q)) <$> good) w) ++ [[bad]],
                     snd (with_literals ((fun q => (H, q)) <$> good) w))))
      by exact (record_each_invalid (fun _ => H) (fun q => q) good bad rest w
                  (fun _ => eq_refl) Hgood Hbad).
    now rewrite E1.
  - apply nan_is_valid_index.
  - apply half_is_valid_index.
Qed.

Lemma basis_loop_good (good rest : list (float * number)) (w : World) :
  Forall (fun dq => (is_one dq = true /\ valid_index (snd w) (snd dq))
                    \/ (is_one dq = false /\ is_zero dq = true)) good ->
  encode_each (basis_step Math_cos Math_sin) (good ++ rest) w
  = encode_each (basis_step Math_cos Math_sin) rest
      (with_literals ((fun dq => (RX Math_PI, snd dq)) <$> List.filter is_one good) w).
Proof.
  revert w. induction good as [|dq good IH]; intros w Hall.
  - cbn. now rewrite with_literals_nil.
  - cbn [app encode_each List.filter]. unfold basis_step at 1.
    fold (is_one dq). fold (is_zero dq).
    pose proof (Forall_inv_tail Hall) as Htail.
    destruct (Forall_inv Hall) as [[H1 Hv] | [H1 H0]]; rewrite H1.
    + rewrite (addGate_literal_valid (RX Math_PI) (snd dq) w eq_refl Hv).
      rewrite IH by exact Htail.
      cbn [fmap list_fmap]. now rewrite with_literals_app.
    + rewrite H0. cbn [negb]. now apply IH.
Qed.


End Encodings.

Lemma angleEncoding_records_witness :
  let c := {| _qubits := [QubitOps.new_default; QubitOps.new_default];
              _operations := [] |} in
  angleEncoding (fun x => x) (fun x => x) [0x1p-1] [Int 0; Int 1] 0x1p1 ([], c)
  = (inr tt,
     ([[Int 0]; [Int 1]; [Int 0]],
      recorded_on c
        [mkOperation H 0; mkOperation H 1;
         mkOperation (RYGate (fun x => x) (fun x => x) (0x1p-1 * 0x1p1)) 2])).
Proof.
  intros c.
  apply (proj1 (proj2 (angleEncoding_records (fun x => x) (fun x => x) [0x1p-1]
                         [Int 0; Int 1] 0x1p1 ([], c)))).
  - cbn. lia.
  - repeat constructor.
Defined.


(** *** The shape of the state vector *)

Lemma replace_with_shape (compute : StateVector -> result (list Complex))
    (sv : StateVector) :
  (forall v, compute sv = inr v -> Z.of_nat (length v) = (2 ^ _numQubits sv)%Z) ->
  well_formed sv -> well_formed (snd (SV.replace_with compute sv)).
Proof.
  intros Hc Hwf. unfold SV.replace_with.
  destruct (compute sv) as [e|v] eqn:E; [exact Hwf |].
  split; [exact (proj1 Hwf) | exact (Hc v eq_refl)].
Qed.

Lemma single_step_length (old : list Complex) (m : ComplexMatrix) (q i : Z)
    (v v' : list Complex) :
  SV.single_step old m q i v = inr v' -> length v' = length v.
Proof.
  unfold SV.single_step, set_at.
  destruct (_ =? 0)%Z;
    repeat match goal with
           | |- context [R.bind ?r _] => destruct r; cbn [R.bind]; [discriminate |]
           end;
    intros [= <-]; now rewrite !length_insert.
Qed.

Lemma two_inner_length (old : list Complex) (m : ComplexMatrix)
    (control target i stateIndex j : Z) (v v' : list Complex) :
  SV.two_inner old m control target i stateIndex j v = inr v' -> length v' = length v.
Proof.
  unfold SV.two_inner, set_at.
  repeat match goal with
         | |- context [R.bind ?r _] => destruct r; cbn [R.bind]; [discriminate |]
         end.
  intros [= <-]. now rewrite length_insert.
Qed.

Lemma two_step_length (old : list Complex) (m : ComplexMatrix)
    (control target i : Z) (v v' : list Complex) :
  SV.two_step old m control target i v = inr v' -> length v' = length v.
Proof.
  unfold SV.two_step. intros Hrun.
  apply (for_loop_invariant _ (fun w => length w = length v) _ _ _ eq_refl) in Hrun;
    [exact Hrun |].
  intros j a a' _ Ha Hstep. apply two_inner_length in Hstep. congruence.
Qed.

Lemma collapse_step_length (old : list Complex) (q b i : Z)
    (acc acc' : list Complex * float) :
  SV.collapse_step old q b i acc = inr acc' -> length (fst acc') = length (fst acc).
Proof.
  unfold SV.collapse_step, set_at. destruct acc as [w nf].
  destruct (_ =? b)%Z; [| now intros [= <-]].
  destruct (at_ old i); cbn [R.bind]; [discriminate |].
  intros [= <-]. cbn [fst]. now rewrite length_insert.
Qed.

Lemma rescale_step_length (k : float) (i : Z) (v v' : list Complex) :
  SV.rescale_step k i v = inr v' -> length v' = length v.
Proof.
  unfold SV.rescale_step, set_at.
  destruct (at_ v i); cbn [R.bind]; [discriminate |].
  intros [= <-]. now rewrite length_insert.
Qed.

Lemma zeros_shape (sv : StateVector) (zeros : list Complex) :
  well_formed sv ->
  Array_fill (SV.dimension sv) ZERO = inr zeros ->
  Z.of_nat (length zeros) = (2 ^ _numQubits sv)%Z.
Proof.
  intros [Hn _] Hz. apply Array_fill_returns in Hz. destruct Hz as [H0 ->].
  unfold SV.dimension in *. rewrite (shl_one _ Hn) in *.
  rewrite length_replicate. lia.
Qed.

Lemma measure_shape (q : Z) (random : float) (sv : StateVector) :
  well_formed sv -> well_formed (snd (SV.measure q random sv)).
Proof.
  intros Hwf.
  destruct (SV.measure q random sv) as [[e|b] sv'] eqn:Hm.
  - unfold SV.measure in Hm.
    destruct ((q <? 0)%Z || (_numQubits sv <=? q)%Z); [now injection Hm as _ <- |].
    match type of Hm with
    | match ?c with _ => _ end = _ => destruct c as [e'|[v r]]
    end; [now injection Hm as _ <- | discriminate].
  - apply measure_returns in Hm.
    destruct Hm as (prob1 & zeros & c & m & v & _ & _ & _ & Hz & Hc & Hr & ->).
    split; [exact (proj1 Hwf) |]. cbn [snd _stateVector _numQubits].
    rewrite <- (zeros_shape sv zeros Hwf Hz). f_equal.
    apply (for_loop_invariant _ (fun w => length w = length c) _ _ _ eq_refl) in Hr.
    2: { intros i a a' _ Ha Hstep. apply rescale_step_length in Hstep. congruence. }
    assert (Hc' : length (fst (c, m)) = length zeros).
    { eapply (for_loop_invariant (SV.collapse_step (_stateVector sv) q b)
                (fun acc => length (fst acc) = length zeros)); [| | exact Hc].
      - reflexivity.
      - intros i a a' _ Ha Hstep. apply collapse_step_length in Hstep. congruence. }
    cbn [fst] in Hc'. congruence.
Qed.

(** X22: the shape of a state vector never changes.  The constructor
    gives 0 to 15 qubits one amplitude per basis state, and [reset],
    [setState], [applySingleQubitGate], [applyTwoQubitGate], [measure] and
    [measureAll] keep the number of qubits and the number of amplitudes,
    whatever their arguments are and whether they return or throw; [clone]
    returns an equal state vector. *)
Theorem state_vector_shape_is_kept (sv : StateVector) :
  well_formed sv ->
  well_formed (snd (SV.reset sv))
  /\ (forall stateVector, well_formed (snd (SV.setState stateVector sv)))
  /\ (forall gate qubitIndex,
        well_formed (snd (SV.applySingleQubitGate gate qubitIndex sv)))
  /\ (forall gate qubitIndices,
        well_formed (snd (SV.applyTwoQubitGate gate qubitIndices sv)))
  /\ (forall qubitIndex random, well_formed (snd (SV.measure qubitIndex random sv)))
  /\ (forall random, well_formed (snd (SV.measureAll random sv)))
  /\ SV.clone sv = inr sv
  /\ (forall n sv0, (0 <= n)%Z -> SV.new n = inr sv0 -> well_formed sv0).
Proof.
  intros Hwf. pose proof Hwf as [Hn Hlen].
  assert (Hp : (0 < 2 ^ _numQubits sv)%Z) by (apply Z.pow_pos_nonneg; lia).
  split; [| split; [| split; [| split; [| split; [| split; [| split]]]]]].
  - rewrite (reset_within_capacity sv Hn). split; [exact Hn |].
    cbn [snd _stateVector _numQubits length]. rewrite length_replicate. lia.
  - intros v. apply replace_with_shape; [| exact Hwf]. intros w.
    unfold SV.dimension. rewrite (shl_one _ Hn).
    destruct (Z.of_nat (length v) =? 2 ^ _numQubits sv)%Z eqn:E; cbn [negb];
      [| discriminate].
    destruct (_ <? _); [discriminate |]. intros [= <-]. now apply Z.eqb_eq.
  - intros g q. apply replace_with_shape; [| exact Hwf]. intros w.
    destruct (negb _); [discriminate |]. destruct (_ || _); [discriminate |].
    destruct (Array_fill _ _) as [e|zeros] eqn:Hz; [discriminate |]. cbn [R.bind].
    intros Hrun. rewrite <- (zeros_shape sv zeros Hwf Hz). f_equal.
    apply (for_loop_invariant _ (fun w => length w = length zeros) _ _ _ eq_refl) in Hrun;
      [exact Hrun |].
    intros i a a' _ Ha Hstep. apply single_step_length in Hstep. congruence.
  - intros g [q1 q2]. apply replace_with_shape; [| exact Hwf]. intros w.
    destruct (negb _); [discriminate |]. cbv zeta.
    destruct (_ || _); [discriminate |].
    destruct (Number.eqb q1 q2); [discriminate |].
    destruct (if Number.ltb q1 q2 then (q1, q2) else (q2, q1)) as [control target].
    destruct (Array_fill _ _) as [e|zeros] eqn:Hz; [discriminate |]. cbn [R.bind].
    intros Hrun. rewrite <- (zeros_shape sv zeros Hwf Hz). f_equal.
    apply (for_loop_invariant _ (fun w => length w = length zeros) _ _ _ eq_refl) in Hrun;
      [exact Hrun |].
    intros i a a' _ Ha Hstep. apply two_step_length in Hstep. congruence.
  - intros q random. now apply measure_shape.
  - intros random. destruct (measureAll_runs random sv Hwf) as [Ho ->].
    split; [exact Hn |]. cbn [snd _stateVector _numQubits].
    rewrite length_insert, length_replicate. lia.
  - unfold SV.clone. rewrite (new_within_capacity _ Hn). cbn [R.bind _numQubits].
    now destruct sv.
  - intros n sv0 H0 Hnew. destruct (Z_le_gt_dec n 15) as [Hle | Hgt].
    2: { rewrite (new_above_capacity n ltac:(lia)) in Hnew. discriminate. }
    rewrite (new_within_capacity n ltac:(lia)) in Hnew. injection Hnew as <-.
    assert (0 < 2 ^ n)%Z by (apply Z.pow_pos_nonneg; lia).
    split; [cbn; lia |]. cbn [_stateVector _numQubits length].
    rewrite length_replicate. lia.
Qed.

Lemma state_vector_shape_is_kept_witness :
  well_formed (snd (SV.measure 0 0x1p-1
                      (snd (SV.applySingleQubitGate H 1
                              {| _numQubits := 2; _stateVector := uniform2 |})))).
Proof.
  apply state_vector_shape_is_kept.
  apply (state_vector_shape_is_kept {| _numQubits := 2; _stateVector := uniform2 |}).
  split; [cbn; lia | reflexivity].
Defined.

(** *** Classical logic on basis states *)

Lemma register_lookup (bits : list bool) (i : nat) (b : bool) :
  bits !! i = Some b -> register bits !! i = Some (bit_qubit b).
Proof. intros Hb. unfold register. now rewrite list_lookup_fmap, Hb. Qed.

Lemma register_insert (bits : list bool) (i : nat) (b : bool) :
  <[i := bit_qubit b]> (register bits) = register (<[i := b]> bits).
Proof. unfold register. now rewrite list_fmap_insert. Qed.

Lemma classical_step_length (bits : list bool) (op : ClassicalOp) :
  length (classical_step bits op) = length bits.
Proof.
  destruct op as [i | c t | i j]; cbn [classical_step].
  - destruct (bits !! i); [apply length_insert | reflexivity].
  - destruct (bits !! c), (bits !! t); try reflexivity. apply length_insert.
  - destruct (bits !! i), (bits !! j); try reflexivity. now rewrite !length_insert.
Qed.

Lemma qubit_ref_of_nat (c : QuantumCircuit) (i : nat) :
  (i < length (_qubits c))%nat -> Circuit.qubit_ref c (Z.of_nat i) = Some i.
Proof.
  intros Hi. unfold Circuit.qubit_ref, Circuit.qubits_length.
  destruct (Z.of_nat i <? 0)%Z eqn:E1; [apply Z.ltb_lt in E1; lia |].
  destruct (Z.of_nat i <? Z.of_nat (length (_qubits c)))%Z eqn:E2;
    [| apply Z.ltb_ge in E2; lia].
  now rewrite Nat2Z.id.
Qed.

(** X is NOT. *)
Lemma X_on_register (bits : list bool) (i : nat) (b : bool) :
  bits !! i = Some b ->
  apply X [Some i] (register bits) = (inr tt, register (<[i := negb b]> bits)).
Proof.
  intros Hb. pose proof (register_lookup bits i b Hb) as Hq.
  rewrite <- register_insert.
  change (apply X) with (SingleQubitGate_apply (name X) (matrix X)).
  unfold SingleQubitGate_apply. cbn [length Nat.eqb negb arg lookup list_lookup].
  unfold M.bind, M.lift, deref, call_setState. cbn [entry at_ matrix X PauliXGate SingleQubitGate].
  unfold Store in *. rewrite Hq. cbn [R.bind at_ lookup list_lookup Z.ltb Z.compare Z.to_nat].
  cbn. rewrite Hq. f_equal. f_equal. now destruct b.
Qed.

(** CNOT is XOR into the target, when control and target are two qubits. *)
Lemma CNOT_on_register (bits : list bool) (control target : nat) (c t : bool) :
  bits !! control = Some c -> bits !! target = Some t ->
  apply CNOT [Some control; Some target] (register bits)
  = (inr tt, register (<[target := xorb c t]> bits)).
Proof.
  intros Hc Ht.
  pose proof (register_lookup bits control c Hc) as Hqc.
  pose proof (register_lookup bits target t Ht) as Hqt.
  change (apply CNOT) with CNOTGate_apply. unfold CNOTGate_apply.
  cbn [length Nat.eqb negb arg lookup list_lookup].
  unfold M.bind, deref, call_setState, M.ret. unfold Store in *.
  rewrite Hqc. destruct c.
  - change (0 <? QubitOps.probabilityOne (bit_qubit true)) with true. cbn beta iota.
    rewrite Hqt. cbn beta iota. rewrite Hqt.
    rewrite <- register_insert. f_equal. f_equal. now destruct t.
  - change (0 <? QubitOps.probabilityOne (bit_qubit false)) with false. cbn iota.
    cbn [xorb]. now rewrite list_insert_id.
Qed.

(** SWAP exchanges. *)
Lemma SWAP_on_register (bits : list bool) (i j : nat) (a b : bool) :
  bits !! i = Some a -> bits !! j = Some b ->
  apply SWAP [Some i; Some j] (register bits)
  = (inr tt, register (<[j := a]> (<[i := b]> bits))).
Proof.
  intros Ha Hb.
  destruct (swap_runs [Some i; Some j] (register bits) i j (bit_qubit a) (bit_qubit b)
              eq_refl eq_refl eq_refl (register_lookup _ _ _ Ha) (register_lookup _ _ _ Hb))
    as (a' & _ & E).
  change (apply SWAP) with SWAPGate_apply. rewrite E.
  rewrite <- !register_insert. f_equal.
  replace (QubitOps.setState (bit_qubit a) (alpha (bit_qubit b)) (beta (bit_qubit b)))
    with (bit_qubit b) by now destruct b.
  replace (QubitOps.setState a' (alpha (bit_qubit a)) (beta (bit_qubit a)))
    with (bit_qubit a) by now destruct a.
  reflexivity.
Qed.

Lemma classical_operation_runs (arrays : Arrays) (bits : list bool) (op : Operation)
    (cop : ClassicalOp) (ops : list Operation) :
  stands_for arrays op cop ->
  fits (length bits) cop ->
  Circuit.execute_step arrays op {| _qubits := register bits; _operations := ops |}
  = (inr tt, {| _qubits := register (classical_step bits cop); _operations := ops |}).
Proof.
  intros [Hg Hq] Hfit. unfold Circuit.execute_step. rewrite Hq, Hg.
  unfold Circuit.on_qubits. cbn [_qubits _operations].
  assert (Hlen : length (register bits) = length bits)
    by (unfold register; apply length_fmap).
  destruct cop as [i | c t | i j]; cbn [fits] in Hfit;
    cbn [gate_of indices_of fmap list_fmap classical_step]; rewrite !qubit_at_Int.
  - destruct (lookup_lt_is_Some_2 bits i Hfit) as [b Hb].
    rewrite qubit_ref_of_nat by (cbn [_qubits]; lia). unfold ref.
    now rewrite (X_on_register bits i b Hb), Hb.
  - destruct Hfit as (Hc & Ht & _).
    destruct (lookup_lt_is_Some_2 bits c Hc) as [bc Hbc].
    destruct (lookup_lt_is_Some_2 bits t Ht) as [bt Hbt].
    rewrite !qubit_ref_of_nat by (cbn [_qubits]; lia). unfold ref.
    now rewrite (CNOT_on_register bits c t bc bt Hbc Hbt), Hbc, Hbt.
  - destruct Hfit as (Hi & Hj).
    destruct (lookup_lt_is_Some_2 bits i Hi) as [a Ha].
    destruct (lookup_lt_is_Some_2 bits j Hj) as [b Hb].
    rewrite !qubit_ref_of_nat by (cbn [_qubits]; lia). unfold ref.
    now rewrite (SWAP_on_register bits i j a b Ha Hb), Ha, Hb.
Qed.

Lemma classical_loop (arrays : Arrays) (todo : list ClassicalOp) (bits : list bool)
    (run ops : list Operation) :
  Forall2 (stands_for arrays) run todo ->
  Forall (fits (length bits)) todo ->
  M.for_each (Circuit.execute_step arrays) run
    {| _qubits := register bits; _operations := ops |}
  = (inr tt, {| _qubits := register (foldl classical_step bits todo);
                _operations := ops |}).
Proof.
  intros Hrun. revert bits.
  induction Hrun as [|op cop run todo Hop _ IH]; intros bits Hall; [reflexivity |].
  cbn [M.for_each foldl]. unfold M.bind at 1.
  rewrite (classical_operation_runs arrays bits op cop ops Hop (Forall_inv Hall)).
  apply IH. rewrite classical_step_length. exact (Forall_inv_tail Hall).
Qed.

Lemma measure_register (randoms : nat -> float) (i : nat) (bits : list bool) :
  (forall k, is_draw (randoms k)) ->
  Circuit.measure_from randoms i (register bits) = (register bits, Z.b2z <$> bits).
Proof.
  intros Hdraw. revert i. induction bits as [|b bits IH]; intros i; [reflexivity |].
  cbn [register fmap list_fmap Circuit.measure_from].
  change (list_fmap bool Qubit bit_qubit bits) with (register bits). rewrite IH.
  destruct (Hdraw i) as [H0 H1]. unfold QubitOps.measure. destruct b.
  - change (QubitOps.probabilityZero (bit_qubit true)) with 0.
    now rewrite (FloatFacts.not_below_zero _ H0).
  - change (QubitOps.probabilityZero (bit_qubit false)) with 1.
    now rewrite H1.
Qed.

(** X23: reversible classical logic runs exactly.  On a circuit whose
    qubits hold classical bits (|0> or |1>), executing any recorded sequence
    of X, CNOT and SWAP operations whose arrays hold the integer indices of
    existing qubits (two different ones for CNOT) leaves the qubits holding
    the bits that NOT, XOR into the target and exchange compute, with no
    rounding; [measureAll] then returns exactly those bits and leaves them
    in place, for all draws in [0, 1). *)
Theorem classical_circuits_compute
    (arrays : Arrays) (ops : list Operation) (bits : list bool)
    (todo : list ClassicalOp) (randoms : nat -> float) :
  Forall2 (stands_for arrays) ops todo ->
  Forall (fits (length bits)) todo ->
  (forall k, is_draw (randoms k)) ->
  let c := {| _qubits := register bits; _operations := ops |} in
  let result := foldl classical_step bits todo in
  let c' := {| _qubits := register result; _operations := ops |} in
  Circuit.execute arrays c = (inr tt, c')
  /\ Circuit.measureAll randoms c' = (inr (Z.b2z <$> result), c').
Proof.
  intros Hops Hfit Hdraw c result c'. split.
  - unfold Circuit.execute. subst c. cbn [_operations]. now apply classical_loop.
  - unfold Circuit.measureAll. subst c'. cbn [_qubits _operations].
    now rewrite (measure_register randoms 0 result Hdraw).
Qed.

Lemma classical_circuits_compute_witness :
  let arrays := [[Int 0; Int 1]; [Int 0]; [Int 1; Int 2]] in
  let ops := [mkOperation CNOT 0; mkOperation X 1; mkOperation SWAP 2] in
  Circuit.execute arrays
    {| _qubits := register [true; false; false]; _operations := ops |}
  = (inr tt, {| _qubits := register [false; false; true]; _operations := ops |})
  /\ Circuit.measureAll (fun _ => 0x1p-1)
       {| _qubits := register [false; false; true]; _operations := ops |}
     = (inr [0%Z; 0%Z; 1%Z],
        {| _qubits := register [false; false; true]; _operations := ops |}).
Proof.
  intros arrays ops.
  apply (classical_circuits_compute arrays ops [true; false; false]
           [XOR 0 1; NOT 0; EXCHANGE 1 2] (fun _ => 0x1p-1)).
  - repeat constructor.
  - repeat constructor; cbn; lia.
  - intros k. split; reflexivity.
Defined.

(** *** [amplitudeEncoding] *)

Lemma norm_of_zero_data (data : list float) :
  Forall (fun value => value = 0 \/ value = -0) data ->
  foldl (fun norm value => norm + value * value) 0 data = 0.
Proof.
  induction 1 as [|value data Hv _ IH]; [reflexivity |].
  cbn [foldl]. replace (0 + value * value) with 0; [exact IH |].
  destruct Hv as [-> | ->]; reflexivity.
Qed.

(** X24: what [amplitudeEncoding] refuses before it touches the circuit:
    more data values than [1 << qubits.length], and data that are all zeros
    (an empty list included).  In both cases it throws and the circuit is as
    it was, not reset. *)
Theorem amplitudeEncoding_refuses
    (data : list float) (qubits : list Z) (circuit : QuantumCircuit) :
  ((Int32.shl 1 (Z.of_nat (length qubits)) < Z.of_nat (length data))%Z ->
   amplitudeEncoding data qubits circuit
   = (inl (ErrCannotEncode (length data) (Z.of_nat (length qubits))), circuit))
  /\ ((Z.of_nat (length data) <= Int32.shl 1 (Z.of_nat (length qubits)))%Z ->
      Forall (fun value => value = 0 \/ value = -0) data ->
      amplitudeEncoding data qubits circuit = (inl ErrAllZeros, circuit)).
Proof.
  unfold amplitudeEncoding. split.
  - intros Hlt. apply Z.ltb_lt in Hlt. now rewrite Hlt.
  - intros Hle Hzero. apply Z.ltb_ge in Hle. rewrite Hle.
    now rewrite (norm_of_zero_data data Hzero).
Qed.

Lemma amplitudeEncoding_refuses_witness :
  amplitudeEncoding [1; 0; 1] [0%Z]
    {| _qubits := [mkQubit ZERO ONE]; _operations := [mkOperation H 0] |}
  = (inl (ErrCannotEncode 3 1),
     {| _qubits := [mkQubit ZERO ONE]; _operations := [mkOperation H 0] |})
  /\ amplitudeEncoding [0; -0] [0%Z]
       {| _qubits := [mkQubit ZERO ONE]; _operations := [mkOperation H 0] |}
     = (inl ErrAllZeros,
        {| _qubits := [mkQubit ZERO ONE]; _operations := [mkOperation H 0] |}).
Proof.
  split.
  - apply (amplitudeEncoding_refuses [1; 0; 1] [0%Z]). vm_compute. reflexivity.
  - apply (amplitudeEncoding_refuses [0; -0] [0%Z]).
    + vm_compute. discriminate.
    + constructor; [now left | constructor; [now right | constructor]].
Defined.

Lemma shl_one_30 (n : Z) : (0 <= n <= 30)%Z -> Int32.shl 1 n = (2 ^ n)%Z.
Proof.
  intros Hn. unfold Int32.shl.
  replace (Z.land n 31) with n.
  2: { change 31%Z with (Z.ones 5). rewrite Z.land_ones by lia.
       rewrite Z.mod_small; [reflexivity | change (2 ^ 5)%Z with 32%Z; lia]. }
  rewrite (wrap_small 1) by lia. rewrite Z.shiftl_1_l.
  assert (0 < 2 ^ n <= 2 ^ 30)%Z.
  { split; [apply Z.pow_pos_nonneg; lia | apply Z.pow_le_mono_r; lia]. }
  apply wrap_small. lia.
Qed.

Lemma pow2_as_positive (j : nat) : (2 ^ Z.of_nat j)%Z = Zpos (Nat.iter j xO xH).
Proof.
  induction j as [|j IH]; [reflexivity |].
  rewrite Nat2Z.inj_succ, Z.pow_succ_r by lia. rewrite IH. reflexivity.
Qed.

Lemma binary_digits_pow2 (j : nat) :
  binary_digits (Nat.iter j xO xH) = "1"%char :: replicate j "0"%char.
Proof.
  induction j as [|j IH]; [reflexivity |].
  change (Nat.iter (S j) xO xH) with (xO (Nat.iter j xO xH)).
  cbn [binary_digits]. rewrite IH.
  cbn [app replicate]. f_equal. symmetry. apply replicate_cons_app.
Qed.

(** The binary string of 2^j padded to k characters has its only ["1"] at
    position k - 1 - j. *)
Lemma padded_pow2 (k j : nat) :
  (j < k)%nat ->
  padStart (toString2 (2 ^ Z.of_nat j)) (Z.of_nat k)
  = replicate (k - 1 - j) "0"%char ++ "1"%char :: replicate j "0"%char.
Proof.
  intros Hj. unfold padStart. rewrite pow2_as_positive. cbn [toString2].
  rewrite binary_digits_pow2. cbn [length]. rewrite length_replicate, Nat2Z.id.
  now replace (k - S j)%nat with (k - 1 - j)%nat by lia.
Qed.

Lemma padded_pow2_char (k j : nat) (j' : Z) :
  (j < k)%nat -> (0 <= j')%Z ->
  let position := (Z.of_nat k - 1 - j')%Z in
  (if (position <? 0)%Z then None
   else padStart (toString2 (2 ^ Z.of_nat j)) (Z.of_nat k) !! Z.to_nat position)
  = Some "1"%char
  <-> j' = Z.of_nat j.
Proof.
  intros Hj Hj' position. rewrite (padded_pow2 k j Hj).
  destruct (position <? 0)%Z eqn:E.
  - apply Z.ltb_lt in E. split; [discriminate | subst position; lia].
  - apply Z.ltb_ge in E. subst position.
    destruct (Z.eq_dec j' (Z.of_nat j)) as [-> | Hne].
    + replace (Z.to_nat (Z.of_nat k - 1 - Z.of_nat j)) with (k - 1 - j)%nat by lia.
      rewrite lookup_app_r by (rewrite length_replicate; lia).
      rewrite length_replicate, Nat.sub_diag. now split.
    + split; [| contradiction]. intros Hl. exfalso.
      destruct (Z_lt_le_dec (Z.of_nat j) j') as [Hgt | Hle].
      * rewrite lookup_app_l in Hl by (rewrite length_replicate; lia).
        apply lookup_replicate in Hl. destruct Hl as [Hl _]. discriminate.
      * rewrite lookup_app_r in Hl by (rewrite length_replicate; lia).
        rewrite length_replicate in Hl.
        destruct (Z.to_nat (Z.of_nat k - 1 - j') - (k - 1 - j))%nat as [|m] eqn:Em; [lia |].
        cbn [lookup list_lookup] in Hl. change (replicate j "0"%char !! m = Some "1"%char) in Hl.
        apply lookup_replicate in Hl. destruct Hl as [Hl _]. discriminate.
Qed.

Section AmplitudeIndex.

Variables (binaryString : list ascii) (numQubits J : Z).

Local Abbreviation char_at j :=
  (if (numQubits - 1 - j <? 0)%Z then None
   else binaryString !! Z.to_nat (numQubits - 1 - j)).

Hypothesis only_one : forall j, (0 <= j)%Z -> char_at j = Some "1"%char <-> j = J.

Lemma amplitude_index_past (rest : list Z) (j index : Z) :
  (J < j)%Z -> (0 <= j)%Z ->
  amplitude_index binaryString numQubits j rest index = index.
Proof.
  revert j index. induction rest as [|q rest IH]; intros j index Hj H0; [reflexivity |].
  cbn [amplitude_index]. cbv zeta.
  destruct (decide (char_at j = Some "1"%char)) as [E | _].
  - apply only_one in E; lia.
  - apply IH; lia.
Qed.

Lemma amplitude_index_single (pre : list Z) (q : Z) (rest : list Z) (j : Z) :
  (0 <= j)%Z -> J = (j + Z.of_nat (length pre))%Z ->
  amplitude_index binaryString numQubits j (pre ++ q :: rest) 0
  = Int32.or 0 (Int32.shl 1 q).
Proof.
  revert j. induction pre as [|p pre IH]; intros j H0 HJ.
  - cbn [app amplitude_index]. cbv zeta. cbn [length] in HJ.
    destruct (decide (char_at j = Some "1"%char)) as [_ | E].
    + apply amplitude_index_past; lia.
    + exfalso. apply E. apply only_one; lia.
  - cbn [app amplitude_index]. cbv zeta. cbn [length] in HJ.
    destruct (decide (char_at j = Some "1"%char)) as [E | _].
    + apply only_one in E; lia.
    + apply IH; lia.
Qed.

End AmplitudeIndex.

Lemma initialize_cases (index : Z) (a b : Complex) (c : QuantumCircuit) :
  Circuit.initialize index a b c = (inl (ErrInvalidQubitIndex (Int index)), c)
  \/ exists c', Circuit.initialize index a b c = (inr tt, c')
                /\ _operations c' = _operations c
                /\ length (_qubits c') = length (_qubits c).
Proof.
  unfold Circuit.initialize.
  destruct ((index <? 0)%Z || (Circuit.qubits_length c <=? index)%Z) eqn:E; [now left |].
  right. apply orb_false_iff in E. destruct E as [E1 E2].
  apply Z.ltb_ge in E1. apply Z.leb_gt in E2.
  destruct (qubit_ref_valid c index ltac:(unfold Circuit.qubits_length in *; lia))
    as (l & q & -> & Hq).
  unfold Circuit.on_qubits, call_setState. unfold Store in *. rewrite Hq.
  eexists. split; [reflexivity |]. cbn [_operations _qubits].
  split; [reflexivity | apply length_insert].
Qed.

Lemma initialize_outside (index : Z) (a b : Complex) (c : QuantumCircuit) :
  (index < 0 \/ Z.of_nat (length (_qubits c)) <= index)%Z ->
  Circuit.initialize index a b c = (inl (ErrInvalidQubitIndex (Int index)), c).
Proof.
  intros Hi. unfold Circuit.initialize, Circuit.qubits_length.
  destruct (Z.ltb_spec index 0); [reflexivity |].
  destruct (Z.leb_spec (Z.of_nat (length (_qubits c))) index); [reflexivity | lia].
Qed.

Lemma wrap_range (x : Z) : (- 2 ^ 31 <= Int32.wrap x < 2 ^ 31)%Z.
Proof.
  unfold Int32.wrap.
  pose proof (Z.mod_pos_bound (x + 2 ^ 31) (2 ^ 32) ltac:(lia)). lia.
Qed.

Lemma or_zero_shl (q : Z) : Int32.or 0 (Int32.shl 1 q) = Int32.shl 1 q.
Proof.
  unfold Int32.or. change (Int32.wrap 0) with 0%Z. rewrite Z.lor_0_l.
  unfold Int32.shl. apply wrap_small. apply wrap_range.
Qed.

(** The outer loop throws at the latest when it comes to a value whose
    iteration throws. *)
Lemma amplitude_loop_throws (qubits : list Z) (n : nat) (pre : list float)
    (value : float) (rest : list float) (i : Z) (c : QuantumCircuit) :
  _operations c = [] -> length (_qubits c) = n ->
  (forall c', length (_qubits c') = n ->
     exists index, amplitude_step qubits (i + Z.of_nat (length pre)) value c'
                   = (inl (Thrown (ErrInvalidQubitIndex index)), c')) ->
  exists index c',
    amplitude_loop qubits i (pre ++ value :: rest) c
    = (inl (Thrown (ErrInvalidQubitIndex index)), c')
    /\ _operations c' = [] /\ length (_qubits c') = n.
Proof.
  revert i c. induction pre as [|v pre IH]; intros i c Hops Hlen Hthrow.
  - cbn [app amplitude_loop]. cbn [length] in Hthrow.
    rewrite Z.add_0_r in Hthrow. destruct (Hthrow c Hlen) as [index ->].
    exists index, c. now repeat split.
  - cbn [app amplitude_loop]. unfold amplitude_step at 1. unfold engine.
    destruct (initialize_cases
                (amplitude_index (padStart (toString2 i) (Z.of_nat (length qubits)))
                   (Z.of_nat (length qubits)) 0 qubits 0)
                (complex v 0) (complex 0 0) c) as [-> | (c1 & -> & Hops1 & Hlen1)].
    + eexists _, c. now repeat split.
    + apply IH; [congruence | congruence |].
      intros c' Hc'. cbn [length] in Hthrow.
      replace (i + 1 + Z.of_nat (length pre))%Z with (i + Z.of_nat (S (length pre)))%Z by lia.
      now apply Hthrow.
Qed.

(** X25: [amplitudeEncoding] hands basis-state numbers to [initialize],
    which takes them for qubit indices.  When the data pass the two checks
    and [qubits] (1 to 30 entries) contain an index q for which [1 << q], the
    32-bit shift of the language, is negative or at or above the number of
    qubits of the circuit, the call throws "Invalid qubit index" after it
    has reset the circuit: the operations are gone and the number of qubits
    is as it was.  For q from 0 to 30, [1 << q] is
    2^q; the shift count is taken modulo 32, so [1 << 32] is 1 and
    [1 << 31] is negative. *)
Theorem amplitudeEncoding_throws_on_high_qubit :
  (forall (data : list float) (qubits : list Z) (circuit : QuantumCircuit)
          (J : nat) (q : Z),
      (1 <= length qubits <= 30)%nat ->
      (Z.of_nat (length data) <= 2 ^ Z.of_nat (length qubits))%Z ->
      (Num.Math_sqrt (foldl (fun norm value => norm + value * value) 0 data) =? 0) = false ->
      qubits !! J = Some q ->
      (Int32.shl 1 q < 0 \/ Z.of_nat (length (_qubits circuit)) <= Int32.shl 1 q)%Z ->
      exists index c',
        amplitudeEncoding data qubits circuit
        = (inl (Thrown (ErrInvalidQubitIndex index)), c')
        /\ _operations c' = []
        /\ length (_qubits c') = length (_qubits circuit))
  /\ (forall q : Z, (0 <= q <= 30)%Z -> Int32.shl 1 q = (2 ^ q)%Z)
  /\ Int32.shl 1 32 = 1%Z
  /\ (Int32.shl 1 31 < 0)%Z.
Proof.
  split; [| split; [exact shl_one_30 | split; [reflexivity | reflexivity]]].
  intros data qubits circuit J q Hk Hdata Hnorm Hq Hn.
  set (k := length qubits) in *.
  assert (HJ : (J < k)%nat) by (subst k; now apply lookup_lt_Some in Hq).
  unfold amplitudeEncoding. fold k. rewrite (shl_one_30 (Z.of_nat k)) by lia.
  destruct (2 ^ Z.of_nat k <? Z.of_nat (length data))%Z eqn:E;
    [apply Z.ltb_lt in E; lia |].
  rewrite Hnorm. unfold engine at 1. cbn [Circuit.reset].
  set (norm := Num.Math_sqrt _).
  set (normalizedData := _ ++ _).
  set (c1 := {| _qubits := _; _operations := [] |}).
  assert (Hpk : (0 < 2 ^ Z.of_nat k)%Z) by (apply Z.pow_pos_nonneg; lia).
  assert (HpJ : (0 < 2 ^ Z.of_nat J < 2 ^ Z.of_nat k)%Z).
  { split; [apply Z.pow_pos_nonneg; lia | apply Z.pow_lt_mono_r; lia]. }
  assert (Hlen : length normalizedData = Z.to_nat (2 ^ Z.of_nat k)).
  { subst normalizedData. rewrite length_app, length_fmap, length_replicate. lia. }
  destruct (lookup_lt_is_Some_2 normalizedData (Z.to_nat (2 ^ Z.of_nat J)) ltac:(lia))
    as [value Hvalue].
  rewrite <- (take_drop_middle normalizedData _ value Hvalue).
  apply (amplitude_loop_throws qubits (length (_qubits circuit))).
  - reflexivity.
  - subst c1. cbn [_qubits]. apply length_fmap.
  - intros c' Hc'. rewrite length_take, Hlen.
    replace (0 + Z.of_nat (Z.to_nat (2 ^ Z.of_nat J) `min` Z.to_nat (2 ^ Z.of_nat k)))%Z
      with (2 ^ Z.of_nat J)%Z by lia.
    unfold amplitude_step, engine. fold k.
    assert (Hpre : length (take J qubits) = J) by (rewrite length_take; lia).
    replace (amplitude_index (padStart (toString2 (2 ^ Z.of_nat J)) (Z.of_nat k))
               (Z.of_nat k) 0 qubits 0)
      with (amplitude_index (padStart (toString2 (2 ^ Z.of_nat J)) (Z.of_nat k))
              (Z.of_nat k) 0 (take J qubits ++ q :: drop (S J) qubits) 0)
      by now rewrite (take_drop_middle qubits J q Hq).
    rewrite (amplitude_index_single _ (Z.of_nat k) (Z.of_nat J)
               (fun j Hj => padded_pow2_char k J j HJ Hj)
               (take J qubits) q (drop (S J) qubits) 0 ltac:(lia) ltac:(lia)).
    rewrite or_zero_shl.
    rewrite initialize_outside by (rewrite Hc'; exact Hn). eauto.
Qed.

Lemma amplitudeEncoding_throws_on_high_qubit_witness :
  exists index c',
    amplitudeEncoding [1; 0; 0; 0] [0%Z; 1%Z]
      {| _qubits := [QubitOps.new_default; QubitOps.new_default];
         _operations := [mkOperation H 0] |}
    = (inl (Thrown (ErrInvalidQubitIndex index)), c')
    /\ _operations c' = []
    /\ length (_qubits c') = 2%nat.
Proof.
  apply (proj1 amplitudeEncoding_throws_on_high_qubit [1; 0; 0; 0] [0%Z; 1%Z]
           {| _qubits := [QubitOps.new_default; QubitOps.new_default];
              _operations := [mkOperation H 0] |} 1%nat 1%Z).
  - cbn. lia.
  - cbn. lia.
  - reflexivity.
  - reflexivity.
  - right. vm_compute. discriminate.
Defined.
